(** * Zip puzzle: generator, solvability check and move state machine

    A shallow embedding of [src/game/types.ts], [src/game/generator.ts],
    [src/game/logic.ts] and of the move guard of [App.tsx], with the
    properties of the written specification stated and settled against
    it.

    Conventions of the embedding
    - a JavaScript [number] that holds a grid index, a clue value or a
      visit order is an integer [Z];
    - [T | null] and [T | undefined] are [option T];
    - an uncaught [TypeError] (reading a property of [undefined], as in
      [grid[r][c].value] with [r] or [c] outside the matrix) is the
      [Throws] outcome of the [outcome] monad;
    - [Map<number, Coordinate>] is a [gmap Z Coordinate], and a
      [Set<string>] whose keys are the template strings [`${row},${col}`]
      is a [gset (Z * Z)] of the pairs these strings encode. *)

From stdpp Require Import base tactics option list numbers sorting gmap strings.

#[local] Set Warnings "-clear-no-such-hyp".
#[local] Open Scope Z_scope.

(** ** Outcomes: a value or an uncaught exception *)

Inductive outcome (A : Type) : Type :=
  | Returns (a : A)
  | Throws.
Arguments Returns {A} a.
Arguments Throws {A}.

#[global] Instance outcome_bind : MBind outcome := λ A B f m,
  match m with
  | Returns a => f a
  | Throws => Throws
  end.

(** [o!] of TypeScript followed by a property access: [undefined] throws. *)
Definition unwrap {A} (o : option A) : outcome A :=
  match o with
  | Some a => Returns a
  | None => Throws
  end.

(** ** types.ts *)

Record Coordinate : Type := mkCoordinate { row : Z; col : Z }.

#[global] Instance Coordinate_eq_dec : EqDecision Coordinate.
Proof. solve_decision. Defined.

Record Cell : Type := mkCell {
  cell_row : Z;
  cell_col : Z;
  value : option Z;
  isFixed : bool;
  visitedOrder : option Z
}.

#[global] Instance Cell_eq_dec : EqDecision Cell.
Proof. solve_decision. Defined.

Inductive Orientation : Type := horizontal | vertical.

#[global] Instance Orientation_eq_dec : EqDecision Orientation.
Proof. solve_decision. Defined.

Record Wall : Type := mkWall {
  wall_row : Z;
  wall_col : Z;
  orientation : Orientation
}.

#[global] Instance Wall_eq_dec : EqDecision Wall.
Proof. solve_decision. Defined.

(** An entry of [Level.initialValues]. *)
Record Clue : Type := mkClue { clue_row : Z; clue_col : Z; clue_value : Z }.

#[global] Instance Clue_eq_dec : EqDecision Clue.
Proof. solve_decision. Defined.

Record Level : Type := mkLevel {
  level_id : string;
  rows : Z;
  cols : Z;
  initialValues : list Clue;
  walls : list Wall
}.

#[global] Instance Level_eq_dec : EqDecision Level.
Proof. solve_decision. Defined.

Record GameState : Type := mkGameState {
  level : Level;
  grid : list (list Cell);
  currentPath : list Coordinate;
  isComplete : bool;
  lastVisitedNumber : Z
}.

#[global] Instance GameState_eq_dec : EqDecision GameState.
Proof. solve_decision. Defined.

(** ** Arrays of arrays *)

(** [g[r][c]] followed by a property access: outside the matrix the
    read is [undefined] and the access throws. *)
Definition grid_at (g : list (list Cell)) (r c : Z) : option Cell :=
  if decide (0 ≤ r ∧ 0 ≤ c)
  then g !! Z.to_nat r ≫= λ cells, cells !! Z.to_nat c
  else None.

(** [g[r][c].field = v] on a matrix of records. *)
Definition grid_set (f : Cell → Cell) (g : list (list Cell)) (r c : Z)
    : outcome (list (list Cell)) :=
  match grid_at g r c with
  | Some _ => Returns (alter (alter f (Z.to_nat c)) (Z.to_nat r) g)
  | None => Throws
  end.

Definition set_value (v : option Z) (x : Cell) : Cell :=
  mkCell (cell_row x) (cell_col x) v (isFixed x) (visitedOrder x).
Definition set_isFixed (b : bool) (x : Cell) : Cell :=
  mkCell (cell_row x) (cell_col x) (value x) b (visitedOrder x).
Definition set_visitedOrder (o : option Z) (x : Cell) : Cell :=
  mkCell (cell_row x) (cell_col x) (value x) (isFixed x) o.

(** [Math.max(...xs)]: [None] stands for [-Infinity], the result on an
    empty argument list. *)
Definition math_max (xs : list Z) : option Z :=
  match xs with
  | [] => None
  | x :: xs' => Some (foldl Z.max x xs')
  end.

(** [path.findIndex(p => p.row === target.row && p.col === target.col)]:
    [None] stands for [-1]. *)
Definition findIndex (path : list Coordinate) (target : Coordinate) : option nat :=
  fst <$> list_find (λ p, row p = row target ∧ col p = col target) path.

(** ** logic.ts *)

Definition blankGrid (rows cols : Z) : list (list Cell) :=
  (λ r, (λ c, mkCell r c None false None) <$> seqZ 0 cols) <$> seqZ 0 rows.

(** The [forEach] that stamps the clues on the grid. *)
Fixpoint stampClues (g : list (list Cell)) (ivs : list Clue) : outcome (list (list Cell)) :=
  match ivs with
  | [] => Returns g
  | iv :: ivs' =>
      g1 ← grid_set (set_value (Some (clue_value iv))) g (clue_row iv) (clue_col iv);
      g2 ← grid_set (set_isFixed true) g1 (clue_row iv) (clue_col iv);
      stampClues g2 ivs'
  end.

Definition initializeGame (level : Level) : outcome GameState :=
  g ← stampClues (blankGrid (rows level) (cols level)) (initialValues level);
  match list_find (λ v, clue_value v = 1) (initialValues level) with
  | Some (_, startCell) =>
      g' ← grid_set (set_visitedOrder (Some 1)) g (clue_row startCell) (clue_col startCell);
      Returns (mkGameState level g'
                 [mkCoordinate (clue_row startCell) (clue_col startCell)] false 1)
  | None => Returns (mkGameState level g [] false 0)
  end.

Definition wallBetween (from to : Coordinate) (wall : Wall) : bool :=
  match orientation wall with
  | horizontal =>
      bool_decide (col from = wall_col wall ∧ col to = wall_col wall) &&
      (bool_decide (row from = wall_row wall ∧ row to = wall_row wall + 1) ||
       bool_decide (row from = wall_row wall + 1 ∧ row to = wall_row wall))
  | vertical =>
      bool_decide (row from = wall_row wall ∧ row to = wall_row wall) &&
      (bool_decide (col from = wall_col wall ∧ col to = wall_col wall + 1) ||
       bool_decide (col from = wall_col wall + 1 ∧ col to = wall_col wall))
  end.

Definition hasWall (walls : list Wall) (from to : Coordinate) : bool :=
  existsb (wallBetween from to) walls.

Definition inBounds (rows cols : Z) (p : Coordinate) : Prop :=
  0 ≤ row p ∧ row p < rows ∧ 0 ≤ col p ∧ col p < cols.

#[global] Instance inBounds_dec rows cols p : Decision (inBounds rows cols p).
Proof. unfold inBounds. apply _. Defined.

Definition isValidMove (gameState : GameState) (target : Coordinate) : outcome bool :=
  match last (currentPath gameState) with
  | None => Returns false
  | Some current =>
      if decide (inBounds (rows (level gameState)) (cols (level gameState)) target) then
        let dRow := Z.abs (row target - row current) in
        let dCol := Z.abs (col target - col current) in
        match findIndex (currentPath gameState) target with
        | Some _ => Returns true
        | None =>
            if decide (dRow + dCol ≠ 1) then Returns false else
            targetCell ← unwrap (grid_at (grid gameState) (row target) (col target));
            if decide (visitedOrder targetCell ≠ None) then Returns false else
            if hasWall (walls (level gameState)) current target then Returns false else
            match isFixed targetCell, value targetCell with
            | true, Some v =>
                if decide (v ≠ lastVisitedNumber gameState + 1)
                then Returns false else Returns true
            | _, _ => Returns true
            end
        end
      else Returns false
  end.

(** The loop of the rewind branch that clears [visitedOrder] on the
    cells after the rewind point. *)
Fixpoint clearVisited (g : list (list Cell)) (ps : list Coordinate)
    : outcome (list (list Cell)) :=
  match ps with
  | [] => Returns g
  | p :: ps' =>
      g' ← grid_set (set_visitedOrder None) g (row p) (col p);
      clearVisited g' ps'
  end.

(** The loop of the rewind branch that recomputes [lastVisitedNumber]. *)
Fixpoint recomputeLast (g : list (list Cell)) (ps : list Coordinate) (acc : Z) : outcome Z :=
  match ps with
  | [] => Returns acc
  | p :: ps' =>
      c ← unwrap (grid_at g (row p) (col p));
      match value c with
      | Some val =>
          if isFixed c && bool_decide (val > acc)
          then recomputeLast g ps' val
          else recomputeLast g ps' acc
      | None => recomputeLast g ps' acc
      end
  end.

Definition rewindTo (gameState : GameState) (pathIndex : nat) : outcome GameState :=
  newGrid ← clearVisited (grid gameState) (drop (S pathIndex) (currentPath gameState));
  let newPath := take (S pathIndex) (currentPath gameState) in
  newLastVisited ← recomputeLast newGrid newPath 0;
  Returns (mkGameState (level gameState) newGrid newPath false newLastVisited).

Definition extendTo (gameState : GameState) (target : Coordinate) : outcome GameState :=
  valid ← isValidMove gameState target;
  if negb valid then Returns gameState else
  let len := Z.of_nat (length (currentPath gameState)) in
  targetCell ← unwrap (grid_at (grid gameState) (row target) (col target));
  newGrid ← grid_set (set_visitedOrder (Some (len + 1)))
              (grid gameState) (row target) (col target);
  let newLastVisited :=
    match isFixed targetCell, value targetCell with
    | true, Some v => v
    | _, _ => lastVisitedNumber gameState
    end in
  let newPath := currentPath gameState ++ [target] in
  let totalCells := rows (level gameState) * cols (level gameState) in
  let isPathComplete := bool_decide (Z.of_nat (length newPath) = totalCells) in
  let maxNumber := math_max (clue_value <$> initialValues (level gameState)) in
  let hasVisitedAllNumbers := bool_decide (Some newLastVisited = maxNumber) in
  Returns (mkGameState (level gameState) newGrid newPath
             (isPathComplete && hasVisitedAllNumbers) newLastVisited).

Definition makeMove (gameState : GameState) (target : Coordinate) : outcome GameState :=
  match findIndex (currentPath gameState) target with
  | Some pathIndex =>
      if decide (pathIndex < length (currentPath gameState) - 1)%nat
      then rewindTo gameState pathIndex
      else extendTo gameState target
  | None => extendTo gameState target
  end.

(** A session: [makeMove] folded over the targets in the order given. *)
Fixpoint makeMoves (gameState : GameState) (targets : list Coordinate) : outcome GameState :=
  match targets with
  | [] => Returns gameState
  | t :: ts => s ← makeMove gameState t; makeMoves s ts
  end.

(** ** App.tsx: the guard in front of [makeMove] *)

(** [handleMove] as a transition of the React state [gameState]
    ([None] is [null]). *)
Definition handleMove (gameState : option GameState) (target : Coordinate)
    : outcome (option GameState) :=
  match gameState with
  | None => Returns None
  | Some gs =>
      if isComplete gs then Returns (Some gs)
      else newState ← makeMove gs target; Returns (Some newState)
  end.

(** ** generator.ts: the solvability check *)

Definition DIRECTIONS : list Coordinate :=
  [ mkCoordinate (-1) 0;    (* Up *)
    mkCoordinate 1 0;       (* Down *)
    mkCoordinate 0 (-1);    (* Left *)
    mkCoordinate 0 1;       (* Right *)
    mkCoordinate (-1) (-1); (* Up-Left *)
    mkCoordinate (-1) 1;    (* Up-Right *)
    mkCoordinate 1 (-1);    (* Down-Left *)
    mkCoordinate 1 1 ].     (* Down-Right *)

(** The pair that the set key [`${p.row},${p.col}`] encodes. *)
Definition key (p : Coordinate) : Z * Z := (row p, col p).

Definition step (p dir : Coordinate) : Coordinate :=
  mkCoordinate (row p + row dir) (col p + col dir).

(** The [forEach] that fills [numberPositions]: a later clue with the
    same value replaces an earlier one. *)
Definition numberPositionsOf (ivs : list Clue) : gmap Z Coordinate :=
  foldl (λ m iv, <[clue_value iv := mkCoordinate (clue_row iv) (clue_col iv)]> m) ∅ ivs.

Definition wallBlocks (from to : Coordinate) (wall : Wall) : bool :=
  let rowDiff := row to - row from in
  let colDiff := col to - col from in
  match orientation wall with
  | horizontal =>
      bool_decide (rowDiff ≠ 0 ∧ colDiff = 0) &&
      bool_decide (wall_col wall = col from) &&
      bool_decide (Z.min (row from) (row to) ≤ wall_row wall ∧
                   wall_row wall < Z.max (row from) (row to))
  | vertical =>
      bool_decide (colDiff ≠ 0 ∧ rowDiff = 0) &&
      bool_decide (wall_row wall = row from) &&
      bool_decide (Z.min (col from) (col to) ≤ wall_col wall ∧
                   wall_col wall < Z.max (col from) (col to))
  end.

Definition isBlocked (walls : list Wall) (from to : Coordinate) : bool :=
  existsb (wallBlocks from to) walls.

(** An entry of the BFS queue. *)
Record QueueItem : Type := mkItem { pos : Coordinate; path : list Coordinate }.

Inductive search : Type :=
  | Found (p : list Coordinate)
  | NoPath
  | OutOfFuel.

Section bfs_loop.
Context (level : Level) (goal : Coordinate) (visited : gset (Z * Z)).

(** One turn of the loop over [DIRECTIONS]. *)
Definition visit (item : QueueItem) (st : list QueueItem * gset (Z * Z))
    (dir : Coordinate) : list QueueItem * gset (Z * Z) :=
  let next := step (pos item) dir in
  if bool_decide (inBounds (rows level) (cols level) next) &&
     bool_decide (key next ∉ st.2) &&
     bool_decide (key next ∉ visited) &&
     negb (isBlocked (walls level) (pos item) next)
  then (st.1 ++ [mkItem next (path item ++ [next])], {[key next]} ∪ st.2)
  else st.

(** The [while (queue.length > 0)] loop; each unit of fuel pays for
    one test of the loop condition. *)
Fixpoint bfs (fuel : nat) (queue : list QueueItem) (localVisited : gset (Z * Z)) : search :=
  match fuel with
  | O => OutOfFuel
  | S fuel' =>
      match queue with
      | [] => NoPath
      | item :: rest =>
          if decide (row (pos item) = row goal ∧ col (pos item) = col goal)
          then Found (path item)
          else
            let st := foldl (visit item) (rest, localVisited) DIRECTIONS in
            bfs fuel' st.1 st.2
      end
  end.
End bfs_loop.

(** Every cell is dequeued at most once, so the loop condition is
    tested at most [rows * cols + 2] times. *)
Definition bfsFuel (level : Level) : nat :=
  S (S (Z.to_nat (rows level) * Z.to_nat (cols level))).

Definition findPath (level : Level) (start goal : Coordinate) (visited : gset (Z * Z))
    : option (list Coordinate) :=
  match bfs level goal visited (bfsFuel level)
          [mkItem start [start]] {[key start]} with
  | Found p => Some p
  | NoPath | OutOfFuel => None
  end.

(** [path.slice(0, path.length - 1)]: the cells the loop over
    [j < path.length - 1] adds to [visited]. *)
Definition butLast (p : list Coordinate) : list Coordinate :=
  take (length p - 1) p.

(** The loop [for (let i = 1; i <= maxNumber; i++)], [n] turns from [i]
    on. [Returns None] is the early [return false]. *)
Fixpoint connectClues (level : Level) (numberPositions : gmap Z Coordinate)
    (n : nat) (i : Z) (visited : gset (Z * Z)) : outcome (option (gset (Z * Z))) :=
  match n with
  | O => Returns (Some visited)
  | S n' =>
      currentPos ← unwrap (numberPositions !! i);
      if decide (i > 1) then
        prevPos ← unwrap (numberPositions !! (i - 1));
        match findPath level prevPos currentPos visited with
        | None => Returns None
        | Some p =>
            connectClues level numberPositions n' (i + 1)
              ({[key currentPos]} ∪ (list_to_set (key <$> butLast p) ∪ visited))
        end
      else
        connectClues level numberPositions n' (i + 1) ({[key currentPos]} ∪ visited)
  end.

Definition turns (maxNumber : option Z) : nat :=
  match maxNumber with
  | Some m => Z.to_nat m
  | None => 0%nat
  end.

Definition segmentsOf (level : Level) : outcome (option (gset (Z * Z))) :=
  connectClues level (numberPositionsOf (initialValues level))
    (turns (math_max (clue_value <$> initialValues level))) 1 ∅.

Definition isPuzzleSolvable (level : Level) : outcome bool :=
  r ← segmentsOf level;
  match r with
  | None => Returns false
  | Some visited =>
      Returns (bool_decide (Z.of_nat (size visited) ≤ rows level * cols level))
  end.

(** ** generator.ts: level generation *)

Inductive Difficulty : Type := easy | medium | hard.

(** The random source. Every use of [Math.random()] in the generator
    is one of four shapes, and the tape of each shape lists the values
    that the successive calls of that shape produce:
    - [picks]: [Math.floor(Math.random() * n)];
    - [shuffles]: the four orthogonal directions after
      [sort(() => Math.random() - 0.5)];
    - [coins]: [Math.random() < wallDensity];
    - [names]: [Math.random().toString(36).substring(7)]. *)
Record Random : Type := mkRandom {
  picks : list Z;
  shuffles : list (list Coordinate);
  coins : list bool;
  names : list string
}.

(** A computation that draws from the random source. [None] means that
    the tapes (or the recursion budget of the model) were too short for
    the run; it is not a behaviour of the program. *)
Definition gen (A : Type) : Type := Random → option (A * Random).

Definition gret {A} (a : A) : gen A := λ rnd, Some (a, rnd).
Definition gbind {A B} (m : gen A) (f : A → gen B) : gen B :=
  λ rnd, match m rnd with
         | Some (a, rnd') => f a rnd'
         | None => None
         end.

Declare Scope gen_scope.
Delimit Scope gen_scope with gen.
Notation "x ←$ m ; k" := (gbind m (λ x, k))
  (at level 20, m at level 100, k at level 200, only parsing) : gen_scope.

Definition drawPick : gen Z := λ rnd,
  match picks rnd with
  | x :: t => Some (x, mkRandom t (shuffles rnd) (coins rnd) (names rnd))
  | [] => None
  end.
Definition drawShuffle : gen (list Coordinate) := λ rnd,
  match shuffles rnd with
  | x :: t => Some (x, mkRandom (picks rnd) t (coins rnd) (names rnd))
  | [] => None
  end.
Definition drawCoin : gen bool := λ rnd,
  match coins rnd with
  | x :: t => Some (x, mkRandom (picks rnd) (shuffles rnd) t (names rnd))
  | [] => None
  end.
Definition drawName : gen string := λ rnd,
  match names rnd with
  | x :: t => Some (x, mkRandom (picks rnd) (shuffles rnd) (coins rnd) t)
  | [] => None
  end.

(** [a[i]] for a JavaScript array and an integer [i]. *)
Definition at_index {A} (l : list A) (i : Z) : option A :=
  if decide (0 ≤ i) then l !! Z.to_nat i else None.

Section pathBuilder.
Context (rows cols : Z).
Open Scope gen_scope.

(** The loop [for (const dir of dirs)] of [dfs]; [descend] is the
    recursive call. [Some path] stands for [return true] with the
    Hamiltonian path left in [path], and [None] for [return false] with
    [path] and [visited] restored. *)
Fixpoint tryDirs
    (descend : Coordinate → gset (Z * Z) → list Coordinate → gen (option (list Coordinate)))
    (current : Coordinate) (visited : gset (Z * Z)) (path : list Coordinate)
    (dirs : list Coordinate) : gen (option (list Coordinate)) :=
  match dirs with
  | [] => gret None
  | dir :: dirs' =>
      let next := step current dir in
      if bool_decide (inBounds rows cols next) && bool_decide (key next ∉ visited)
      then
        r ←$ descend next ({[key next]} ∪ visited) (path ++ [next]);
        match r with
        | Some p => gret (Some p)
        | None => tryDirs descend current visited path dirs'
        end
      else tryDirs descend current visited path dirs'
  end.

Fixpoint dfs (fuel : nat) (current : Coordinate) (visited : gset (Z * Z))
    (path : list Coordinate) : gen (option (list Coordinate)) :=
  match fuel with
  | O => λ _, None
  | S fuel' =>
      if decide (Z.of_nat (length path) = rows * cols) then gret (Some path) else
      dirs ←$ drawShuffle;
      tryDirs (dfs fuel') current visited path dirs
  end.

Definition generateHamiltonianPath : gen (option (list Coordinate)) :=
  r ←$ drawPick;
  c ←$ drawPick;
  let start := mkCoordinate r c in
  dfs (S (Z.to_nat (rows * cols))) start {[key start]} [start].
End pathBuilder.

(** The [switch (difficulty)] of the main pipeline. *)
Definition numberCountFor (difficulty : Difficulty) (totalCells : Z) : Z :=
  match difficulty with
  | easy => totalCells `div` 3
  | medium => totalCells `div` 4
  | hard => totalCells `div` 5
  end.

(** [while (cond(indicesToMark)) indicesToMark.add(pick)], on the tape
    of picks. *)
Fixpoint markWhile (cond : gset Z → bool) (indicesToMark : gset Z) (tape : list Z)
    : option (gset Z * list Z) :=
  match tape with
  | [] => if cond indicesToMark then None else Some (indicesToMark, [])
  | idx :: tape' =>
      if cond indicesToMark
      then markWhile cond ({[idx]} ∪ indicesToMark) tape'
      else Some (indicesToMark, tape)
  end.

Definition markIndices (cond : gset Z → bool) (start : gset Z) : gen (gset Z) := λ rnd,
  match markWhile cond start (picks rnd) with
  | Some (marks, tape) => Some (marks, mkRandom tape (shuffles rnd) (coins rnd) (names rnd))
  | None => None
  end.

(** [Array.from(indicesToMark).sort((a, b) => a - b)]. *)
Definition sortedIndicesOf (indicesToMark : gset Z) : list Z :=
  merge_sort Z.le (elements indicesToMark).

(** The [forEach ((pathIdx, i) => ...)] that pushes the clues after the
    first, from position [i] of [sortedIndices] on. *)
Fixpoint pushClues (path : list Coordinate) (i : Z) (sortedIndices : list Z)
    : outcome (list Clue) :=
  match sortedIndices with
  | [] => Returns []
  | pathIdx :: rest =>
      if decide (pathIdx = 0) then pushClues path (i + 1) rest else
      p ← unwrap (at_index path pathIdx);
      more ← pushClues path (i + 1) rest;
      Returns (mkClue (row p) (col p) (i + 1) :: more)
  end.

Definition cluesOf (path : list Coordinate) (indicesToMark : gset Z) : outcome (list Clue) :=
  first ← unwrap (at_index path 0);
  more ← pushClues path 0 (sortedIndicesOf indicesToMark);
  Returns (mkClue (row first) (col first) 1 :: more).

(** [isWallBlocking]: the wall lies on an edge of the path. The test on
    an edge [u], [v] is the one of [hasWall] on [from], [to]. *)
Definition isWallBlocking (path : list Coordinate) (w : Wall) : bool :=
  existsb (λ uv, wallBetween uv.1 uv.2 w) (zip path (tail path)).

Definition proposeWall (rows cols : Z) (path : list Coordinate) (walls : list Wall)
    (inside : bool) (w : Wall) : gen (list Wall) :=
  (if inside then
     coin ←$ drawCoin;
     gret (if coin && negb (isWallBlocking path w) then walls ++ [w] else walls)
   else gret walls)%gen.

(** The two nested loops over [r] and [c], on the list of the cells in
    row-major order. *)
Fixpoint placeWalls (rows cols : Z) (path : list Coordinate) (cells : list (Z * Z))
    (walls : list Wall) : gen (list Wall) :=
  match cells with
  | [] => gret walls
  | (r, c) :: cells' =>
      (walls1 ←$ proposeWall rows cols path walls
                   (bool_decide (r < rows - 1)) (mkWall r c horizontal);
       walls2 ←$ proposeWall rows cols path walls1
                   (bool_decide (c < cols - 1)) (mkWall r c vertical);
       placeWalls rows cols path cells' walls2)%gen
  end.

Definition allCells (rows cols : Z) : list (Z * Z) :=
  list_prod (seqZ 0 rows) (seqZ 0 cols).

(** The first part of the [try] block of one attempt, up to the level
    that is handed to [isPuzzleSolvable]. [Returns None] is the
    [continue] after a failed path search, and [Throws] an exception
    while the clues are placed. *)
Definition candidate (rows cols : Z) (difficulty : Difficulty) : gen (outcome (option Level)) :=
  (found ←$ generateHamiltonianPath rows cols;
   match found with
   | None => gret (Returns None)
   | Some path =>
       let totalCells := rows * cols in
       let numberCount := numberCountFor difficulty totalCells in
       let len := Z.of_nat (length path) in
       indicesToMark ←$ markIndices
         (λ s, bool_decide (Z.of_nat (size s) < numberCount) &&
               bool_decide (Z.of_nat (size s) < len))
         ({[len - 1]} ∪ {[0]});
       match cluesOf path indicesToMark with
       | Throws => gret Throws
       | Returns initialValues =>
           walls ←$ placeWalls rows cols path (allCells rows cols) [];
           name ←$ drawName;
           gret (Returns (Some (mkLevel name rows cols initialValues walls)))
       end
   end)%gen.

(** The body of the [try] block of one attempt. [Returns (Some level)]
    is [return level]; [Returns None] falls out of the block to the
    next turn of the loop ([continue], or an unsolvable puzzle);
    [Throws] is caught by the [catch] clause. *)
Definition attempt (rows cols : Z) (difficulty : Difficulty) : gen (outcome (option Level)) :=
  (made ←$ candidate rows cols difficulty;
   match made with
   | Returns (Some level) =>
       gret (solvable ← isPuzzleSolvable level;
             Returns (if solvable : bool then Some level else None))
   | Returns None => gret (Returns None)
   | Throws => gret Throws
   end)%gen.

(** [while (attempts < maxAttempts)], [n] turns left. *)
Fixpoint attempts (n : nat) (rows cols : Z) (difficulty : Difficulty) : gen (option Level) :=
  match n with
  | O => gret None
  | S n' =>
      (r ←$ attempt rows cols difficulty;
       match r with
       | Returns (Some level) => gret (Some level)
       | Returns None | Throws => attempts n' rows cols difficulty
       end)%gen
  end.

(** The code after the loop. *)
Definition fallback (rows cols : Z) : gen (outcome Level) :=
  (found ←$ generateHamiltonianPath rows cols;
   match found with
   | None => gret Throws
   | Some simplePath =>
       let numberCount := (rows * cols) `div` 3 in
       let len := Z.of_nat (length simplePath) in
       indicesToMark ←$ markIndices
         (λ s, bool_decide (Z.of_nat (size s) < numberCount))
         ({[len - 1]} ∪ {[0]});
       match cluesOf simplePath indicesToMark with
       | Throws => gret Throws
       | Returns initialValues =>
           name ←$ drawName;
           gret (Returns (mkLevel name rows cols initialValues []))
       end
   end)%gen.

Definition maxAttempts : nat := 50.

Definition generateLevel (rows cols : Z) (difficulty : Difficulty) : gen (outcome Level) :=
  (r ←$ attempts maxAttempts rows cols difficulty;
   match r with
   | Some level => gret (Returns level)
   | None => fallback rows cols
   end)%gen.

(** * The input layer and the score board

    A shallow embedding of the drag handling of
    [src/components/Grid.tsx] and of [src/game/scores.ts].

    - the refs of the component that [queueMove] reads and writes are
      the fields of a record that is passed in and returned;
    - [currentPath] is the prop of the render in which [queueMove] was
      created;
    - the loop of [getLineCells] runs on a budget of turns, and [None]
      is a run that the budget cut short. *)

(** ** Grid.tsx *)

(** The [while (true)] loop of [getLineCells]; [fuel] bounds the number
    of turns, [None] is a run that did not reach [break] within it. *)
Fixpoint lineLoop (fuel : nat) (start : Coordinate) (x1 y1 dx dy sx sy : Z)
    (x0 y0 err : Z) (cells : list Coordinate) : option (list Coordinate) :=
  match fuel with
  | O => None
  | S fuel' =>
      let cells1 :=
        if decide (¬ (x0 = col start ∧ y0 = row start))
        then cells ++ [mkCoordinate y0 x0] else cells in
      if decide (x0 = x1 ∧ y0 = y1) then Some cells1 else
      let e2 := 2 * err in
      let err1 := if decide (- dy < e2) then err - dy else err in
      let x0' := if decide (- dy < e2) then x0 + sx else x0 in
      let err2 := if decide (e2 < dx) then err1 + dx else err1 in
      let y0' := if decide (e2 < dx) then y0 + sy else y0 in
      lineLoop fuel' start x1 y1 dx dy sx sy x0' y0' err2 cells1
  end.

Definition getLineCells (start end_ : Coordinate) : option (list Coordinate) :=
  let x0 := col start in
  let y0 := row start in
  let x1 := col end_ in
  let y1 := row end_ in
  let dx := Z.abs (x1 - x0) in
  let dy := Z.abs (y1 - y0) in
  let sx := if decide (x0 < x1) then 1 else -1 in
  let sy := if decide (y0 < y1) then 1 else -1 in
  lineLoop (S (Z.to_nat (dx + dy))) start x1 y1 dx dy sx sy x0 y0 (dx - dy) [].

(** The refs that [queueMove] reads and writes. *)
Record DragRefs : Type := mkDragRefs {
  lastProcessedCell : option Coordinate;
  moveQueue : list Coordinate
}.

Definition queueMove (currentPath : list Coordinate) (refs : DragRefs)
    (target : Coordinate) : option DragRefs :=
  match lastProcessedCell refs with
  | None => Some (mkDragRefs (Some target) (moveQueue refs ++ [target]))
  | Some last =>
      if decide (row last = row target ∧ col last = col target) then Some refs else
      match findIndex currentPath target with
      | Some targetInPath =>
          if decide (Z.of_nat targetInPath = Z.of_nat (length currentPath) - 2)
          then Some (mkDragRefs (Some target) (moveQueue refs ++ [target]))
          else Some refs
      | None =>
          interpolatedCells ← getLineCells last target;
          Some (mkDragRefs (Some target) (moveQueue refs ++ interpolatedCells))
      end
  end.

(** ** scores.ts *)

#[global] Instance Difficulty_eq_dec : EqDecision Difficulty.
Proof. solve_decision. Defined.

Record Score : Type := mkScore {
  score_difficulty : Difficulty;
  time : Z;
  date : string;
  playerName : string
}.

(** The item of [localStorage] under [STORAGE_KEY], up to the JSON
    encoding: no item, a text that [JSON.parse] rejects, or the text of
    a list of scores. *)
Inductive Stored : Type :=
  | absent
  | unreadable
  | holds (scores : list Score).

Definition getScores (stored : Stored) : list Score :=
  match stored with
  | absent => []
  | unreadable => []
  | holds scores => scores
  end.

(** [saveScore]; [now] is [new Date().toISOString()]. The result is the
    item that [setItem] leaves in the storage. *)
Definition saveScore (stored : Stored) (difficulty : Difficulty) (t : Z)
    (name now : string) : Stored :=
  let scores := getScores stored in
  let newScore := mkScore difficulty t now name in
  holds (scores ++ [newScore]).

(** [Math.min(...xs)] on a list that is not empty. *)
Definition math_min (xs : list Z) : option Z :=
  match xs with
  | [] => None
  | x :: xs' => Some (foldl Z.min x xs')
  end.

Definition getBestTimeForDifficulty (stored : Stored) (difficulty : Difficulty) : option Z :=
  let scores := getScores stored in
  let difficultyScores := filter (λ s, score_difficulty s = difficulty) scores in
  if decide (length difficultyScores = 0%nat) then None
  else math_min (time <$> difficultyScores).

(** * Properties *)

(** ** Predicates of the specification *)

(** The clue positions of a level lie on its grid, and the grid has no
    negative dimension (section 8 of the specification). *)
Definition cluesInGrid (level : Level) : Prop :=
  0 ≤ rows level ∧ 0 ≤ cols level ∧
  Forall (λ iv, inBounds (rows level) (cols level)
                  (mkCoordinate (clue_row iv) (clue_col iv)))
         (initialValues level).

(** The grid of a state has a cell at every position of its level, and
    the path stays on the level. *)
Definition wellFormed (s : GameState) : Prop :=
  (∀ p, inBounds (rows (level s)) (cols (level s)) p →
        is_Some (grid_at (grid s) (row p) (col p))) ∧
  Forall (inBounds (rows (level s)) (cols (level s))) (currentPath s).

(** The part of a cell that a move never writes: its position and
    its clue. *)
Definition clueData (x : Cell) : Z * Z * option Z * bool :=
  (cell_row x, cell_col x, value x, isFixed x).

(** Two grids have the same shape and the same clues. *)
Definition sameClues (g g' : list (list Cell)) : Prop :=
  ∀ r c, clueData <$> grid_at g' r c = clueData <$> grid_at g r c.

(** The statements of the specification that the code refutes, as
    predicates of a state and a target. *)

(** A target on the path is accepted only when it is the
    second-to-last entry. *)
Definition rewindsOneStepOnly (s : GameState) (t : Coordinate) : Prop :=
  ∀ i, findIndex (currentPath s) t = Some i →
       isValidMove s t = Returns true →
       S (S i) = length (currentPath s).

(** On a complete state [makeMove] changes nothing. *)
Definition frozenWhenComplete (s : GameState) (t : Coordinate) : Prop :=
  isComplete s = true → makeMove s t = Returns s.

(** A fixed clue cell that is not the next number is never accepted. *)
Definition rejectsOutOfSequence (s : GameState) (t : Coordinate) : Prop :=
  ∀ x v, grid_at (grid s) (row t) (col t) = Some x →
         isFixed x = true → value x = Some v →
         v ≠ lastVisitedNumber s + 1 →
         isValidMove s t = Returns false.

(** The grid and the path tell the same story: the cell at [(r, c)]
    carries order [k + 1] exactly when the path has [(r, c)] at index
    [k], no cell is twice on the path, and the cells off the path carry
    no order. *)
Definition gridPathAgree (s : GameState) : Prop :=
  NoDup (currentPath s) ∧
  ∀ r c x, grid_at (grid s) r c = Some x →
    (∀ k : nat, visitedOrder x = Some (Z.of_nat k + 1) ↔
                currentPath s !! k = Some (mkCoordinate r c)) ∧
    (mkCoordinate r c ∉ currentPath s → visitedOrder x = None).

(** States reachable from [initializeGame level] by [makeMove]. *)
Inductive reachable (level : Level) : GameState → Prop :=
  | reachable_init s :
      initializeGame level = Returns s → reachable level s
  | reachable_move s t s' :
      reachable level s → makeMove s t = Returns s' → reachable level s'.

(** The states of the sessions in which no move aims at the head of
    the path. *)
Inductive reachableOffHead (level : Level) : GameState → Prop :=
  | offHead_init s :
      initializeGame level = Returns s → reachableOffHead level s
  | offHead_move s t s' :
      reachableOffHead level s →
      last (currentPath s) ≠ Some t →
      makeMove s t = Returns s' →
      reachableOffHead level s'.

(** The keys of the cells of a level. *)
Definition gridKeys (level : Level) : gset (Z * Z) :=
  list_to_set (allCells (rows level) (cols level)).

(** A step of the 4-connected grid graph of a level that a segment
    search may take when the cells of [visited] are used up:
    orthogonal, on the grid, onto a cell not yet visited, and across no
    wall. *)
Definition orthogonalStep (level : Level) (visited : gset (Z * Z))
    (a b : Coordinate) : Prop :=
  Z.abs (row b - row a) + Z.abs (col b - col a) = 1 ∧
  inBounds (rows level) (cols level) b ∧
  (key b ∉ visited) ∧
  isBlocked (walls level) a b = false.

(** A walk of such steps from [a] to [b]. *)
Inductive orthogonalWalk (level : Level) (visited : gset (Z * Z))
    : Coordinate → Coordinate → Prop :=
  | walk_here a : orthogonalWalk level visited a a
  | walk_step a b c :
      orthogonalStep level visited a b →
      orthogonalWalk level visited b c →
      orthogonalWalk level visited a c.

(** ** Predicates of the further properties *)

(** *** The move state machine *)

Definition manhattan (a b : Coordinate) : Z :=
  Z.abs (row b - row a) + Z.abs (col b - col a).

Definition completeAfter (s : GameState) (newLast : Z) : bool :=
  bool_decide (Z.of_nat (length (currentPath s)) + 1 = rows (level s) * cols (level s)) &&
  bool_decide (Some newLast = math_max (clue_value <$> initialValues (level s))).

Definition clueOr (x : Cell) (d : Z) : Z :=
  match isFixed x, value x with
  | true, Some v => v
  | _, _ => d
  end.

Fixpoint clueAt (ivs : list Clue) (r c : Z) : option Z :=
  match ivs with
  | [] => None
  | iv :: ivs' =>
      match clueAt ivs' r c with
      | Some v => Some v
      | None => if decide (clue_row iv = r ∧ clue_col iv = c)
                then Some (clue_value iv) else None
      end
  end.

Definition startOf (lvl : Level) : option Coordinate :=
  (λ hit, mkCoordinate (clue_row hit.2) (clue_col hit.2)) <$>
    list_find (λ v, clue_value v = 1) (initialValues lvl).

Definition stamp (v : Z) (x : Cell) : Cell :=
  mkCell (cell_row x) (cell_col x) (Some v) true (visitedOrder x).

Definition isPathMax (g : list (list Cell)) (ps : list Coordinate) (v : Z) : Prop :=
  0 ≤ v ∧
  (∀ p x u, p ∈ ps → grid_at g (row p) (col p) = Some x →
            isFixed x = true → value x = Some u → u ≤ v) ∧
  (v = 0 ∨ ∃ p x, p ∈ ps ∧ grid_at g (row p) (col p) = Some x ∧
                  isFixed x = true ∧ value x = Some v).

Definition distinctClues (lvl : Level) : Prop :=
  NoDup ((λ iv, (clue_row iv, clue_col iv)) <$> initialValues lvl).

(** What [isComplete] says in a session that never aims at the head:
    the path has more than one cell, as many cells as the grid, and
    has reached the largest clue. *)
Definition settled (s : GameState) : bool :=
  bool_decide (1 < length (currentPath s))%nat &&
  bool_decide (Z.of_nat (length (currentPath s)) = rows (level s) * cols (level s)) &&
  bool_decide (Some (lastVisitedNumber s) =
               math_max (clue_value <$> initialValues (level s))).

(** The parts of a state that its path fixes, relative to the initial
    state [s0] of its level. *)
Definition canonical (s0 s : GameState) : Prop :=
  level s = level s0 ∧
  length (grid s) = length (grid s0) ∧
  sameClues (grid s0) (grid s) ∧
  gridPathAgree s ∧
  recomputeLast (grid s) (currentPath s) 0 = Returns (lastVisitedNumber s) ∧
  isComplete s = settled s.

(** *** The solvability check *)

(** A step to one of the eight neighbours that a segment search may
    take: onto the grid, onto a cell not yet visited, and not blocked. *)
Definition kingStep (level : Level) (visited : gset (Z * Z)) (a b : Coordinate) : Prop :=
  Z.max (Z.abs (row b - row a)) (Z.abs (col b - col a)) = 1 ∧
  inBounds (rows level) (cols level) b ∧
  (key b ∉ visited) ∧
  isBlocked (walls level) a b = false.

Inductive kingWalk (level : Level) (visited : gset (Z * Z))
    : Coordinate → Coordinate → Prop :=
  | kingWalk_here a : kingWalk level visited a a
  | kingWalk_step a b c :
      kingStep level visited a b →
      kingWalk level visited b c →
      kingWalk level visited a c.

(** Every two neighbours in the list are related. *)
Fixpoint linked {A} (R : A → A → Prop) (l : list A) : Prop :=
  match l with
  | a :: (b :: _) as t => R a b ∧ linked R t
  | _ => True
  end.

(** What holds of every entry of the queue of a search from [start]. *)
Definition trail (level : Level) (start : Coordinate) (visited : gset (Z * Z))
    (localVisited : gset (Z * Z)) (item : QueueItem) : Prop :=
  (∃ body, path item = start :: body) ∧
  last (path item) = Some (pos item) ∧
  linked (kingStep level visited) (path item) ∧
  NoDup (path item) ∧
  ∀ q, q ∈ path item → key q ∈ localVisited.

(** What the search has settled: every visited key is either
    processed or waits in the queue, the neighbours of a processed cell
    are visited, and the goal is not processed. *)
Definition explored (level : Level) (goal : Coordinate) (visited : gset (Z * Z))
    (queue : list QueueItem) (localVisited processed : gset (Z * Z)) : Prop :=
  (∀ k, k ∈ localVisited →
        k ∈ processed ∨ ∃ item, item ∈ queue ∧ key (pos item) = k) ∧
  (∀ a b, key a ∈ processed → kingStep level visited a b → key b ∈ localVisited) ∧
  (key goal ∉ processed).

(** A chain of cells that passes the clues 1 to [k] in their order:
    no cell twice, every step a step of the segment search on the empty
    board, [stops] the places of the clues on the chain, the chain ends
    on the clue [k]. *)
Definition threaded (level : Level) (numberPositions : gmap Z Coordinate)
    (k : nat) (chain : list Coordinate) (stops : list nat) : Prop :=
  NoDup chain ∧
  linked (kingStep level ∅) chain ∧
  Forall2 (λ i s, ∃ q, chain !! s = Some q ∧ numberPositions !! i = Some q)
          (seqZ 1 (Z.of_nat k)) stops ∧
  StronglySorted Nat.le stops ∧
  match k with
  | O => chain = []
  | S _ => ∃ q, last chain = Some q ∧ numberPositions !! Z.of_nat k = Some q
  end.

(** The cells that count as visited once the searches of the first
    segments have returned [paths]: the cell of the clue 1 and the
    cells of the paths found. *)
Definition marked (numberPositions : gmap Z Coordinate)
    (paths : list (list Coordinate)) : gset (Z * Z) :=
  from_option (λ p, {[key p]}) ∅ (numberPositions !! 1) ∪
  list_to_set (key <$> concat paths).

(** [paths] are the paths that the searches of the first segments
    find: the path at index [k] is what [findPath] returns from the
    clue [k + 1] to the clue [k + 2] when the cell of the clue 1 and the
    cells of the paths before it are visited. *)
Definition segmentsFound (level : Level) (numberPositions : gmap Z Coordinate)
    (paths : list (list Coordinate)) : Prop :=
  ∀ (k : nat) p, paths !! k = Some p →
    ∃ a b, numberPositions !! (Z.of_nat k + 1) = Some a ∧
           numberPositions !! (Z.of_nat k + 2) = Some b ∧
           findPath level a b (marked numberPositions (take k paths)) = Some p.


(** *** The generator *)

Definition wallFits (rows cols : Z) (w : Wall) : Prop :=
  0 ≤ wall_row w ∧ wall_row w < rows ∧ 0 ≤ wall_col w ∧ wall_col w < cols ∧
  match orientation w with
  | horizontal => wall_row w < rows - 1
  | vertical => wall_col w < cols - 1
  end.

Definition drawnFrom (allowed : list Coordinate) (rnd : Random) : Prop :=
  Forall (λ dirs, dirs ⊆ allowed) (shuffles rnd).

Definition hop (rows cols : Z) (allowed : list Coordinate) (a b : Coordinate) : Prop :=
  inBounds rows cols b ∧ ∃ dir, dir ∈ allowed ∧ b = step a dir.

(** The state of the path builder: the path so far has no cell twice,
    its cells are marked, and it ends at [current]. *)
Definition onTrack (rows cols : Z) (allowed : list Coordinate)
    (visited : gset (Z * Z)) (path : list Coordinate) (current : Coordinate) : Prop :=
  NoDup path ∧ (∀ q, q ∈ path → key q ∈ visited) ∧
  last path = Some current ∧ linked (hop rows cols allowed) path.

Definition hamiltonian (rows cols : Z) (allowed : list Coordinate)
    (p : list Coordinate) : Prop :=
  NoDup p ∧ linked (hop rows cols allowed) p ∧
  Z.of_nat (length p) = rows * cols.

(** What the recursive call of the path builder is assumed to do. *)
Definition descends (rows cols : Z) (allowed : list Coordinate)
    (descend : Coordinate → gset (Z * Z) → list Coordinate → gen (option (list Coordinate)))
    : Prop :=
  ∀ next v pth rnd res rnd',
    descend next v pth rnd = Some (res, rnd') →
    drawnFrom allowed rnd → onTrack rows cols allowed v pth next →
    drawnFrom allowed rnd' ∧
    ∀ p, res = Some p → hamiltonian rows cols allowed p ∧ pth `prefix_of` p.

Definition clueCell (iv : Clue) : Coordinate := mkCoordinate (clue_row iv) (clue_col iv).

Definition endMarks (len : Z) : gset Z := {[len - 1]} ∪ {[0]}.

Definition clueCount (difficulty : Difficulty) (totalCells : Z) : Z :=
  Z.max (Z.min 2 totalCells) (numberCountFor difficulty totalCells).

Definition openEdge (walls : list Wall) (a b : Coordinate) : Prop :=
  manhattan a b = 1 ∧ hasWall walls a b = false.

Definition solvedBy (lvl : Level) (p : list Coordinate) : Prop :=
  ∃ s0 s, initializeGame lvl = Returns s0 ∧
          makeMoves s0 (tail p) = Returns s ∧
          currentPath s = p ∧ isComplete s = true.

(** [n] clues lie on the first [k] cells of the path. *)
Definition cluesUpTo (indices : list Z) (k : nat) (n : Z) : Prop :=
  0 ≤ n ≤ Z.of_nat (length indices) ∧
  ∀ (j : nat) x, indices !! j = Some x → (x < Z.of_nat k ↔ Z.of_nat j < n).

Definition onSolution (lvl : Level) (p : list Coordinate) (indices : list Z)
    (k : nat) (s : GameState) : Prop :=
  level s = lvl ∧
  currentPath s = take k p ∧
  wellFormed s ∧
  gridPathAgree s ∧
  (∀ r c x, grid_at (grid s) r c = Some x →
     value x = clueAt (initialValues lvl) r c ∧
     isFixed x = bool_decide (is_Some (clueAt (initialValues lvl) r c))) ∧
  cluesUpTo indices k (lastVisitedNumber s).

(** *** The input layer *)

Definition kingMove (a b : Coordinate) : Prop :=
  Z.max (Z.abs (row b - row a)) (Z.abs (col b - col a)) = 1.

Definition between (a b q : Coordinate) : Prop :=
  Z.min (row a) (row b) ≤ row q ≤ Z.max (row a) (row b) ∧
  Z.min (col a) (col b) ≤ col q ≤ Z.max (col a) (col b).

(** The state of the loop of [getLineCells] after [a] steps along the
    columns and [b] steps along the rows. *)
Definition lineState (start : Coordinate) (dx dy sx sy a b x0 y0 err : Z) : Prop :=
  0 ≤ a ≤ dx ∧ 0 ≤ b ≤ dy ∧
  x0 = col start + sx * a ∧ y0 = row start + sy * b ∧
  err = (1 + b) * dx - (1 + a) * dy.

(** ** Sample levels and sessions *)

Definition stateOr (d : GameState) (o : outcome GameState) : GameState :=
  match o with
  | Returns s => s
  | Throws => d
  end.

(** A 2 x 2 level with the clues 1 and 2 in the left column. *)
Definition square : Level :=
  mkLevel "square" 2 2 [mkClue 0 0 1; mkClue 1 0 2] [].

Definition corner : Coordinate := mkCoordinate 0 0.

Definition nowhere : GameState := mkGameState square [] [] false 0.

Definition squareStart : GameState :=
  Eval vm_compute in stateOr nowhere (initializeGame square).

(** The path (0,0), (0,1). *)
Definition squareTwo : GameState :=
  Eval vm_compute in stateOr nowhere (makeMoves squareStart [mkCoordinate 0 1]).

(** The path (0,0), (0,1), (1,1). *)
Definition squareThree : GameState :=
  Eval vm_compute in
    stateOr nowhere (makeMoves squareStart [mkCoordinate 0 1; mkCoordinate 1 1]).

(** The solved puzzle: the path (0,0), (0,1), (1,1), (1,0). *)
Definition squareSolved : GameState :=
  Eval vm_compute in
    stateOr nowhere
      (makeMoves squareStart [mkCoordinate 0 1; mkCoordinate 1 1; mkCoordinate 1 0]).

(** The start of [square] after a move onto the head of its path. *)
Definition squareDoubled : GameState :=
  Eval vm_compute in stateOr nowhere (makeMove squareStart corner).

(** A 2 x 3 level as the generator makes them: the clues 1 and 2 sit
    on the two ends of the Hamiltonian path
    (0,0), (0,1), (0,2), (1,2), (1,1), (1,0). *)
Definition twoByThree : Level :=
  mkLevel "twoByThree" 2 3 [mkClue 0 0 1; mkClue 1 0 2] [].

Definition twoByThreeStart : GameState :=
  Eval vm_compute in stateOr nowhere (initializeGame twoByThree).

(** Five cells of [twoByThree], then the head once more. *)
Definition shortcut : list Coordinate :=
  [mkCoordinate 1 0; mkCoordinate 1 1; mkCoordinate 0 1; mkCoordinate 0 2;
   mkCoordinate 0 2].

Definition twoByThreeFaked : GameState :=
  Eval vm_compute in stateOr nowhere (makeMoves twoByThreeStart shortcut).

(** A 2 x 2 level on which the clue 3 lies next to the clue 1. *)
Definition outOfOrder : Level :=
  mkLevel "outOfOrder" 2 2 [mkClue 0 0 1; mkClue 0 1 3; mkClue 1 1 2] [].

Definition outOfOrderStart : GameState :=
  Eval vm_compute in stateOr nowhere (initializeGame outOfOrder).

(** A 2 x 2 level whose first clue is walled in on both open sides. *)
Definition walledCorner : Level :=
  mkLevel "walledCorner" 2 2 [mkClue 0 0 1; mkClue 1 1 2]
    [mkWall 0 0 horizontal; mkWall 0 0 vertical].

(** A level without a clue of value 1. *)
Definition headless : Level :=
  mkLevel "headless" 2 2 [mkClue 0 0 2; mkClue 1 1 3] [].

(** A 3 x 3 level as the generator makes them on difficulty [easy]:
    the Hamiltonian path is the spiral
    (0,0), (0,1), (0,2), (1,2), (2,2), (2,1), (2,0), (1,0), (1,1),
    the clues sit on its indices 0, 6 and 8, and no wall lies on an
    edge of the spiral. *)
Definition spiral : Level :=
  mkLevel "spiral" 3 3
    [mkClue 0 0 1; mkClue 2 0 2; mkClue 1 1 3]
    [mkWall 0 1 horizontal; mkWall 1 1 horizontal; mkWall 1 1 vertical].

Definition up : Coordinate := mkCoordinate (-1) 0.
Definition down : Coordinate := mkCoordinate 1 0.
Definition left : Coordinate := mkCoordinate 0 (-1).
Definition right : Coordinate := mkCoordinate 0 1.

(** A run of the random source on which the first attempt of
    [generateLevel 3 3 easy] makes [spiral]. *)
Definition spiralRun : Random :=
  mkRandom
    [0; 0; 6]
    [ [right; up; down; left]; [right; up; down; left];
      [down; up; left; right]; [down; up; left; right];
      [left; up; down; right]; [left; up; down; right];
      [up; down; left; right]; [right; up; down; left] ]
    [ false; false; true; false; false; false;
      false; true; true; false; false; false ]
    ["spiral"].

(** The cells that the check has marked when it has joined the clues 1
    and 2 of [spiral]. *)
Definition spiralVisited : gset (Z * Z) := list_to_set [(0, 0); (1, 0); (2, 0)].

(** The cells of [spiral] that orthogonal steps reach from the clue 2
    once the cells of [spiralVisited] are used up. *)
Definition pocket : list Coordinate :=
  [ mkCoordinate 2 0; mkCoordinate 2 1; mkCoordinate 2 2;
    mkCoordinate 1 2; mkCoordinate 0 2; mkCoordinate 0 1 ].

(** A run of the random source on which every attempt of
    [generateLevel 3 3 _] draws the start cell (0,1), from which the
    3 x 3 grid has no Hamiltonian path, and the fallback draws the
    start cell (0,0) and the index 4. The shuffles leave the directions
    in the order of [DIRECTIONS]. *)
Definition unluckyRun : Random :=
  mkRandom
    (concat (replicate 50 [0; 1]) ++ [0; 0; 4])
    (replicate 3500 [up; down; left; right])
    []
    ["fallback"].

(** What the fallback returns on [unluckyRun]. *)
Definition threeClues : Level :=
  mkLevel "fallback" 3 3 [mkClue 0 0 1; mkClue 1 1 2; mkClue 2 2 3] [].

(** A run on which the first attempt draws the start cell (0,0), and
    proposes no wall. *)
Definition luckyRun : Random :=
  mkRandom [0; 0] (replicate 100 [up; down; left; right]) (replicate 12 false) ["main"].

(** What the main pipeline returns on [luckyRun] for difficulty [hard]. *)
Definition twoClues : Level :=
  mkLevel "main" 3 3 [mkClue 0 0 1; mkClue 2 2 2] [].

(** ** Sample inputs of the further properties *)

(** A run of the random source on which the first attempt of
    [generateLevel 2 2 easy] succeeds: the path builder starts at (0,0)
    and walks (0,0), (0,1), (1,1), (1,0), the two ends of the path are
    the clues, and of the four walls proposed only the one between
    (0,0) and (1,0) does not lie on the path. *)
Definition tourRun : Random :=
  mkRandom
    [0; 0]
    [ [right; down; left; up]; [right; down; left; up]; [right; down; left; up] ]
    [true; true; true; true]
    ["tour"].

Definition tourPath : list Coordinate :=
  [mkCoordinate 0 0; mkCoordinate 0 1; mkCoordinate 1 1; mkCoordinate 1 0].

(** What [generateLevel 2 2 easy] returns on [tourRun]. *)
Definition tour : Level :=
  mkLevel "tour" 2 2 [mkClue 0 0 1; mkClue 1 0 2] [mkWall 0 0 horizontal].

(** [tourRun] after the path builder has run, after the walls are
    placed, and at the end of the attempt. *)
Definition tourRunWalls : Random := mkRandom [] [] [true; true; true; true] ["tour"].
Definition tourRunName : Random := mkRandom [] [] [] ["tour"].
Definition tourRunEnd : Random := mkRandom [] [] [] [].

(** The indices of the two ends of [tourPath]. *)
Definition tourMarks : gset Z := {[3]} ∪ {[0]}.

(** The start of [square] after a step to (0,1) and a step back. *)
Definition squareBack : GameState :=
  Eval vm_compute in stateOr nowhere (makeMoves squareStart [mkCoordinate 0 1; corner]).

(** A run of the random source on which [generateLevel 1 3 easy]
    throws: each of the fifty attempts and the fallback draw the start
    cell (0,1), the middle of the row, from which no path visits all
    three cells. *)
Definition strandedRun : Random :=
  mkRandom (concat (replicate 51 [0; 1])) (replicate 153 [up; down; left; right]) [] [].

Definition strandedRunEnd : Random := mkRandom [] [] [] [].

(** Proves [cluesInGrid] of a level that is written out. *)
Ltac on_grid :=
  unfold cluesInGrid, inBounds; simpl;
  split; [lia|]; split; [lia|]; repeat constructor; simpl; lia.

(** ** The outcome monad *)

Lemma bind_Returns {A B} (m : outcome A) (f : A → outcome B) b :
  m ≫= f = Returns b ↔ ∃ a, m = Returns a ∧ f a = Returns b.
Proof.
  destruct m as [a|]; simpl; split.
  - intros H. exists a. split; [reflexivity | exact H].
  - intros (a' & Ha & H). injection Ha as ->. exact H.
  - discriminate.
  - intros (a' & Ha & _). discriminate.
Qed.

Lemma unwrap_Returns {A} (o : option A) a : unwrap o = Returns a ↔ o = Some a.
Proof. destruct o; simpl; split; congruence. Qed.

(** ** Reading and writing the grid *)

Lemma grid_at_Some g r c x :
  grid_at g r c = Some x ↔
  0 ≤ r ∧ 0 ≤ c ∧ ∃ cells, g !! Z.to_nat r = Some cells ∧ cells !! Z.to_nat c = Some x.
Proof.
  unfold grid_at. case_decide as Hrc.
  - rewrite bind_Some. destruct Hrc. split; [intros Hx; by split_and! | by intros (_ & _ & Hx)].
  - split; [discriminate | intros (? & ? & _); tauto].
Qed.

Lemma grid_at_alter f g r c r' c' :
  0 ≤ r → 0 ≤ c →
  grid_at (alter (alter f (Z.to_nat c)) (Z.to_nat r) g) r' c' =
  if decide (r' = r ∧ c' = c) then f <$> grid_at g r' c' else grid_at g r' c'.
Proof.
  intros Hr Hc. unfold grid_at.
  destruct (decide (0 ≤ r' ∧ 0 ≤ c')) as [[Hr' Hc']|Hneg].
  - destruct (decide (r' = r)) as [->|Hne].
    + rewrite list_lookup_alter_eq.
      destruct (g !! Z.to_nat r) as [cells|]; simpl.
      * destruct (decide (c' = c)) as [->|Hnc].
        -- rewrite list_lookup_alter_eq. by rewrite decide_True.
        -- rewrite list_lookup_alter_ne by lia. rewrite decide_False; [done | tauto].
      * by case_decide.
    + rewrite list_lookup_alter_ne by lia. rewrite decide_False; [done | tauto].
  - by case_decide.
Qed.

Lemma grid_set_Returns f g r c g' :
  grid_set f g r c = Returns g' ↔
  is_Some (grid_at g r c) ∧ g' = alter (alter f (Z.to_nat c)) (Z.to_nat r) g.
Proof.
  unfold grid_set. destruct (grid_at g r c); split.
  - intros [= <-]. eauto.
  - intros [_ ->]. done.
  - discriminate.
  - intros [[? [=]] _].
Qed.

Lemma grid_set_lookup f g r c g' r' c' :
  grid_set f g r c = Returns g' →
  grid_at g' r' c' =
  if decide (r' = r ∧ c' = c) then f <$> grid_at g r' c' else grid_at g r' c'.
Proof.
  intros [[x Hx] ->]%grid_set_Returns.
  apply grid_at_Some in Hx as (? & ? & _). by apply grid_at_alter.
Qed.

(** A write that leaves a projection of the cell alone leaves that
    projection of the whole grid alone. *)
Lemma grid_set_proj {B} (π : Cell → B) f g r c g' :
  (∀ x, π (f x) = π x) →
  grid_set f g r c = Returns g' →
  ∀ r' c', π <$> grid_at g' r' c' = π <$> grid_at g r' c'.
Proof.
  intros Hπ Hset r' c'. rewrite (grid_set_lookup _ _ _ _ _ r' c' Hset).
  case_decide; [|done].
  destruct (grid_at g r' c'); simpl; by rewrite ?Hπ.
Qed.

Lemma proj_is_Some {B} (π : Cell → B) (o o' : option Cell) :
  π <$> o' = π <$> o → is_Some o → is_Some o'.
Proof. destruct o, o'; simpl; intros ? [? ?]; by eauto. Qed.

Lemma sameClues_refl g : sameClues g g.
Proof. by intros r c. Qed.

Lemma sameClues_trans g1 g2 g3 : sameClues g1 g2 → sameClues g2 g3 → sameClues g1 g3.
Proof. intros H12 H23 r c. by rewrite H23, H12. Qed.

Lemma sameClues_is_Some g g' r c :
  sameClues g g' → is_Some (grid_at g r c) → is_Some (grid_at g' r c).
Proof. intros H. apply (proj_is_Some clueData), H. Qed.

Lemma sameClues_is_Some_inv g g' r c :
  sameClues g g' → is_Some (grid_at g' r c) → is_Some (grid_at g r c).
Proof. intros H. apply (proj_is_Some clueData). symmetry. apply H. Qed.

Lemma grid_set_visitedOrder_sameClues o g r c g' :
  grid_set (set_visitedOrder o) g r c = Returns g' → sameClues g g'.
Proof. intros H r' c'. by eapply grid_set_proj; [|exact H]. Qed.

Lemma grid_set_total f g r c :
  is_Some (grid_at g r c) → ∃ g', grid_set f g r c = Returns g'.
Proof. intros [x Hx]. unfold grid_set. rewrite Hx. eauto. Qed.

(** ** Searching the path *)

Lemma coordinate_eq (p q : Coordinate) : row p = row q ∧ col p = col q ↔ p = q.
Proof. destruct p, q; simpl. split; [intros [-> ->]; done | intros [= -> ->]; done]. Qed.

Lemma findIndex_Some path t i :
  findIndex path t = Some i ↔
  path !! i = Some t ∧ ∀ j, (j < i)%nat → path !! j ≠ Some t.
Proof.
  unfold findIndex. rewrite fmap_Some. split.
  - intros ([j p] & Hfind & ->). simpl.
    apply list_find_Some in Hfind as (Hp & ->%coordinate_eq & Hmin).
    split; [done|]. intros k Hk Hkp. by eapply Hmin; [exact Hkp | exact Hk |].
  - intros [Hi Hmin]. exists (i, t). split; [|done].
    apply list_find_Some. split; [done|]. split; [done|].
    intros j y Hy Hj ->%coordinate_eq. by eapply Hmin.
Qed.

Lemma findIndex_None path t : findIndex path t = None ↔ t ∉ path.
Proof.
  unfold findIndex. rewrite fmap_None, list_find_None, Forall_forall. split.
  - intros H Hin. by apply (H t Hin).
  - intros H p Hp ->%coordinate_eq. done.
Qed.

Lemma findIndex_lt path t i : findIndex path t = Some i → (i < length path)%nat.
Proof. intros [Hi _]%findIndex_Some. by eapply lookup_lt_Some. Qed.

(** ** The loops of the rewind branch *)

Lemma clearVisited_sameClues ps : ∀ g g',
  clearVisited g ps = Returns g' → sameClues g g'.
Proof.
  induction ps as [|p ps IH]; simpl; intros g g'.
  - intros [= <-]. apply sameClues_refl.
  - intros (g1 & Hset & Hrest)%bind_Returns.
    eapply sameClues_trans; [|by apply IH].
    by eapply grid_set_visitedOrder_sameClues.
Qed.

Lemma clearVisited_total ps : ∀ g,
  Forall (λ p, is_Some (grid_at g (row p) (col p))) ps →
  ∃ g', clearVisited g ps = Returns g'.
Proof.
  induction ps as [|p ps IH]; simpl; intros g Hps; [by eauto|].
  apply Forall_cons in Hps as [Hp Hps].
  destruct (grid_set_total (set_visitedOrder None) _ _ _ Hp) as [g1 Hg1].
  rewrite Hg1. simpl. apply IH.
  eapply Forall_impl; [exact Hps|]. intros q.
  apply sameClues_is_Some. by eapply grid_set_visitedOrder_sameClues.
Qed.

Lemma recomputeLast_total g ps : ∀ acc,
  Forall (λ p, is_Some (grid_at g (row p) (col p))) ps →
  ∃ v, recomputeLast g ps acc = Returns v.
Proof.
  induction ps as [|p ps IH]; simpl; intros acc Hps; [by eauto|].
  apply Forall_cons in Hps as [[x Hx] Hps]. rewrite Hx. simpl.
  destruct (value x); [destruct (isFixed x && _)|]; by apply IH.
Qed.

(** ** Moves *)

Lemma isValidMove_true_inBounds s t :
  isValidMove s t = Returns true → inBounds (rows (level s)) (cols (level s)) t.
Proof.
  unfold isValidMove. destruct (last (currentPath s)); [|discriminate].
  case_decide; [done | discriminate].
Qed.

Lemma isValidMove_total s t :
  wellFormed s → ∃ b, isValidMove s t = Returns b.
Proof.
  intros [Hgrid _]. unfold isValidMove.
  destruct (last (currentPath s)) as [current|]; [|by eauto].
  case_decide as Hin; [|by eauto].
  destruct (findIndex _ _); [by eauto|].
  case_decide; [by eauto|].
  destruct (Hgrid t Hin) as [x ->]. simpl.
  repeat (case_decide || case_match); by eauto.
Qed.

(** A rejected move changes nothing: [makeMove] hands back the very
    state it was given. *)
Lemma makeMove_rejected s t :
  t ∉ currentPath s → isValidMove s t = Returns false → makeMove s t = Returns s.
Proof.
  intros Hnot%findIndex_None Hinv. unfold makeMove, extendTo.
  by rewrite Hnot, Hinv.
Qed.

Lemma makeMove_empty_path s t : currentPath s = [] → makeMove s t = Returns s.
Proof.
  intros Hnil. apply makeMove_rejected.
  - rewrite Hnil. apply not_elem_of_nil.
  - unfold isValidMove. by rewrite Hnil.
Qed.

Lemma rewindTo_Returns s i s' :
  rewindTo s i = Returns s' →
  level s' = level s ∧ sameClues (grid s) (grid s') ∧
  currentPath s' = take (S i) (currentPath s) ∧ isComplete s' = false.
Proof.
  unfold rewindTo.
  intros (g & Hg & (v & Hv & [= <-])%bind_Returns)%bind_Returns. simpl.
  split_and!; try done. by eapply clearVisited_sameClues.
Qed.

Lemma rewindTo_total s i :
  wellFormed s → ∃ s', rewindTo s i = Returns s'.
Proof.
  intros [Hgrid Hpath]. unfold rewindTo.
  assert (Hcells : Forall (λ p, is_Some (grid_at (grid s) (row p) (col p))) (currentPath s)).
  { eapply Forall_impl; [exact Hpath|]. intros p. apply Hgrid. }
  destruct (clearVisited_total (drop (S i) (currentPath s)) (grid s)) as [g Hg].
  { by apply Forall_drop. }
  rewrite Hg. simpl.
  destruct (recomputeLast_total g (take (S i) (currentPath s)) 0) as [v Hv].
  { apply Forall_take. eapply Forall_impl; [exact Hcells|]. intros p.
    apply sameClues_is_Some. by eapply clearVisited_sameClues. }
  rewrite Hv. simpl. eauto.
Qed.

Lemma extendTo_Returns s t s' :
  extendTo s t = Returns s' →
  s' = s ∨
  (isValidMove s t = Returns true ∧
   level s' = level s ∧ sameClues (grid s) (grid s') ∧
   currentPath s' = currentPath s ++ [t]).
Proof.
  unfold extendTo. intros ([] & Hvalid & H)%bind_Returns; simpl in H.
  - apply bind_Returns in H as (x & Hx & (g & Hg & [= <-])%bind_Returns).
    right. simpl. split_and!; try done.
    by eapply grid_set_visitedOrder_sameClues.
  - left. congruence.
Qed.

Lemma extendTo_total s t :
  wellFormed s → ∃ s', extendTo s t = Returns s'.
Proof.
  intros Hwf. unfold extendTo.
  destruct (isValidMove_total s t Hwf) as [[] Hb]; rewrite Hb; simpl; [|by eauto].
  destruct Hwf as [Hgrid _].
  destruct (Hgrid t (isValidMove_true_inBounds _ _ Hb)) as [x Hx].
  rewrite Hx. simpl. unfold grid_set. rewrite Hx. simpl. eauto.
Qed.

Lemma makeMove_total s t : wellFormed s → ∃ s', makeMove s t = Returns s'.
Proof.
  intros Hwf. unfold makeMove.
  destruct (findIndex _ _); [case_decide|];
    auto using rewindTo_total, extendTo_total.
Qed.

Lemma makeMove_level_clues s t s' :
  makeMove s t = Returns s' → level s' = level s ∧ sameClues (grid s) (grid s').
Proof.
  unfold makeMove. intros H.
  assert (Hext : extendTo s t = Returns s' →
                 level s' = level s ∧ sameClues (grid s) (grid s')).
  { intros [->|(_ & ? & ? & _)]%extendTo_Returns; [|done].
    split; [done | apply sameClues_refl]. }
  destruct (findIndex _ _); [case_decide|]; auto.
  apply rewindTo_Returns in H as (? & ? & _). done.
Qed.

Lemma makeMove_wellFormed s t s' :
  wellFormed s → makeMove s t = Returns s' → wellFormed s'.
Proof.
  intros [Hgrid Hpath] H.
  destruct (makeMove_level_clues _ _ _ H) as [Hlevel Hclues].
  split.
  - rewrite Hlevel. intros p Hp. eapply sameClues_is_Some; [exact Hclues|]. by apply Hgrid.
  - rewrite Hlevel. unfold makeMove in H.
    assert (Hext : extendTo s t = Returns s' →
                   Forall (inBounds (rows (level s)) (cols (level s))) (currentPath s')).
    { intros [->|(Hvalid & _ & _ & ->)]%extendTo_Returns; [done|].
      apply Forall_app. split; [done|].
      apply Forall_singleton. by apply isValidMove_true_inBounds. }
    destruct (findIndex _ _); [case_decide|]; auto.
    apply rewindTo_Returns in H as (_ & _ & -> & _). by apply Forall_take.
Qed.

(** ** Setting up a game *)

Lemma blankGrid_at rows cols r c :
  grid_at (blankGrid rows cols) r c =
  if decide (0 ≤ r ∧ r < rows ∧ 0 ≤ c ∧ c < cols)
  then Some (mkCell r c None false None) else None.
Proof.
  unfold grid_at, blankGrid.
  destruct (decide (0 ≤ r ∧ 0 ≤ c)) as [[Hr Hc]|Hneg].
  - rewrite list_lookup_fmap.
    destruct (decide (r < rows)) as [Hrows|Hrows].
    + rewrite lookup_seqZ_lt by lia. simpl. rewrite list_lookup_fmap.
      destruct (decide (c < cols)) as [Hcols|Hcols].
      * rewrite lookup_seqZ_lt by lia. simpl.
        rewrite decide_True by lia. f_equal. f_equal; lia.
      * rewrite lookup_seqZ_ge by lia. simpl. rewrite decide_False; [done | lia].
    + rewrite lookup_seqZ_ge by lia. simpl. rewrite decide_False; [done | lia].
  - rewrite decide_False; [done | lia].
Qed.

Lemma stampClues_proj {B} (π : Cell → B) ivs : ∀ g g',
  (∀ v x, π (set_value v x) = π x) →
  (∀ b x, π (set_isFixed b x) = π x) →
  stampClues g ivs = Returns g' →
  ∀ r c, π <$> grid_at g' r c = π <$> grid_at g r c.
Proof.
  induction ivs as [|iv ivs IH]; simpl; intros g g' Hv Hf.
  - by intros [= <-].
  - intros (g1 & H1 & (g2 & H2 & Hrest)%bind_Returns)%bind_Returns r c.
    rewrite (IH _ _ Hv Hf Hrest).
    rewrite (grid_set_proj π _ _ _ _ _ (Hf true) H2).
    by rewrite (grid_set_proj π _ _ _ _ _ (Hv _) H1).
Qed.

Lemma stampClues_total ivs : ∀ g,
  Forall (λ iv, is_Some (grid_at g (clue_row iv) (clue_col iv))) ivs →
  ∃ g', stampClues g ivs = Returns g'.
Proof.
  induction ivs as [|iv ivs IH]; simpl; intros g Hivs; [by eauto|].
  apply Forall_cons in Hivs as [Hiv Hivs].
  destruct (grid_set_total (set_value (Some (clue_value iv))) _ _ _ Hiv) as [g1 H1].
  assert (Hkeep1 : ∀ r c, is_Some (grid_at g r c) → is_Some (grid_at g1 r c)).
  { intros r c. apply (proj_is_Some (λ _, ())). by eapply grid_set_proj; [|exact H1]. }
  destruct (grid_set_total (set_isFixed true) _ _ _ (Hkeep1 _ _ Hiv)) as [g2 H2].
  assert (Hkeep2 : ∀ r c, is_Some (grid_at g1 r c) → is_Some (grid_at g2 r c)).
  { intros r c. apply (proj_is_Some (λ _, ())). by eapply grid_set_proj; [|exact H2]. }
  rewrite H1. simpl. rewrite H2. simpl. apply IH.
  eapply Forall_impl; [exact Hivs|]. intros iv'. simpl. auto.
Qed.

Lemma makeMoves_empty_path ts : ∀ s, currentPath s = [] → makeMoves s ts = Returns s.
Proof.
  induction ts as [|t ts IH]; simpl; intros s Hnil; [done|].
  rewrite (makeMove_empty_path s t Hnil). simpl. by apply IH.
Qed.

(** ** Rewinding *)

(** C2, as the code has it. A target that stands on the path before its
    head is accepted by [isValidMove] at any depth, and [makeMove]
    rewinds to it: the path is cut to end at the target, however many
    entries that removes. *)
Theorem earlier_entry_rewinds s t i :
  wellFormed s →
  findIndex (currentPath s) t = Some i →
  (i < length (currentPath s) - 1)%nat →
  isValidMove s t = Returns true ∧
  ∃ s', makeMove s t = Returns s' ∧
        currentPath s' = take (S i) (currentPath s) ∧
        last (currentPath s') = Some t.
Proof.
  intros Hwf Hfind Hi. split.
  - unfold isValidMove.
    destruct (last (currentPath s)) as [current|] eqn:Hlast.
    + rewrite decide_True.
      * by rewrite Hfind.
      * apply findIndex_Some in Hfind as [Hlook _].
        destruct Hwf as [_ Hpath]. rewrite Forall_lookup in Hpath. by eapply Hpath.
    + apply last_None in Hlast. rewrite Hlast in Hi. simpl in Hi. lia.
  - unfold makeMove. rewrite Hfind, decide_True by done.
    destruct (rewindTo_total s i Hwf) as [s' Hs']. exists s'.
    split; [done|].
    apply rewindTo_Returns in Hs' as (_ & _ & -> & _). split; [done|].
    apply findIndex_Some in Hfind as [Hlook _].
    rewrite (take_S_r _ _ _ Hlook). apply last_snoc.
Qed.

(** C2, as the specification states it, fails on the path
    (0,0), (0,1), (1,1) of [square]: the target (0,0) is two steps
    back, and [isValidMove] accepts it. *)
Lemma deep_rewind_accepted : ¬ rewindsOneStepOnly squareThree corner.
Proof.
  intros H. specialize (H 0%nat eq_refl eq_refl). vm_compute in H. discriminate.
Qed.

(** ** After completion *)

(** C3, as the code has it. The guard on [isComplete] stands in
    [handleMove], the only caller of [makeMove]: on a complete state
    [handleMove] keeps the state for every target. [makeMove] has no
    such guard: a target that stands on the path before its head rewinds
    a complete state like any other and leaves it incomplete. *)
Theorem complete_state_guard s t :
  isComplete s = true →
  handleMove (Some s) t = Returns (Some s) ∧
  ∀ i, wellFormed s →
       findIndex (currentPath s) t = Some i →
       (i < length (currentPath s) - 1)%nat →
       ∃ s', makeMove s t = Returns s' ∧
             isComplete s' = false ∧
             currentPath s' = take (S i) (currentPath s).
Proof.
  intros Hdone. split.
  - unfold handleMove. by rewrite Hdone.
  - intros i Hwf Hfind Hi. unfold makeMove. rewrite Hfind, decide_True by done.
    destruct (rewindTo_total s i Hwf) as [s' Hs']. exists s'.
    split; [done|]. by apply rewindTo_Returns in Hs' as (_ & _ & ? & ?).
Qed.

(** C3, as the specification states it, fails on the solved [square]:
    the target (0,0) rewinds the complete state to its first cell. *)
Lemma complete_state_rewound : ¬ frozenWhenComplete squareSolved corner.
Proof. intros H. specialize (H eq_refl). vm_compute in H. discriminate. Qed.

(** ** The head of the path as a target *)

(** C4 at its failing input. At the start of [square] the path is
    [(0,0)] and the target (0,0) is its head: no forward move, since
    the cell is visited, and no rewind, since nothing lies behind it.
    [isValidMove] accepts it all the same and [makeMove] appends it:
    the state that comes back has the head twice on its path and the
    order 2 on the cell. *)
Theorem head_target_appended :
  last (currentPath squareStart) = Some corner ∧
  isValidMove squareStart corner = Returns true ∧
  makeMove squareStart corner = Returns squareDoubled ∧
  squareDoubled ≠ squareStart ∧
  currentPath squareDoubled = [corner; corner] ∧
  visitedOrder <$> grid_at (grid squareDoubled) 0 0 = Some (Some 2).
Proof. by split_and!. Qed.

(** A rejected target, on the other hand, leaves the state as it is:
    this is the part of C4 that the code keeps. *)
Lemma rejected_target_no_op s t :
  wellFormed s → isValidMove s t = Returns false → makeMove s t = Returns s.
Proof.
  intros Hwf Hinv. apply makeMove_rejected; [|done].
  intros Hin. unfold isValidMove in Hinv.
  destruct (last (currentPath s)) eqn:Hlast.
  - rewrite decide_True in Hinv.
    + destruct (findIndex (currentPath s) t) eqn:Hfind; [discriminate|].
      by apply findIndex_None in Hfind.
    + destruct Hwf as [_ Hpath]. rewrite Forall_forall in Hpath. by apply Hpath.
  - apply last_None in Hlast. rewrite Hlast in Hin. by apply not_elem_of_nil in Hin.
Qed.

(** What the doubled head can do: on [twoByThree] a path of five
    cells followed by a move onto its own head has the length of the
    grid, and the state is declared complete with the cell (1,2) never
    visited. *)
Lemma head_target_fakes_completion :
  initializeGame twoByThree = Returns twoByThreeStart ∧
  makeMoves twoByThreeStart shortcut = Returns twoByThreeFaked ∧
  isComplete twoByThreeFaked = true ∧
  visitedOrder <$> grid_at (grid twoByThreeFaked) 1 2 = Some None.
Proof. split_and!; vm_compute; reflexivity. Qed.

(** ** Grid and path *)

(** C5 at its failing input. One [makeMove] from the start of [square]
    onto the head of the path gives a reachable state in which the head
    stands twice on the path and its cell carries the order 2, while
    a session that never aims at the head keeps the agreement
    ([agreement_off_head] below). The defect is the one shown for C4:
    a target equal to the head of the path is accepted and appended. *)
Theorem head_target_breaks_agreement :
  reachable square squareDoubled ∧ ¬ gridPathAgree squareDoubled.
Proof.
  split.
  - apply (reachable_move square squareStart corner); [apply reachable_init|];
      vm_compute; reflexivity.
  - intros [Hnodup _]. apply NoDup_cons in Hnodup as [Hnotin _].
    apply Hnotin. apply list_elem_of_singleton. reflexivity.
Qed.

(** ** Well-formed sessions *)

Lemma initializeGame_Returns level s :
  initializeGame level = Returns s →
  ∃ g, stampClues (blankGrid (rows level) (cols level)) (initialValues level) = Returns g ∧
    match list_find (λ v, clue_value v = 1) (initialValues level) with
    | Some (_, startCell) =>
        ∃ g', grid_set (set_visitedOrder (Some 1)) g
                (clue_row startCell) (clue_col startCell) = Returns g' ∧
              s = mkGameState level g'
                    [mkCoordinate (clue_row startCell) (clue_col startCell)] false 1
    | None => s = mkGameState level g [] false 0
    end.
Proof.
  unfold initializeGame. intros (g & Hg & H)%bind_Returns. exists g. split; [done|].
  destruct (list_find _ _) as [[k startCell]|].
  - apply bind_Returns in H as (g' & Hg' & [= <-]). eauto.
  - by injection H as <-.
Qed.

Lemma stampClues_blank_total level :
  cluesInGrid level →
  ∃ g, stampClues (blankGrid (rows level) (cols level)) (initialValues level) = Returns g.
Proof.
  intros (_ & _ & Hclues). apply stampClues_total.
  eapply Forall_impl; [exact Hclues|]. intros iv Hiv. simpl.
  rewrite blankGrid_at. unfold inBounds in Hiv. simpl in Hiv.
  rewrite decide_True by done. eauto.
Qed.

Lemma stamped_covers level g :
  stampClues (blankGrid (rows level) (cols level)) (initialValues level) = Returns g →
  ∀ p, inBounds (rows level) (cols level) p → is_Some (grid_at g (row p) (col p)).
Proof.
  intros Hg p Hp. apply (proj_is_Some (λ _, ()) (grid_at (blankGrid (rows level) (cols level)) (row p) (col p))).
  - by apply (stampClues_proj (λ _, ()) (initialValues level)).
  - rewrite blankGrid_at. unfold inBounds in Hp. rewrite decide_True by done. eauto.
Qed.

Lemma start_clue_inBounds level k startCell :
  cluesInGrid level →
  list_find (λ v, clue_value v = 1) (initialValues level) = Some (k, startCell) →
  inBounds (rows level) (cols level) (mkCoordinate (clue_row startCell) (clue_col startCell)).
Proof.
  intros (_ & _ & Hclues) (Hk & _)%list_find_Some.
  rewrite Forall_lookup in Hclues. by eapply Hclues.
Qed.

Lemma initializeGame_total level :
  cluesInGrid level → ∃ s, initializeGame level = Returns s.
Proof.
  intros Hclues. unfold initializeGame.
  destruct (stampClues_blank_total level Hclues) as [g Hg]. rewrite Hg. simpl.
  destruct (list_find _ _) as [[k startCell]|] eqn:Hfind; [|by eauto].
  destruct (grid_set_total (set_visitedOrder (Some 1)) g
              (clue_row startCell) (clue_col startCell)) as [g' Hg'].
  { apply (stamped_covers level g Hg (mkCoordinate _ _)).
    by eapply start_clue_inBounds. }
  rewrite Hg'. simpl. eauto.
Qed.

Lemma initializeGame_wellFormed lvl s :
  cluesInGrid lvl → initializeGame lvl = Returns s → level s = lvl ∧ wellFormed s.
Proof.
  intros Hclues (g & Hg & H)%initializeGame_Returns.
  destruct (list_find _ _) as [[k startCell]|] eqn:Hfind.
  - destruct H as (g' & Hg' & ->). split; [done|]. split; simpl.
    + intros p Hp. eapply sameClues_is_Some.
      * by eapply grid_set_visitedOrder_sameClues.
      * by eapply stamped_covers.
    + apply Forall_singleton. by eapply start_clue_inBounds.
  - subst s. split; [done|]. split; simpl; [|done].
    by apply stamped_covers.
Qed.

Lemma reachable_level lvl s : reachable lvl s → cluesInGrid lvl → level s = lvl ∧ wellFormed s.
Proof.
  induction 1 as [s Hinit|s t s' Hreach IH Hmove]; intros Hclues.
  - by apply initializeGame_wellFormed.
  - destruct (IH Hclues) as [Hlevel Hwf]. split.
    + apply makeMove_level_clues in Hmove as [-> _]. done.
    + by eapply makeMove_wellFormed.
Qed.

(** On a level whose clues lie on its grid, no [makeMove] of a session
    throws. *)
Lemma reachable_makeMove_total lvl s t :
  cluesInGrid lvl → reachable lvl s → ∃ s', makeMove s t = Returns s'.
Proof. intros Hclues Hreach. eapply makeMove_total, reachable_level; done. Qed.

(** ** The sequence of the clues *)

(** C6, as the code has it. A target off the path whose cell is a
    fixed clue other than the next number is rejected, wherever it
    lies and whatever walls there are. *)
Theorem out_of_sequence_rejected s t x v :
  t ∉ currentPath s →
  grid_at (grid s) (row t) (col t) = Some x →
  isFixed x = true →
  value x = Some v →
  v ≠ lastVisitedNumber s + 1 →
  isValidMove s t = Returns false.
Proof.
  intros Hnot%findIndex_None Hx Hfixed Hvalue Hseq. unfold isValidMove.
  destruct (last (currentPath s)) as [current|]; [|done].
  case_decide; [|done]. rewrite Hnot.
  case_decide; [done|]. rewrite Hx. simpl.
  case_decide; [done|].
  destruct (hasWall _ _ _); [done|].
  rewrite Hfixed, Hvalue. by rewrite decide_True.
Qed.

(** C6, as the specification states it, fails on the path (0,0), (0,1)
    of [square]: the cell (0,0) is the fixed clue 1, the next number is
    2, and [isValidMove] accepts the target, as the rewind it is. *)
Lemma clue_on_path_accepted : ¬ rejectsOutOfSequence squareTwo corner.
Proof.
  intros H.
  specialize (H (mkCell 0 0 (Some 1) true (Some 1)) 1 eq_refl eq_refl eq_refl).
  assert (Hseq : 1 ≠ lastVisitedNumber squareTwo + 1) by (simpl; lia).
  specialize (H Hseq). vm_compute in H. discriminate.
Qed.

(** ** What a move leaves alone *)

(** C9. Whatever [makeMove] returns has the level of the state it was
    given and, cell by cell, the same position, clue value and
    [isFixed] flag; and on a well-formed state [makeMove] does return. *)
Theorem makeMove_frame s t :
  (∀ s', makeMove s t = Returns s' →
         level s' = level s ∧
         ∀ r c, clueData <$> grid_at (grid s') r c = clueData <$> grid_at (grid s) r c) ∧
  (wellFormed s → ∃ s', makeMove s t = Returns s').
Proof.
  split.
  - intros s' Hmove. by apply makeMove_level_clues in Hmove.
  - apply makeMove_total.
Qed.

(** ** A level without a first clue *)

(** C10. When no clue of the level has the value 1, [initializeGame]
    returns a state with an empty path, [lastVisitedNumber] 0,
    [isComplete] false and no visited cell, and every sequence of
    [makeMove] calls from it returns that same state. *)
Theorem no_first_clue_stuck lvl :
  cluesInGrid lvl →
  (∀ iv, iv ∈ initialValues lvl → clue_value iv ≠ 1) →
  ∃ s, initializeGame lvl = Returns s ∧
       currentPath s = [] ∧
       lastVisitedNumber s = 0 ∧
       isComplete s = false ∧
       (∀ r c x, grid_at (grid s) r c = Some x → visitedOrder x = None) ∧
       ∀ ts, makeMoves s ts = Returns s.
Proof.
  intros Hclues Hno.
  destruct (initializeGame_total lvl Hclues) as [s Hs]. exists s.
  split; [done|].
  apply initializeGame_Returns in Hs as (g & Hg & H).
  assert (Hfind : list_find (λ v, clue_value v = 1) (initialValues lvl) = None).
  { apply list_find_None, Forall_forall. exact Hno. }
  rewrite Hfind in H. subst s. simpl. split_and!; try done.
  - intros r c x Hx.
    pose proof (stampClues_proj visitedOrder _ _ _
                  (λ _ _, eq_refl) (λ _ _, eq_refl) Hg r c) as Hproj.
    rewrite Hx, blankGrid_at in Hproj. case_decide; simplify_eq/=. done.
  - intros ts. by apply makeMoves_empty_path.
Qed.

(** ** Grid and path away from the head *)

Lemma clearVisited_lookup ps : ∀ g g' r c,
  clearVisited g ps = Returns g' →
  grid_at g' r c =
  if decide (mkCoordinate r c ∈ ps)
  then set_visitedOrder None <$> grid_at g r c
  else grid_at g r c.
Proof.
  induction ps as [|p ps IH]; intros g g' r c.
  - intros [= <-]. rewrite decide_False; [done | apply not_elem_of_nil].
  - cbn [clearVisited]. intros (g1 & Hset & Hrest)%bind_Returns.
    rewrite (IH _ _ r c Hrest), (grid_set_lookup _ _ _ _ _ r c Hset).
    destruct (decide (r = row p ∧ c = col p)) as [[-> ->]|Hne].
    + rewrite (decide_True (P := _ ∈ p :: ps)) by (destruct p; simpl; left).
      case_decide; [|done]. by destruct (grid_at g (row p) (col p)).
    + destruct (decide (mkCoordinate r c ∈ ps)) as [Hin|Hnotin].
      * rewrite decide_True; [done | by right].
      * rewrite decide_False; [done|].
        intros [<-|?]%elem_of_cons; [|done]. simpl in Hne. tauto.
Qed.

Lemma agree_rewind s i s' :
  gridPathAgree s → rewindTo s i = Returns s' → gridPathAgree s'.
Proof.
  intros [Hnodup Hagree]. unfold rewindTo.
  intros (g & Hg & (v & _ & [= <-])%bind_Returns)%bind_Returns.
  rewrite <- (take_drop (S i) (currentPath s)) in Hnodup.
  apply NoDup_app in Hnodup as (Htake & Hdisj & _).
  split; simpl; [done|].
  intros r c x' Hx'. rewrite (clearVisited_lookup _ _ _ r c Hg) in Hx'.
  assert (Hkeep : ∀ k, take (S i) (currentPath s) !! k = Some (mkCoordinate r c) →
                       currentPath s !! k = Some (mkCoordinate r c)).
  { intros k Hk. rewrite <- (take_drop (S i) (currentPath s)).
    by apply lookup_app_l_Some. }
  case_decide as Hdrop.
  - apply fmap_Some in Hx' as (x & Hx & ->). simpl. split; [|done].
    intros k. split; [done|]. intros Hk. exfalso.
    eapply Hdisj; [|exact Hdrop]. by eapply list_elem_of_lookup_2.
  - destruct (Hagree r c x' Hx') as [Hon Hoff]. split.
    + intros k. rewrite Hon. split; [|by apply Hkeep].
      intros Hk. rewrite <- (take_drop (S i) (currentPath s)) in Hk.
      apply lookup_app_Some in Hk as [Hk|[_ Hk]]; [done|].
      destruct Hdrop. by eapply list_elem_of_lookup_2.
    + intros Hnot. apply Hoff.
      rewrite <- (take_drop (S i) (currentPath s)), elem_of_app. tauto.
Qed.

Lemma agree_extend s t s' :
  gridPathAgree s → t ∉ currentPath s → extendTo s t = Returns s' → gridPathAgree s'.
Proof.
  intros [Hnodup Hagree] Hnew. unfold extendTo.
  intros ([] & Hvalid & H)%bind_Returns; simpl in H; [|by injection H as <-].
  apply bind_Returns in H as (x & Hx & (g & Hg & [= <-])%bind_Returns).
  split; simpl.
  - apply NoDup_app. split_and!; [done | | apply NoDup_singleton].
    intros q Hq ->%list_elem_of_singleton. done.
  - intros r c x' Hx'. rewrite (grid_set_lookup _ _ _ _ _ r c Hg) in Hx'.
    case_decide as Heq.
    + destruct Heq as [-> ->].
      apply fmap_Some in Hx' as (x0 & Hx0 & ->). simpl.
      replace (mkCoordinate (row t) (col t)) with t by by destruct t.
      split.
      * intros k. split.
        -- intros [= Hk]. assert (k = length (currentPath s)) as -> by lia.
           by rewrite lookup_app_r, Nat.sub_diag.
        -- intros Hk. apply lookup_app_Some in Hk as [Hk|[Hlen Hk]].
           ++ destruct Hnew. by eapply list_elem_of_lookup_2.
           ++ apply list_lookup_singleton_Some in Hk as [Hk _]. f_equal. lia.
      * intros Hnot. destruct Hnot. apply elem_of_app. right. by left.
    + destruct (Hagree r c x' Hx') as [Hon Hoff]. split.
      * intros k. rewrite Hon. split.
        -- intros Hk. by apply lookup_app_l_Some.
        -- intros Hk. apply lookup_app_Some in Hk as [Hk|[_ Hk]]; [done|].
           apply list_lookup_singleton_Some in Hk as [_ Ht]. subst t.
           simpl in Heq. tauto.
      * intros Hnot. apply Hoff. intros Hin. apply Hnot, elem_of_app. by left.
Qed.

Lemma agree_init lvl s :
  initializeGame lvl = Returns s → gridPathAgree s.
Proof.
  intros (g & Hg & H)%initializeGame_Returns.
  assert (Hblank : ∀ r c x, grid_at g r c = Some x → visitedOrder x = None).
  { intros r c x Hx.
    pose proof (stampClues_proj visitedOrder _ _ _
                  (λ _ _, eq_refl) (λ _ _, eq_refl) Hg r c) as Hproj.
    rewrite Hx, blankGrid_at in Hproj. case_decide; simplify_eq/=. done. }
  destruct (list_find _ _) as [[k startCell]|].
  - destruct H as (g' & Hg' & ->). split; simpl; [apply NoDup_singleton|].
    intros r c x' Hx'. rewrite (grid_set_lookup _ _ _ _ _ r c Hg') in Hx'.
    case_decide as Heq.
    + destruct Heq as [Hr Hc]. subst r c.
      apply fmap_Some in Hx' as (x & Hx & ->). simpl. split.
      * intros [|k']; simpl; [done|]. rewrite lookup_nil. split; [|done].
        intros [= Hk']. lia.
      * intros Hnot. destruct Hnot. by left.
    + rewrite (Hblank r c x' Hx'). split; [|done].
      intros [|k']; simpl; split; try done.
      intros [= Hr Hc]. destruct Heq. by split.
  - subst s. split; simpl; [apply NoDup_nil_2|].
    intros r c x Hx. rewrite (Hblank r c x Hx). split; [|done].
    intros k'. by rewrite lookup_nil.
Qed.

(** The agreement of grid and path holds along every session in which
    no move aims at the head of the path: it starts with
    [initializeGame] and both branches of [makeMove] keep it. *)
Lemma agreement_off_head lvl s : reachableOffHead lvl s → gridPathAgree s.
Proof.
  induction 1 as [s Hinit|s t s' _ IH Hhead Hmove].
  - by eapply agree_init.
  - unfold makeMove in Hmove.
    destruct (findIndex (currentPath s) t) as [i|] eqn:Hfind.
    + case_decide as Hi; [by eapply agree_rewind|].
      destruct Hhead. rewrite last_lookup.
      pose proof (findIndex_lt _ _ _ Hfind) as Hlt.
      apply findIndex_Some in Hfind as [Hfind _].
      replace (pred (length (currentPath s))) with i by lia. done.
    + eapply agree_extend; [done | | done]. by apply findIndex_None.
Qed.

(** ** The cells of a level *)

Lemma elem_of_allCells rows cols (k : Z * Z) :
  k ∈ allCells rows cols ↔ 0 ≤ k.1 ∧ k.1 < rows ∧ 0 ≤ k.2 ∧ k.2 < cols.
Proof.
  unfold allCells. destruct k as [r c]. simpl.
  rewrite list_elem_of_In, in_prod_iff, <- !list_elem_of_In, !elem_of_seqZ. lia.
Qed.

Lemma elem_of_gridKeys level p :
  key p ∈ gridKeys level ↔ inBounds (rows level) (cols level) p.
Proof. unfold gridKeys. rewrite elem_of_list_to_set, elem_of_allCells. done. Qed.

Lemma size_list_to_set_le (l : list (Z * Z)) :
  (size (list_to_set l : gset (Z * Z)) ≤ length l)%nat.
Proof.
  induction l as [|x l IH].
  - vm_compute. lia.
  - rewrite list_to_set_cons, size_union_alt, size_singleton. simpl.
    assert (Hle : (size (list_to_set l ∖ {[x]} : gset (Z * Z)) ≤ size (list_to_set l : gset (Z * Z)))%nat)
      by (apply subseteq_size; set_solver).
    lia.
Qed.

Lemma size_gridKeys level :
  (size (gridKeys level) ≤ Z.to_nat (rows level) * Z.to_nat (cols level))%nat.
Proof.
  unfold gridKeys. etrans; [apply size_list_to_set_le|].
  unfold allCells. by rewrite length_prod, !length_seqZ.
Qed.

(** A set of keys of cells of the level is no larger than the grid. *)
Lemma size_on_grid (level : Level) (visited : gset (Z * Z)) :
  0 ≤ rows level → 0 ≤ cols level →
  visited ⊆ gridKeys level →
  Z.of_nat (size visited) ≤ rows level * cols level.
Proof.
  intros Hr Hc Hsub. apply subseteq_size in Hsub.
  pose proof (size_gridKeys level). nia.
Qed.

(** ** The breadth-first search *)

Section bfs_facts.
Context (level : Level) (goal : Coordinate) (visited : gset (Z * Z)).

Let onGrid := Forall (inBounds (rows level) (cols level)).
Let weight (st : list QueueItem * gset (Z * Z)) : nat :=
  (length st.1 + size (gridKeys level ∖ st.2))%nat.

Lemma visit_cases item st dir :
  visit level visited item st dir = st ∨
  (let next := step (pos item) dir in
   inBounds (rows level) (cols level) next ∧
   (key next ∉ st.2) ∧ (key next ∉ visited) ∧
   isBlocked (walls level) (pos item) next = false ∧
   visit level visited item st dir =
     (st.1 ++ [mkItem next (path item ++ [next])], {[key next]} ∪ st.2)).
Proof.
  unfold visit.
  destruct (bool_decide (inBounds _ _ _)) eqn:H1; [|by left].
  destruct (bool_decide (_ ∉ st.2)) eqn:H2; [|by left].
  destruct (bool_decide (_ ∉ visited)) eqn:H3; [|by left].
  destruct (isBlocked _ _ _) eqn:H4; [by left|].
  right. simpl.
  apply bool_decide_eq_true in H1, H2, H3. done.
Qed.

Lemma visit_onGrid item st dir :
  onGrid (path item) →
  Forall (λ it, onGrid (path it)) st.1 →
  Forall (λ it, onGrid (path it)) (visit level visited item st dir).1.
Proof.
  intros Hitem Hst.
  destruct (visit_cases item st dir) as [->|(Hin & _ & _ & _ & ->)]; [done|].
  simpl. apply Forall_app. split; [done|].
  apply Forall_singleton. simpl. apply Forall_app. split; [done|].
  by apply Forall_singleton.
Qed.

Lemma visit_weight item st dir :
  (weight (visit level visited item st dir) ≤ weight st)%nat.
Proof.
  destruct (visit_cases item st dir) as [->|(Hin & Hnew & _ & _ & ->)]; [done|].
  unfold weight. simpl. rewrite length_app. simpl.
  assert (Hlt : (size (gridKeys level ∖ ({[key (step (pos item) dir)]} ∪ st.2))
                 < size (gridKeys level ∖ st.2))%nat); [|lia].
  apply subset_size. apply elem_of_gridKeys in Hin. set_solver.
Qed.

Lemma visits_onGrid item dirs : ∀ st,
  onGrid (path item) →
  Forall (λ it, onGrid (path it)) st.1 →
  Forall (λ it, onGrid (path it)) (foldl (visit level visited item) st dirs).1.
Proof.
  induction dirs as [|dir dirs IH]; simpl; intros st Hitem Hst; [done|].
  apply IH; [done|]. by apply visit_onGrid.
Qed.

Lemma visits_weight item dirs : ∀ st,
  (weight (foldl (visit level visited item) st dirs) ≤ weight st)%nat.
Proof.
  induction dirs as [|dir dirs IH]; simpl; intros st; [done|].
  etrans; [apply IH | apply visit_weight].
Qed.

Lemma bfs_S fuel queue localVisited :
  bfs level goal visited (S fuel) queue localVisited =
  match queue with
  | [] => NoPath
  | item :: rest =>
      if decide (row (pos item) = row goal ∧ col (pos item) = col goal)
      then Found (path item)
      else
        let st := foldl (visit level visited item) (rest, localVisited) DIRECTIONS in
        bfs level goal visited fuel st.1 st.2
  end.
Proof. reflexivity. Qed.

(** The path that the search returns stays on the grid when the
    paths in the queue do. *)
Lemma bfs_onGrid fuel : ∀ queue localVisited p,
  Forall (λ it, onGrid (path it)) queue →
  bfs level goal visited fuel queue localVisited = Found p →
  onGrid p.
Proof.
  induction fuel as [|fuel IH]; intros queue localVisited p Hq; [done|].
  rewrite bfs_S. destruct queue as [|item rest]; [done|].
  apply Forall_cons in Hq as [Hitem Hrest].
  case_decide.
  - by intros [= <-].
  - apply IH. by apply visits_onGrid.
Qed.

(** The search stops by itself before the fuel is used up. *)
Lemma bfs_fuel_enough fuel : ∀ queue localVisited,
  (weight (queue, localVisited) < fuel)%nat →
  bfs level goal visited fuel queue localVisited ≠ OutOfFuel.
Proof.
  induction fuel as [|fuel IH]; intros queue localVisited Hw; [lia|].
  rewrite bfs_S. destruct queue as [|item rest]; [done|].
  case_decide; [done|].
  pose proof (visits_weight item DIRECTIONS (rest, localVisited)) as Hle.
  destruct (foldl _ _ DIRECTIONS) as [queue' localVisited'] eqn:Hst.
  apply IH. unfold weight in *. cbn [fst snd length] in *. lia.
Qed.
End bfs_facts.

Lemma findPath_onGrid level start goal visited p :
  inBounds (rows level) (cols level) start →
  findPath level start goal visited = Some p →
  Forall (inBounds (rows level) (cols level)) p.
Proof.
  intros Hstart. unfold findPath.
  destruct (bfs _ _ _ _ _ _) as [q| |] eqn:Hbfs; [|done..].
  intros [= <-]. eapply bfs_onGrid; [|exact Hbfs].
  apply Forall_singleton. simpl. by apply Forall_singleton.
Qed.

(** [findPath] gives [null] only when the queue has run empty. *)
Lemma findPath_None level start goal visited :
  findPath level start goal visited = None ↔
  bfs level goal visited (bfsFuel level) [mkItem start [start]] {[key start]} = NoPath.
Proof.
  unfold findPath.
  pose proof (bfs_fuel_enough level goal visited (bfsFuel level)
                [mkItem start [start]] {[key start]}) as Hfuel.
  destruct (bfs _ _ _ _ _ _); [done | done |].
  exfalso. apply Hfuel; [|done]. simpl. unfold bfsFuel.
  pose proof (size_gridKeys level).
  assert (Hle : (size (gridKeys level ∖ {[key start]}) ≤ size (gridKeys level))%nat)
    by (apply subseteq_size; set_solver).
  lia.
Qed.

(** ** The loop over the clues *)

Lemma numberPositionsOf_onGrid level i p :
  cluesInGrid level →
  numberPositionsOf (initialValues level) !! i = Some p →
  inBounds (rows level) (cols level) p.
Proof.
  intros (_ & _ & Hclues). unfold numberPositionsOf.
  assert (Hgen : ∀ ivs (m : gmap Z Coordinate),
    Forall (λ iv, inBounds (rows level) (cols level)
                    (mkCoordinate (clue_row iv) (clue_col iv))) ivs →
    map_Forall (λ _ q, inBounds (rows level) (cols level) q) m →
    map_Forall (λ _ q, inBounds (rows level) (cols level) q)
      (foldl (λ m iv, <[clue_value iv := mkCoordinate (clue_row iv) (clue_col iv)]> m) m ivs)).
  { induction ivs as [|iv ivs IH]; simpl; intros m Hivs Hm; [done|].
    apply Forall_cons in Hivs as [Hiv Hivs].
    apply IH; [done|]. by apply map_Forall_insert_2. }
  intros Hp. eapply (Hgen _ ∅ Hclues); [apply map_Forall_empty | exact Hp].
Qed.

Lemma butLast_onGrid level p :
  Forall (inBounds (rows level) (cols level)) p →
  list_to_set (key <$> butLast p) ⊆ gridKeys level.
Proof.
  intros Hp k. rewrite elem_of_list_to_set, list_elem_of_fmap.
  intros (q & -> & Hq). apply elem_of_gridKeys.
  rewrite Forall_forall in Hp. apply Hp.
  unfold butLast in Hq. apply elem_of_take in Hq as (i & Hi & _).
  by eapply list_elem_of_lookup_2.
Qed.

Lemma connectClues_onGrid level (np : gmap Z Coordinate) n : ∀ i visited visited',
  map_Forall (λ _ q, inBounds (rows level) (cols level) q) np →
  visited ⊆ gridKeys level →
  connectClues level np n i visited = Returns (Some visited') →
  visited' ⊆ gridKeys level.
Proof.
  induction n as [|n IH]; simpl; intros i visited visited' Hnp Hsub.
  - by intros [= <-].
  - intros (currentPos & Hcur%unwrap_Returns & H)%bind_Returns.
    pose proof (Hnp _ _ Hcur) as Hcur_in. simpl in Hcur_in.
    apply elem_of_gridKeys in Hcur_in.
    case_decide.
    + apply bind_Returns in H as (prevPos & Hprev%unwrap_Returns & H).
      destruct (findPath _ _ _ _) as [p|] eqn:Hpath; [|done].
      apply IH in H; [done | done |].
      assert (Hp : list_to_set (key <$> butLast p) ⊆ gridKeys level).
      { apply butLast_onGrid. eapply findPath_onGrid; [|exact Hpath].
        by apply (Hnp _ _ Hprev). }
      set_solver.
    + apply IH in H; [done | done |]. set_solver.
Qed.

(** Every cell that the check marks as visited is a cell of the grid. *)
Lemma segmentsOf_onGrid level visited :
  cluesInGrid level →
  segmentsOf level = Returns (Some visited) →
  visited ⊆ gridKeys level.
Proof.
  intros Hclues. unfold segmentsOf. apply connectClues_onGrid; [|done].
  intros i p. by apply numberPositionsOf_onGrid.
Qed.

(** The outcome of the check in terms of its loop over the clues: on a
    level whose clues lie on its grid the cells marked as visited are
    cells of the grid, so the closing comparison of [visited.size] with
    the number of cells holds whenever it is reached. *)
Lemma solvable_iff_loop level :
  cluesInGrid level →
  (isPuzzleSolvable level = Returns true ↔
   ∃ visited, segmentsOf level = Returns (Some visited)) ∧
  (isPuzzleSolvable level = Returns false ↔ segmentsOf level = Returns None) ∧
  (∀ visited, segmentsOf level = Returns (Some visited) →
     visited ⊆ gridKeys level ∧
     Z.of_nat (size visited) ≤ rows level * cols level).
Proof.
  intros Hclues.
  assert (Hsize : ∀ visited, segmentsOf level = Returns (Some visited) →
            visited ⊆ gridKeys level ∧
            Z.of_nat (size visited) ≤ rows level * cols level).
  { intros visited Hseg.
    assert (Hsub : visited ⊆ gridKeys level) by by apply segmentsOf_onGrid.
    split; [done|]. destruct Hclues as (Hr & Hc & _). by apply size_on_grid. }
  split_and!; [| |done]; unfold isPuzzleSolvable; rewrite bind_Returns.
  - split.
    + intros ([visited|] & Hseg & H); [by eauto | discriminate].
    + intros [visited Hseg]. exists (Some visited). split; [done|].
      f_equal. apply bool_decide_eq_true. by apply Hsize.
  - split.
    + intros ([visited|] & Hseg & H); [|done].
      injection H as H. apply bool_decide_eq_false in H.
      destruct H. by apply Hsize.
    + intros Hseg. by exists None.
Qed.

(** ** The levels that the generator hands to the check *)

Lemma gbind_Some {A B} (m : gen A) (f : A → gen B) rnd b rnd' :
  gbind m f rnd = Some (b, rnd') ↔
  ∃ a rnd1, m rnd = Some (a, rnd1) ∧ f a rnd1 = Some (b, rnd').
Proof.
  unfold gbind. destruct (m rnd) as [[a rnd1]|]; split.
  - intros H. by exists a, rnd1.
  - by intros (a' & rnd1' & [= -> ->] & H).
  - discriminate.
  - by intros (a' & rnd1' & [=] & _).
Qed.

Lemma drawPick_Some rnd x rnd' :
  drawPick rnd = Some (x, rnd') → picks rnd = x :: picks rnd'.
Proof.
  unfold drawPick. destruct (picks rnd) as [|y t]; [done|]. by intros [= -> <-].
Qed.

Section pathBuilder_facts.
Context (rows cols : Z).

Let onGrid := Forall (inBounds rows cols).

Lemma tryDirs_onGrid descend current visited path dirs :
  (∀ next v pth rnd p rnd',
     onGrid pth → descend next v pth rnd = Some (Some p, rnd') → onGrid p) →
  onGrid path →
  ∀ rnd p rnd',
    tryDirs rows cols descend current visited path dirs rnd = Some (Some p, rnd') →
    onGrid p.
Proof.
  intros Hdescend Hpath.
  induction dirs as [|dir dirs IH]; intros rnd p rnd'; cbn [tryDirs]; [done|].
  destruct (bool_decide (inBounds rows cols (step current dir))) eqn:Hin;
    [|by apply IH].
  destruct (bool_decide (key (step current dir) ∉ visited)); [|by apply IH].
  cbn [andb]. intros ([q|] & rnd1 & Hrec & H)%gbind_Some.
  - injection H as <- <-. eapply Hdescend; [|exact Hrec].
    apply Forall_app. split; [done|].
    apply Forall_singleton. by apply bool_decide_eq_true in Hin.
  - by eapply IH.
Qed.

Lemma dfs_onGrid fuel : ∀ current visited path rnd p rnd',
  onGrid path →
  dfs rows cols fuel current visited path rnd = Some (Some p, rnd') →
  onGrid p.
Proof.
  induction fuel as [|fuel IH]; intros current visited path rnd p rnd' Hpath;
    cbn [dfs]; [done|].
  case_decide as Hlen.
  - by intros [= <- _].
  - intros (dirs & rnd1 & _ & H)%gbind_Some.
    eapply tryDirs_onGrid; [|exact Hpath|exact H].
    intros next v pth rnd2 q rnd3. apply IH.
Qed.

(** The Hamiltonian path stays on the grid when its start cell, drawn
    as [Math.floor(Math.random() * rows)] and
    [Math.floor(Math.random() * cols)], does. *)
Lemma generateHamiltonianPath_onGrid rnd p rnd' :
  (∀ r c t, picks rnd = r :: c :: t → inBounds rows cols (mkCoordinate r c)) →
  generateHamiltonianPath rows cols rnd = Some (Some p, rnd') →
  onGrid p.
Proof.
  intros Hstart. unfold generateHamiltonianPath.
  intros (r & rnd1 & Hr%drawPick_Some & (c & rnd2 & Hc%drawPick_Some & H)%gbind_Some)%gbind_Some.
  eapply dfs_onGrid; [|exact H].
  apply Forall_singleton. eapply Hstart. by rewrite Hr, Hc.
Qed.
End pathBuilder_facts.

Lemma at_index_elem_of {A} (l : list A) i x : at_index l i = Some x → x ∈ l.
Proof.
  unfold at_index. case_decide; [|done]. apply list_elem_of_lookup_2.
Qed.

Lemma pushClues_on_path path sortedIndices : ∀ i ivs,
  pushClues path i sortedIndices = Returns ivs →
  Forall (λ iv, mkCoordinate (clue_row iv) (clue_col iv) ∈ path) ivs.
Proof.
  induction sortedIndices as [|pathIdx rest IH]; intros i ivs; cbn [pushClues].
  - by intros [= <-].
  - case_decide as Hzero; [by apply IH|].
    intros (p & Hp%unwrap_Returns & (more & Hmore & [= <-])%bind_Returns)%bind_Returns.
    apply Forall_cons. split; [|by eapply IH].
    simpl. destruct p. by eapply at_index_elem_of.
Qed.

Lemma cluesOf_on_path path indicesToMark ivs :
  cluesOf path indicesToMark = Returns ivs →
  Forall (λ iv, mkCoordinate (clue_row iv) (clue_col iv) ∈ path) ivs.
Proof.
  unfold cluesOf.
  intros (p & Hp%unwrap_Returns & (more & Hmore & [= <-])%bind_Returns)%bind_Returns.
  apply Forall_cons. split; [|by eapply pushClues_on_path].
  simpl. destruct p. by eapply at_index_elem_of.
Qed.

(** Every level that an attempt hands to [isPuzzleSolvable] has its
    clues on its grid. *)
Lemma candidate_cluesInGrid rows cols difficulty rnd level rnd' :
  (∀ r c t, picks rnd = r :: c :: t → inBounds rows cols (mkCoordinate r c)) →
  candidate rows cols difficulty rnd = Some (Returns (Some level), rnd') →
  cluesInGrid level.
Proof.
  intros Hstart. unfold candidate.
  intros ([p|] & rnd1 & Hpath & H)%gbind_Some; [|by injection H].
  apply gbind_Some in H as (indicesToMark & rnd2 & _ & H).
  destruct (cluesOf p indicesToMark) as [ivs|] eqn:Hclues; [|by injection H].
  apply gbind_Some in H as (ws & rnd3 & _ & (name & rnd4 & _ & H)%gbind_Some).
  injection H as <- _.
  pose proof (generateHamiltonianPath_onGrid _ _ _ _ _ Hstart Hpath) as Hgrid.
  unfold cluesInGrid. simpl.
  destruct p as [|q p]; [by unfold cluesOf, at_index in Hclues|].
  apply Forall_cons in Hgrid as Hq. destruct Hq as [(? & ? & ? & ?) _].
  split; [lia|]. split; [lia|].
  apply cluesOf_on_path in Hclues.
  eapply Forall_impl; [exact Hclues|]. intros iv Hiv. simpl in Hiv.
  rewrite Forall_forall in Hgrid. by apply Hgrid.
Qed.

(** ** Diagonal steps in the solvability check *)

Lemma pocket_closed a b :
  a ∈ pocket → orthogonalStep spiral spiralVisited a b → b ∈ pocket.
Proof.
  intros Ha (Hdist & (Hr0 & Hr1 & Hc0 & Hc1) & Hnew & Hwall).
  destruct b as [r c]. simpl in *.
  assert (Hr : r = 0 ∨ r = 1 ∨ r = 2) by lia.
  assert (Hc : c = 0 ∨ c = 1 ∨ c = 2) by lia.
  unfold pocket in Ha. rewrite !elem_of_cons, elem_of_nil in Ha.
  destruct Ha as [Ha|[Ha|[Ha|[Ha|[Ha|[Ha|[]]]]]]]; subst a; simpl in Hdist;
    destruct Hr as [Hr|[Hr|Hr]]; subst r; destruct Hc as [Hc|[Hc|Hc]]; subst c;
    try lia;
    try (vm_compute in Hwall; discriminate);
    try (exfalso; apply Hnew; vm_compute; reflexivity);
    unfold pocket; rewrite !elem_of_cons; tauto.
Qed.

Lemma pocket_walk a b :
  orthogonalWalk spiral spiralVisited a b → a ∈ pocket → b ∈ pocket.
Proof.
  induction 1 as [a|a b c Hstep _ IH]; [done|].
  intros Ha. apply IH. by eapply pocket_closed.
Qed.

(** C1 at its failing input. The first attempt of
    [generateLevel 3 3 easy] on [spiralRun] makes the level [spiral]
    and [isPuzzleSolvable] accepts it. When the check has joined the
    clues 1 and 2 it has marked (0,0), (1,0) and (2,0); from the clue 2
    at (2,0) no walk of orthogonal steps over unvisited cells and
    across no wall reaches the clue 3 at (1,1), and the search joins
    the two by the diagonal step from (2,0) to (1,1). *)
Theorem diagonal_segment_accepted :
  fst <$> generateLevel 3 3 easy spiralRun = Some (Returns spiral) ∧
  isPuzzleSolvable spiral = Returns true ∧
  connectClues spiral (numberPositionsOf (initialValues spiral)) 2 1 ∅
    = Returns (Some spiralVisited) ∧
  ¬ orthogonalWalk spiral spiralVisited (mkCoordinate 2 0) (mkCoordinate 1 1) ∧
  findPath spiral (mkCoordinate 2 0) (mkCoordinate 1 1) spiralVisited
    = Some [mkCoordinate 2 0; mkCoordinate 1 1].
Proof.
  split_and!; try (vm_compute; reflexivity).
  intros Hwalk. apply pocket_walk in Hwalk.
  - unfold pocket in Hwalk. rewrite !elem_of_cons, elem_of_nil in Hwalk.
    destruct Hwalk as [?|[?|[?|[?|[?|[?|[]]]]]]]; discriminate.
  - unfold pocket. rewrite !elem_of_cons. tauto.
Qed.

(** The diagonal steps pass every wall: on [walledCorner] both
    orthogonal exits of the clue 1 are walled, and the check joins it
    to the clue 2 all the same. *)
Lemma walls_do_not_stop_diagonals :
  isBlocked (walls walledCorner) corner (mkCoordinate 1 0) = true ∧
  isBlocked (walls walledCorner) corner (mkCoordinate 0 1) = true ∧
  findPath walledCorner corner (mkCoordinate 1 1) ∅ = Some [corner; mkCoordinate 1 1] ∧
  isPuzzleSolvable walledCorner = Returns true.
Proof. split_and!; vm_compute; reflexivity. Qed.

(** ** The fallback of the generator *)

(** The fallback places no wall. *)
Lemma fallback_no_walls rows cols rnd level rnd' :
  fallback rows cols rnd = Some (Returns level, rnd') → walls level = [].
Proof.
  unfold fallback, gbind, gret.
  destruct (generateHamiltonianPath rows cols rnd) as [[[simplePath|] rnd1]|]; [|done..].
  destruct (markIndices _ _ rnd1) as [[indicesToMark rnd2]|]; [|done].
  destruct (cluesOf _ _) as [initialValues|]; [|done].
  destruct (drawName rnd2) as [[name rnd3]|]; [|done].
  by intros [= <- _].
Qed.

(** Once the attempts are used up the difficulty plays no part: the
    result is the one of [fallback], which does not take it. *)
Lemma generateLevel_exhausted rows cols difficulty rnd rnd' :
  attempts maxAttempts rows cols difficulty rnd = Some (None, rnd') →
  generateLevel rows cols difficulty rnd = fallback rows cols rnd'.
Proof. intros H. unfold generateLevel, gbind. by rewrite H. Qed.

(** C7 at its failing input. On [unluckyRun] all fifty attempts of
    [generateLevel 3 3 hard] fail and the fallback returns a level
    without walls that has three clues, the count of difficulty [easy]
    (9 div 3), where the main pipeline places for [hard] the two clues
    of the ends of the path (9 div 5 is 1), as it does on [luckyRun]. *)
Theorem fallback_ignores_difficulty :
  fst <$> attempts maxAttempts 3 3 hard unluckyRun = Some None ∧
  fst <$> generateLevel 3 3 hard unluckyRun = Some (Returns threeClues) ∧
  walls threeClues = [] ∧
  Z.of_nat (length (initialValues threeClues)) = numberCountFor easy (3 * 3) ∧
  numberCountFor hard (3 * 3) = 1 ∧
  fst <$> generateLevel 3 3 hard luckyRun = Some (Returns twoClues) ∧
  length (initialValues twoClues) = 2%nat.
Proof. split_and!; vm_compute; reflexivity. Qed.

(** ** The properties at sample inputs *)

(** The sample states are the states of the sessions they are named
    after. *)
Lemma square_sessions :
  initializeGame square = Returns squareStart ∧
  makeMoves squareStart [mkCoordinate 0 1] = Returns squareTwo ∧
  makeMoves squareStart [mkCoordinate 0 1; mkCoordinate 1 1] = Returns squareThree ∧
  makeMoves squareStart [mkCoordinate 0 1; mkCoordinate 1 1; mkCoordinate 1 0]
    = Returns squareSolved ∧
  initializeGame outOfOrder = Returns outOfOrderStart.
Proof. split_and!; vm_compute; reflexivity. Qed.

Lemma square_cluesInGrid : cluesInGrid square.
Proof. on_grid. Qed.

Lemma squareStart_wellFormed : wellFormed squareStart.
Proof.
  apply (initializeGame_wellFormed square); [apply square_cluesInGrid | reflexivity].
Qed.

Lemma squareThree_wellFormed : wellFormed squareThree.
Proof.
  eapply makeMove_wellFormed with (s := squareTwo) (t := mkCoordinate 1 1);
    [|vm_compute; reflexivity].
  eapply makeMove_wellFormed with (s := squareStart) (t := mkCoordinate 0 1);
    [|vm_compute; reflexivity].
  apply squareStart_wellFormed.
Qed.

Lemma squareSolved_wellFormed : wellFormed squareSolved.
Proof.
  eapply makeMove_wellFormed with (s := squareThree) (t := mkCoordinate 1 0);
    [|vm_compute; reflexivity].
  apply squareThree_wellFormed.
Qed.

Lemma earlier_entry_rewinds_witness :
  isValidMove squareThree corner = Returns true ∧
  ∃ s', makeMove squareThree corner = Returns s' ∧
        currentPath s' = take 1 (currentPath squareThree) ∧
        last (currentPath s') = Some corner.
Proof.
  apply (earlier_entry_rewinds squareThree corner 0).
  - apply squareThree_wellFormed.
  - reflexivity.
  - simpl. lia.
Defined.

Lemma complete_state_guard_witness :
  handleMove (Some squareSolved) corner = Returns (Some squareSolved) ∧
  ∃ s', makeMove squareSolved corner = Returns s' ∧
        isComplete s' = false ∧
        currentPath s' = take 1 (currentPath squareSolved).
Proof.
  destruct (complete_state_guard squareSolved corner eq_refl) as [Hguard Hrewind].
  split; [exact Hguard|].
  apply (Hrewind 0%nat).
  - apply squareSolved_wellFormed.
  - reflexivity.
  - simpl. lia.
Defined.

Lemma out_of_sequence_rejected_witness :
  isValidMove outOfOrderStart (mkCoordinate 0 1) = Returns false.
Proof.
  apply (out_of_sequence_rejected outOfOrderStart (mkCoordinate 0 1)
           (mkCell 0 1 (Some 3) true None) 3).
  - simpl. rewrite list_elem_of_singleton. discriminate.
  - reflexivity.
  - reflexivity.
  - reflexivity.
  - simpl. lia.
Defined.

Lemma makeMove_frame_witness :
  ∃ s', makeMove squareStart (mkCoordinate 0 1) = Returns s' ∧
        level s' = level squareStart ∧
        ∀ r c, clueData <$> grid_at (grid s') r c =
               clueData <$> grid_at (grid squareStart) r c.
Proof.
  destruct (makeMove_frame squareStart (mkCoordinate 0 1)) as [Hframe Htotal].
  destruct (Htotal squareStart_wellFormed) as [s' Hs'].
  exists s'. split; [exact Hs'|]. apply Hframe. exact Hs'.
Defined.

Lemma no_first_clue_stuck_witness :
  ∃ s, initializeGame headless = Returns s ∧
       currentPath s = [] ∧
       lastVisitedNumber s = 0 ∧
       isComplete s = false ∧
       (∀ r c x, grid_at (grid s) r c = Some x → visitedOrder x = None) ∧
       ∀ ts, makeMoves s ts = Returns s.
Proof.
  apply (no_first_clue_stuck headless).
  - on_grid.
  - simpl. intros iv. rewrite !elem_of_cons, elem_of_nil.
    intros [->|[->|[]]]; simpl; lia.
Defined.

(** * Further properties of the move state machine *)

(** ** Walls *)

Lemma wallBetween_sym a b w : wallBetween a b w = wallBetween b a w.
Proof.
  unfold wallBetween. apply eq_true_iff_eq.
  destruct (orientation w);
    rewrite !andb_true_iff, !orb_true_iff, !bool_decide_eq_true; tauto.
Qed.

Lemma wallBetween_adjacent a b w : wallBetween a b w = true → manhattan a b = 1.
Proof.
  unfold wallBetween, manhattan.
  destruct (orientation w); rewrite andb_true_iff, orb_true_iff, !bool_decide_eq_true; lia.
Qed.

Lemma hasWall_sym walls a b : hasWall walls a b = hasWall walls b a.
Proof.
  unfold hasWall. induction walls as [|w ws IH]; simpl; [done|].
  by rewrite IH, wallBetween_sym.
Qed.

(** X6. [hasWall] does not depend on the direction of the step, and it
    only ever reports a wall between two cells that are orthogonal
    neighbours. *)
Theorem hasWall_symmetric_adjacent walls a b :
  hasWall walls a b = hasWall walls b a ∧
  (hasWall walls a b = true → manhattan a b = 1).
Proof.
  split; [apply hasWall_sym|].
  unfold hasWall. rewrite existsb_exists. intros (w & _ & Hw).
  by eapply wallBetween_adjacent.
Qed.

(** ** The cases of a move *)

Lemma isValidMove_forward s t :
  findIndex (currentPath s) t = None →
  isValidMove s t = Returns true →
  ∃ current x,
    last (currentPath s) = Some current ∧
    inBounds (rows (level s)) (cols (level s)) t ∧
    manhattan current t = 1 ∧
    grid_at (grid s) (row t) (col t) = Some x ∧
    visitedOrder x = None ∧
    hasWall (walls (level s)) current t = false ∧
    (∀ v, isFixed x = true → value x = Some v → v = lastVisitedNumber s + 1).
Proof.
  intros Hnot. unfold isValidMove.
  destruct (last (currentPath s)) as [current|]; [|done].
  case_decide as Hin; [|done]. rewrite Hnot.
  case_decide as Hdist; [done|].
  destruct (grid_at (grid s) (row t) (col t)) as [x|] eqn:Hx; [|done]. simpl.
  case_decide as Hvis; [done|].
  destruct (hasWall _ _ _) eqn:Hwall; [done|].
  intros Hseq. exists current, x. split_and!; try done.
  intros v Hf Hv. rewrite Hf, Hv in Hseq. by case_decide.
Qed.

Lemma extendTo_accepted s t s' :
  isValidMove s t = Returns true →
  extendTo s t = Returns s' →
  ∃ x g,
    grid_at (grid s) (row t) (col t) = Some x ∧
    grid_set (set_visitedOrder (Some (Z.of_nat (length (currentPath s)) + 1)))
      (grid s) (row t) (col t) = Returns g ∧
    level s' = level s ∧ grid s' = g ∧
    currentPath s' = currentPath s ++ [t] ∧
    lastVisitedNumber s' = clueOr x (lastVisitedNumber s) ∧
    isComplete s' = completeAfter s (clueOr x (lastVisitedNumber s)).
Proof.
  intros Hvalid. unfold extendTo. rewrite Hvalid. simpl.
  intros (x & Hx%unwrap_Returns & (g & Hg & [= <-])%bind_Returns)%bind_Returns.
  exists x, g. simpl. split_and!; try done.
  unfold completeAfter, clueOr. rewrite length_app. simpl. f_equal.
  apply bool_decide_ext. lia.
Qed.

(** X1. What one call of [makeMove] can do. It returns its argument
    unchanged, or it rewinds to an entry of the path below the head
    (the path is cut after that entry and [isComplete] is false), or
    it appends the target to the path. An appended target is on the
    grid, and either it is the head of the path once more, or it is a
    cell off the path, next to the head, with no wall in between, not
    yet visited, and if it carries a clue then the clue is
    [lastVisitedNumber + 1]. *)
Theorem makeMove_cases s t s' :
  makeMove s t = Returns s' →
  s' = s ∨
  (∃ i, currentPath s !! i = Some t ∧
        (i < length (currentPath s) - 1)%nat ∧
        currentPath s' = take (S i) (currentPath s) ∧
        isComplete s' = false) ∨
  (currentPath s' = currentPath s ++ [t] ∧
   inBounds (rows (level s)) (cols (level s)) t ∧
   (last (currentPath s) = Some t ∨
    ∃ current x,
      last (currentPath s) = Some current ∧
      (t ∉ currentPath s) ∧
      manhattan current t = 1 ∧
      hasWall (walls (level s)) current t = false ∧
      grid_at (grid s) (row t) (col t) = Some x ∧
      visitedOrder x = None ∧
      (∀ v, isFixed x = true → value x = Some v → v = lastVisitedNumber s + 1))).
Proof.
  unfold makeMove. intros Hmove.
  assert (Hext : extendTo s t = Returns s' →
    s' = s ∨
    (currentPath s' = currentPath s ++ [t] ∧
     inBounds (rows (level s)) (cols (level s)) t ∧
     isValidMove s t = Returns true)).
  { intros [->|(Hvalid & _ & _ & Hpath)]%extendTo_Returns; [by left|].
    right. split_and!; [done | by apply isValidMove_true_inBounds | done]. }
  destruct (findIndex (currentPath s) t) as [i|] eqn:Hfind.
  - case_decide as Hi.
    + right. left. exists i.
      apply rewindTo_Returns in Hmove as (_ & _ & Hpath & Hdone).
      by apply findIndex_Some in Hfind as [Hlook _].
    + destruct (Hext Hmove) as [->|(Hpath & Hin & _)]; [by left|].
      right. right. split_and!; [done | done |]. left.
      pose proof (findIndex_lt _ _ _ Hfind) as Hlt.
      apply findIndex_Some in Hfind as [Hlook _].
      rewrite last_lookup. by replace (pred (length (currentPath s))) with i by lia.
  - destruct (Hext Hmove) as [->|(Hpath & Hin & Hvalid)]; [by left|].
    right. right. split_and!; [done | done |]. right.
    destruct (isValidMove_forward s t Hfind Hvalid)
      as (current & x & ? & ? & ? & ? & ? & ? & ?).
    exists current, x. split_and!; try done. by apply findIndex_None.
Qed.

(** ** The initial state *)

Lemma stampClues_lookup ivs : ∀ g g' r c,
  stampClues g ivs = Returns g' →
  grid_at g' r c =
  match clueAt ivs r c with
  | Some v => stamp v <$> grid_at g r c
  | None => grid_at g r c
  end.
Proof.
  induction ivs as [|iv ivs IH]; intros g g' r c; cbn [stampClues clueAt].
  - by intros [= <-].
  - intros (g1 & H1 & (g2 & H2 & Hrest)%bind_Returns)%bind_Returns.
    rewrite (IH _ _ r c Hrest).
    rewrite (grid_set_lookup _ _ _ _ _ r c H2), (grid_set_lookup _ _ _ _ _ r c H1).
    destruct (clueAt ivs r c) as [v|].
    + case_decide; [|done]. by destruct (grid_at g r c).
    + destruct (decide (r = clue_row iv ∧ c = clue_col iv)) as [[-> ->]|Hne].
      * rewrite decide_True by done. by destruct (grid_at g _ _).
      * rewrite decide_False; [done|]. intros [<- <-]. by apply Hne.
Qed.

Lemma initializeGame_spec lvl s :
  initializeGame lvl = Returns s →
  level s = lvl ∧
  currentPath s = option_list (startOf lvl) ∧
  lastVisitedNumber s = (if startOf lvl is Some _ then 1 else 0) ∧
  isComplete s = false ∧
  ∀ r c,
    grid_at (grid s) r c =
    if decide (inBounds (rows lvl) (cols lvl) (mkCoordinate r c))
    then Some (mkCell r c
                 (clueAt (initialValues lvl) r c)
                 (bool_decide (is_Some (clueAt (initialValues lvl) r c)))
                 (if decide (startOf lvl = Some (mkCoordinate r c))
                  then Some 1 else None))
    else None.
Proof.
  intros (g & Hg & H)%initializeGame_Returns. unfold startOf.
  assert (Hstamped : ∀ r c,
    grid_at g r c =
    if decide (inBounds (rows lvl) (cols lvl) (mkCoordinate r c))
    then Some (mkCell r c (clueAt (initialValues lvl) r c)
                 (bool_decide (is_Some (clueAt (initialValues lvl) r c))) None)
    else None).
  { intros r c. rewrite (stampClues_lookup _ _ _ r c Hg), blankGrid_at.
    destruct (decide (inBounds (rows lvl) (cols lvl) (mkCoordinate r c))) as [Hin|Hout].
    - rewrite decide_True by exact Hin.
      by destruct (clueAt (initialValues lvl) r c) as [v|].
    - rewrite decide_False by exact Hout. by destruct (clueAt _ _ _). }
  destruct (list_find _ _) as [[k startCell]|]; simpl.
  - destruct H as (g' & Hg' & ->). simpl. split_and!; try done.
    intros r c. rewrite (grid_set_lookup _ _ _ _ _ r c Hg'), Hstamped.
    destruct (decide (r = clue_row startCell ∧ c = clue_col startCell)) as [[-> ->]|Hne].
    + rewrite (decide_True (P := Some _ = Some _)) by done.
      by case_decide.
    + rewrite (decide_False (P := Some _ = Some _)); [done|].
      intros [= <- <-]. by apply Hne.
  - subst s. simpl. split_and!; done.
Qed.

(** X2. The state that [initializeGame] returns: the level is the one
    given, the path holds the cell of the first clue of value 1 or is
    empty when there is none, [lastVisitedNumber] is 1 or 0
    accordingly, [isComplete] is false, and the grid has exactly the
    cells of the level, each with its own coordinates, the clue that
    the level lists for it (the last one, should it list several),
    [isFixed] exactly on the clue cells, and visit order 1 on the start
    cell only. *)
Theorem initializeGame_grid lvl s :
  initializeGame lvl = Returns s →
  level s = lvl ∧
  currentPath s = option_list (startOf lvl) ∧
  lastVisitedNumber s = (if startOf lvl is Some _ then 1 else 0) ∧
  isComplete s = false ∧
  ∀ r c,
    grid_at (grid s) r c =
    if decide (inBounds (rows lvl) (cols lvl) (mkCoordinate r c))
    then Some (mkCell r c
                 (clueAt (initialValues lvl) r c)
                 (bool_decide (is_Some (clueAt (initialValues lvl) r c)))
                 (if decide (startOf lvl = Some (mkCoordinate r c))
                  then Some 1 else None))
    else None.
Proof. apply initializeGame_spec. Qed.

(** ** The last visited number *)

Lemma recomputeLast_sameClues g g' ps : ∀ acc,
  sameClues g g' → recomputeLast g' ps acc = recomputeLast g ps acc.
Proof.
  intros acc Hsame. revert acc.
  induction ps as [|p ps IH]; intros acc; cbn [recomputeLast]; [done|].
  pose proof (Hsame (row p) (col p)) as Hp.
  destruct (grid_at g (row p) (col p)) as [x|], (grid_at g' (row p) (col p)) as [x'|];
    simpl in *; try done.
  injection Hp as _ _ Hv Hf. rewrite Hv, Hf.
  destruct (value x); [destruct (isFixed x && _)|]; apply IH.
Qed.

Lemma recomputeLast_app g ps qs : ∀ acc,
  recomputeLast g (ps ++ qs) acc = recomputeLast g ps acc ≫= recomputeLast g qs.
Proof.
  induction ps as [|p ps IH]; intros acc; cbn [recomputeLast app]; [done|].
  destruct (grid_at g (row p) (col p)) as [x|]; simpl; [|done].
  destruct (value x); [destruct (isFixed x && _)|]; apply IH.
Qed.

Lemma recomputeLast_spec g ps : ∀ acc v,
  recomputeLast g ps acc = Returns v →
  acc ≤ v ∧
  (∀ p x u, p ∈ ps → grid_at g (row p) (col p) = Some x →
            isFixed x = true → value x = Some u → u ≤ v) ∧
  (v = acc ∨ ∃ p x, p ∈ ps ∧ grid_at g (row p) (col p) = Some x ∧
                    isFixed x = true ∧ value x = Some v).
Proof.
  induction ps as [|p ps IH]; intros acc v; cbn [recomputeLast].
  - intros [= <-]. split_and!; [lia | | by left].
    intros p x u Hp. by apply elem_of_nil in Hp.
  - destruct (grid_at g (row p) (col p)) as [x|] eqn:Hx; simpl; [|done].
    assert (Hkeep : recomputeLast g ps acc = Returns v →
      (isFixed x = true → ∀ u, value x = Some u → u ≤ acc) →
      acc ≤ v ∧
      (∀ q y u, q ∈ p :: ps → grid_at g (row q) (col q) = Some y →
                isFixed y = true → value y = Some u → u ≤ v) ∧
      (v = acc ∨ ∃ q y, q ∈ p :: ps ∧ grid_at g (row q) (col q) = Some y ∧
                        isFixed y = true ∧ value y = Some v)).
    { intros Hrec Hsmall. destruct (IH _ _ Hrec) as (Hle & Hub & Hat).
      split_and!; [done | |].
      - intros q y u [->|Hq]%elem_of_cons Hy Hf Hu; [|by eapply Hub].
        rewrite Hx in Hy. injection Hy as <-. specialize (Hsmall Hf u Hu). lia.
      - destruct Hat as [->|(q & y & Hq & ?)]; [by left|].
        right. exists q, y. split; [by right | done]. }
    destruct (value x) as [val|] eqn:Hval.
    + destruct (isFixed x) eqn:Hfix; simpl.
      * case_bool_decide as Hgt.
        -- intros Hrec. destruct (IH _ _ Hrec) as (Hle & Hub & Hat).
           split_and!; [lia | |].
           ++ intros q y u [->|Hq]%elem_of_cons Hy Hf Hu; [|by eapply Hub].
              rewrite Hx in Hy. injection Hy as <-. rewrite Hval in Hu.
              injection Hu as <-. done.
           ++ right. destruct Hat as [->|(q & y & Hq & ?)].
              ** exists p, x. split; [by left | done].
              ** exists q, y. split; [by right | done].
        -- intros Hrec. apply Hkeep; [done|]. intros _ u [= <-]. lia.
      * intros Hrec. apply Hkeep; [done|]. done.
    + intros Hrec. apply Hkeep; [done|]. done.
Qed.

Lemma clueAt_distinct ivs iv :
  NoDup ((λ iv, (clue_row iv, clue_col iv)) <$> ivs) →
  iv ∈ ivs →
  clueAt ivs (clue_row iv) (clue_col iv) = Some (clue_value iv).
Proof.
  induction ivs as [|iv' ivs IH]; cbn [clueAt fmap list_fmap].
  - intros _ Hin. by apply elem_of_nil in Hin.
  - intros [Hnotin Hnodup]%NoDup_cons [->|Hin]%elem_of_cons.
    + destruct (clueAt ivs (clue_row iv') (clue_col iv')) as [v|] eqn:Hv.
      * exfalso. apply Hnotin.
        clear -Hv. induction ivs as [|j ivs IH]; cbn [clueAt] in Hv; [done|].
        cbn [fmap list_fmap].
        destruct (clueAt ivs _ _) eqn:E; [right; by apply IH|].
        case_decide as Hj; [|done]. destruct Hj as [<- <-]. by left.
      * by rewrite decide_True.
    + by rewrite (IH Hnodup Hin).
Qed.

Lemma offHead_reachable lvl s : reachableOffHead lvl s → reachable lvl s.
Proof.
  induction 1; [by apply reachable_init | by eapply reachable_move].
Qed.

Lemma offHead_recompute lvl s :
  distinctClues lvl →
  reachableOffHead lvl s →
  recomputeLast (grid s) (currentPath s) 0 = Returns (lastVisitedNumber s).
Proof.
  intros Hdistinct. induction 1 as [s Hinit|s t s' _ IH Hhead Hmove].
  - pose proof (initializeGame_spec _ _ Hinit) as (_ & _ & _ & _ & Hgrid).
    apply initializeGame_Returns in Hinit as (g & _ & Hinit).
    unfold startOf in Hgrid.
    destruct (list_find _ _) as [[k startCell]|] eqn:Hfind; [|by subst s].
    destruct Hinit as (g' & Hg' & ->). simpl in *.
    specialize (Hgrid (clue_row startCell) (clue_col startCell)).
    rewrite (grid_set_lookup _ _ _ _ _ _ _ Hg'), decide_True in Hgrid by done.
    apply grid_set_Returns in Hg' as [[x Hx] ->].
    rewrite Hx in Hgrid. simpl in Hgrid.
    case_decide as Hin; [|done]. apply (inj Some) in Hgrid.
    apply list_find_Some in Hfind as (Hk & Hone & _).
    rewrite (clueAt_distinct _ startCell Hdistinct) in Hgrid
      by by eapply list_elem_of_lookup_2.
    pose proof (f_equal value Hgrid) as Hvalue.
    pose proof (f_equal isFixed Hgrid) as Hfixed. simpl in Hvalue, Hfixed.
    unfold inBounds in Hin. simpl in Hin.
    rewrite grid_at_alter, decide_True, Hx by (lia || done).
    simpl. rewrite Hvalue, Hfixed, Hone. done.
  - unfold makeMove in Hmove.
    destruct (findIndex (currentPath s) t) as [i|] eqn:Hfind.
    + case_decide as Hi.
      * unfold rewindTo in Hmove.
        apply bind_Returns in Hmove as (g & Hg & (v & Hv & [= <-])%bind_Returns).
        done.
      * destruct Hhead. rewrite last_lookup.
        pose proof (findIndex_lt _ _ _ Hfind) as Hlt.
        apply findIndex_Some in Hfind as [Hlook _].
        by replace (pred (length (currentPath s))) with i by lia.
    + destruct (isValidMove s t) as [[]|] eqn:Hvalid.
      * destruct (extendTo_accepted _ _ _ Hvalid Hmove)
          as (x & g & Hx & Hg & _ & -> & -> & -> & _).
        destruct (isValidMove_forward _ _ Hfind Hvalid)
          as (current & x' & _ & _ & _ & Hx' & _ & _ & Hseq).
        rewrite Hx in Hx'. injection Hx' as <-.
        rewrite recomputeLast_app.
        rewrite (recomputeLast_sameClues (grid s) g)
          by by eapply grid_set_visitedOrder_sameClues.
        rewrite IH. simpl.
        rewrite (grid_set_lookup _ _ _ _ _ _ _ Hg), decide_True, Hx by done.
        simpl. unfold clueOr.
        destruct (value x) as [v|] eqn:Hv; [|by destruct (isFixed x)].
        destruct (isFixed x) eqn:Hf; [|done]. simpl.
        rewrite (Hseq v eq_refl eq_refl).
        by rewrite bool_decide_eq_true_2 by lia.
      * unfold extendTo in Hmove. rewrite Hvalid in Hmove. simpl in Hmove.
        by injection Hmove as <-.
      * unfold extendTo in Hmove. by rewrite Hvalid in Hmove.
Qed.

(** X3. On a level that lists no cell twice among its clues, in every
    state of a session that never aims at the head of the path,
    [lastVisitedNumber] is the largest clue on the path (0 when the
    path holds no clue): forward moves and rewinds keep it in step. *)
Theorem lastVisitedNumber_is_max lvl s :
  distinctClues lvl →
  reachableOffHead lvl s →
  isPathMax (grid s) (currentPath s) (lastVisitedNumber s).
Proof.
  intros Hdistinct Hreach.
  pose proof (offHead_recompute _ _ Hdistinct Hreach) as Hrec.
  apply recomputeLast_spec in Hrec as (? & ? & ?). by split_and!.
Qed.

(** ** Completion *)

Lemma reachable_complete lvl s :
  reachable lvl s →
  isComplete s = true →
  Z.of_nat (length (currentPath s)) = rows (level s) * cols (level s) ∧
  Some (lastVisitedNumber s) = math_max (clue_value <$> initialValues (level s)).
Proof.
  induction 1 as [s Hinit|s t s' _ IH Hmove].
  - apply initializeGame_spec in Hinit as (_ & _ & _ & -> & _). done.
  - assert (Hext : extendTo s t = Returns s' → isComplete s' = true →
      Z.of_nat (length (currentPath s')) = rows (level s') * cols (level s') ∧
      Some (lastVisitedNumber s') = math_max (clue_value <$> initialValues (level s'))).
    { intros Hext. destruct (isValidMove s t) as [[]|] eqn:Hvalid.
      - destruct (extendTo_accepted _ _ _ Hvalid Hext)
          as (x & g & _ & _ & -> & _ & -> & -> & ->).
        unfold completeAfter. rewrite andb_true_iff, !bool_decide_eq_true.
        rewrite length_app. simpl. intros [? ?]. split; [lia | done].
      - unfold extendTo in Hext. rewrite Hvalid in Hext. simpl in Hext.
        by injection Hext as <-.
      - unfold extendTo in Hext. by rewrite Hvalid in Hext. }
    unfold makeMove in Hmove.
    destruct (findIndex (currentPath s) t) as [i|]; [case_decide|]; auto.
    apply rewindTo_Returns in Hmove as (_ & _ & _ & ->). done.
Qed.

Lemma key_inj p q : key p = key q → p = q.
Proof. destruct p, q. by intros [= -> ->]. Qed.

#[local] Instance key_Inj : Inj (=) (=) key.
Proof. intros p q. apply key_inj. Qed.

Lemma full_path_covers (lvl : Level) (ps : list Coordinate) :
  0 ≤ rows lvl → 0 ≤ cols lvl →
  NoDup ps →
  Forall (inBounds (rows lvl) (cols lvl)) ps →
  Z.of_nat (length ps) = rows lvl * cols lvl →
  ∀ p, inBounds (rows lvl) (cols lvl) p → p ∈ ps.
Proof.
  intros Hr Hc Hnodup Hin Hlen p Hp.
  assert (Hsub : (list_to_set (key <$> ps) : gset (Z * Z)) ⊆ gridKeys lvl).
  { intros k. rewrite elem_of_list_to_set, list_elem_of_fmap.
    intros (q & -> & Hq). apply elem_of_gridKeys.
    rewrite Forall_forall in Hin. by apply Hin. }
  assert (Hsize : size (list_to_set (key <$> ps) : gset (Z * Z)) = length ps).
  { rewrite size_list_to_set by (apply (NoDup_fmap_2 key); exact Hnodup).
    by rewrite length_fmap. }
  pose proof (size_gridKeys lvl) as Hgrid.
  assert (Heq : (list_to_set (key <$> ps) : gset (Z * Z)) = gridKeys lvl).
  { apply set_subseteq_size_eq; [done|]. rewrite Hsize. nia. }
  apply elem_of_gridKeys in Hp. rewrite <- Heq in Hp.
  apply elem_of_list_to_set, list_elem_of_fmap in Hp as (q & Hq%key_inj & Hin').
  by subst.
Qed.

(** X4. In a session that never aims at the head of the path, a state
    with [isComplete] true has a path that visits every cell of the
    level exactly once and has reached the largest clue. *)
Theorem complete_means_covered lvl s :
  cluesInGrid lvl →
  reachableOffHead lvl s →
  isComplete s = true →
  NoDup (currentPath s) ∧
  (∀ p, inBounds (rows lvl) (cols lvl) p → p ∈ currentPath s) ∧
  Some (lastVisitedNumber s) = math_max (clue_value <$> initialValues lvl).
Proof.
  intros Hclues Hoff Hdone.
  pose proof (agreement_off_head _ _ Hoff) as [Hnodup _].
  pose proof (offHead_reachable _ _ Hoff) as Hreach.
  destruct (reachable_level _ _ Hreach Hclues) as [Hlevel [_ Hpath]].
  destruct (reachable_complete _ _ Hreach Hdone) as [Hlen Hmax].
  rewrite Hlevel in *. destruct Hclues as (Hr & Hc & _).
  split_and!; [done | | done].
  by apply full_path_covers.
Qed.

(** ** A step and back *)

Lemma grid_set_undo f f' g r c g1 g2 :
  grid_set f g r c = Returns g1 →
  grid_set f' g1 r c = Returns g2 →
  (∀ x, grid_at g r c = Some x → f' (f x) = x) →
  g2 = g.
Proof.
  intros [[x Hx] ->]%grid_set_Returns [_ ->]%grid_set_Returns Hback.
  rewrite list_alter_alter_eq.
  apply grid_at_Some in Hx as (Hr & Hc & cells & Hcells & Hcell).
  transitivity (alter id (Z.to_nat r) g); [|by apply list_alter_id].
  apply list_alter_ext; [|done]. intros cells' Hcells'.
  rewrite Hcells in Hcells'. injection Hcells' as <-. simpl.
  rewrite list_alter_alter_eq.
  transitivity (alter id (Z.to_nat c) cells); [|by apply list_alter_id].
  apply list_alter_ext; [|done]. intros x' Hx'.
  rewrite Hcell in Hx'. injection Hx' as <-. simpl. apply Hback.
  apply grid_at_Some. eauto 10.
Qed.

(** X5. A forward move is undone by a move back onto the former head:
    if [makeMove] accepts a new cell [t] from a state that is not
    complete, then [makeMove] on the former head of the path returns
    the former state, grid and counters included. *)
Theorem step_then_back lvl s t s1 h :
  distinctClues lvl →
  reachableOffHead lvl s →
  isComplete s = false →
  last (currentPath s) = Some h →
  t ∉ currentPath s →
  makeMove s t = Returns s1 →
  s1 ≠ s →
  makeMove s1 h = Returns s.
Proof.
  intros Hdistinct Hoff Hopen Hhead Hnew Hmove Hchanged.
  pose proof (agreement_off_head _ _ Hoff) as [Hnodup _].
  pose proof (offHead_recompute _ _ Hdistinct Hoff) as Hlast.
  apply findIndex_None in Hnew as Hfind.
  unfold makeMove in Hmove. rewrite Hfind in Hmove.
  destruct (isValidMove s t) as [[]|] eqn:Hvalid.
  2:{ unfold extendTo in Hmove. rewrite Hvalid in Hmove. simpl in Hmove.
      injection Hmove as <-. done. }
  2:{ unfold extendTo in Hmove. by rewrite Hvalid in Hmove. }
  destruct (extendTo_accepted _ _ _ Hvalid Hmove)
    as (x & g1 & Hx & Hg1 & Hlevel & Hgrid & Hpath & _ & _).
  destruct (isValidMove_forward _ _ Hfind Hvalid)
    as (_ & x' & _ & _ & _ & Hx' & Hvis & _ & _).
  rewrite Hx in Hx'. injection Hx' as <-.
  set (n := length (currentPath s)).
  assert (Hn : (0 < n)%nat).
  { destruct (currentPath s); [done | simpl in n; lia]. }
  assert (Hh : currentPath s !! (n - 1)%nat = Some h).
  { rewrite last_lookup in Hhead. by replace (n - 1)%nat with (pred n) by lia. }
  assert (Hidx : findIndex (currentPath s1) h = Some (n - 1)%nat).
  { apply findIndex_Some. rewrite Hpath. split.
    - by apply lookup_app_l_Some.
    - intros j Hj Hjh. apply lookup_app_Some in Hjh as [Hjh|[Hge _]]; [|lia].
      pose proof (NoDup_lookup _ _ _ _ Hnodup Hjh Hh). lia. }
  unfold makeMove. rewrite Hidx, decide_True
    by (rewrite Hpath, length_app; simpl; lia).
  unfold rewindTo. rewrite Hpath, Hgrid, Hlevel.
  replace (S (n - 1)) with n by lia. unfold n.
  rewrite drop_app_length, take_app_length. cbn [clearVisited].
  destruct (grid_set_total (set_visitedOrder None) g1 (row t) (col t)) as [g2 Hg2].
  { rewrite (grid_set_lookup _ _ _ _ _ _ _ Hg1), decide_True, Hx by done. eauto. }
  rewrite Hg2. simpl.
  assert (g2 = grid s) as ->.
  { eapply grid_set_undo; [exact Hg1 | exact Hg2 |].
    intros y Hy. rewrite Hx in Hy. injection Hy as <-.
    destruct x. simpl in *. by subst. }
  rewrite Hlast. simpl. f_equal. destruct s. simpl in *. by subst.
Qed.

(** ** The state as a function of the path *)

Lemma grid_ext (g g' : list (list Cell)) :
  length g = length g' →
  (∀ r c, grid_at g r c = grid_at g' r c) →
  g = g'.
Proof.
  intros Hlen Hat. apply list_eq. intros i.
  destruct (g !! i) as [cells|] eqn:Hg, (g' !! i) as [cells'|] eqn:Hg'.
  - f_equal. apply list_eq. intros j.
    specialize (Hat (Z.of_nat i) (Z.of_nat j)). unfold grid_at in Hat.
    rewrite !decide_True, !Nat2Z.id, Hg, Hg' in Hat by lia. done.
  - apply lookup_lt_Some in Hg. apply lookup_ge_None in Hg'. lia.
  - apply lookup_lt_Some in Hg'. apply lookup_ge_None in Hg. lia.
  - done.
Qed.

Lemma grid_set_length f g r c g' :
  grid_set f g r c = Returns g' → length g' = length g.
Proof. intros [_ ->]%grid_set_Returns. apply length_alter. Qed.

Lemma clearVisited_length ps : ∀ g g',
  clearVisited g ps = Returns g' → length g' = length g.
Proof.
  induction ps as [|p ps IH]; intros g g'; cbn [clearVisited].
  - by intros [= <-].
  - intros (g1 & Hset%grid_set_length & Hrest%IH)%bind_Returns. congruence.
Qed.

Lemma makeMove_length s t s' :
  makeMove s t = Returns s' → length (grid s') = length (grid s).
Proof.
  unfold makeMove. intros H.
  assert (Hext : extendTo s t = Returns s' → length (grid s') = length (grid s)).
  { unfold extendTo. intros ([] & _ & Hrest)%bind_Returns; simpl in Hrest.
    - apply bind_Returns in Hrest as (x & _ & (g & Hg%grid_set_length & [= <-])%bind_Returns).
      done.
    - by injection Hrest as <-. }
  destruct (findIndex _ _); [case_decide|]; auto.
  unfold rewindTo in H.
  apply bind_Returns in H as (g & Hg%clearVisited_length & (v & _ & [= <-])%bind_Returns).
  done.
Qed.

Lemma path_fits lvl (ps : list Coordinate) :
  0 ≤ rows lvl → 0 ≤ cols lvl →
  NoDup ps → Forall (inBounds (rows lvl) (cols lvl)) ps →
  Z.of_nat (length ps) ≤ rows lvl * cols lvl.
Proof.
  intros Hr Hc Hnodup Hin.
  assert (Hsize : size (list_to_set (key <$> ps) : gset (Z * Z)) = length ps).
  { rewrite size_list_to_set by (apply (NoDup_fmap_2 key); exact Hnodup).
    by rewrite length_fmap. }
  rewrite <- Hsize. apply size_on_grid; [done | done |].
  intros k. rewrite elem_of_list_to_set, list_elem_of_fmap.
  intros (q & -> & Hq). apply elem_of_gridKeys.
  rewrite Forall_forall in Hin. by apply Hin.
Qed.

Lemma offHead_settled lvl s :
  cluesInGrid lvl → reachableOffHead lvl s → isComplete s = settled s.
Proof.
  intros Hclues. induction 1 as [s Hinit|s t s' Hoff IH Hhead Hmove].
  - apply initializeGame_spec in Hinit as (_ & Hpath & _ & -> & _).
    unfold settled. rewrite Hpath.
    by destruct (startOf lvl).
  - pose proof (agreement_off_head _ _ Hoff) as [Hnodup _].
    destruct (reachable_level _ _ (offHead_reachable _ _ Hoff) Hclues) as [Hlevel [_ Hpath]].
    destruct Hclues as (Hr & Hc & _).
    pose proof (path_fits (level s) (currentPath s)) as Hfits.
    rewrite Hlevel in Hfits. specialize (Hfits Hr Hc Hnodup).
    rewrite Hlevel in Hpath. specialize (Hfits Hpath).
    unfold makeMove in Hmove.
    assert (Hext : extendTo s t = Returns s' → isComplete s' = settled s').
    { intros Hext. destruct (isValidMove s t) as [[]|] eqn:Hvalid.
      - destruct (extendTo_accepted _ _ _ Hvalid Hext)
          as (x & g & _ & _ & Hlevel' & _ & Hpath' & Hlast' & ->).
        unfold settled, completeAfter. rewrite Hpath', Hlevel', Hlast', length_app. simpl.
        assert (currentPath s ≠ []).
        { intros Hnil. unfold isValidMove in Hvalid. by rewrite Hnil in Hvalid. }
        assert (0 < length (currentPath s))%nat
          by (destruct (currentPath s); [done | simpl; lia]).
        rewrite (bool_decide_eq_true_2 (1 < _)%nat) by lia. simpl.
        f_equal. apply bool_decide_ext. lia.
      - unfold extendTo in Hext. rewrite Hvalid in Hext. simpl in Hext.
        by injection Hext as <-.
      - unfold extendTo in Hext. by rewrite Hvalid in Hext. }
    destruct (findIndex (currentPath s) t) as [i|] eqn:Hfind; [case_decide as Hi|]; auto.
    apply rewindTo_Returns in Hmove as (Hlevel' & _ & Hpath' & ->).
    unfold settled. rewrite Hpath', Hlevel', Hlevel, length_take.
    symmetry. apply andb_false_intro1, andb_false_intro2.
    apply bool_decide_eq_false_2. lia.
Qed.

Lemma offHead_canonical lvl s0 s :
  cluesInGrid lvl → distinctClues lvl →
  initializeGame lvl = Returns s0 →
  reachableOffHead lvl s → canonical s0 s.
Proof.
  intros Hclues Hdistinct Hs0 Hoff.
  assert (Hshape : level s = level s0 ∧ length (grid s) = length (grid s0) ∧
                   sameClues (grid s0) (grid s)).
  { clear Hdistinct. induction Hoff as [s Hinit|s t s' Hoff IH Hhead Hmove].
    - rewrite Hs0 in Hinit. injection Hinit as <-.
      split_and!; [done | done | apply sameClues_refl].
    - destruct IH as (Hlevel & Hlen & Hsame).
      destruct (makeMove_level_clues _ _ _ Hmove) as [Hlevel' Hsame'].
      split_and!; [congruence | |].
      + rewrite (makeMove_length _ _ _ Hmove). done.
      + by eapply sameClues_trans. }
  destruct Hshape as (? & ? & ?). split_and!; try done.
  - by eapply agreement_off_head.
  - by eapply offHead_recompute.
  - by eapply offHead_settled.
Qed.

Lemma canonical_eq s0 s s' :
  canonical s0 s → canonical s0 s' → currentPath s = currentPath s' → s = s'.
Proof.
  intros (Hlevel & Hlen & Hsame & [_ Hagree] & Hlast & Hdone)
         (Hlevel' & Hlen' & Hsame' & [_ Hagree'] & Hlast' & Hdone') Hpath.
  assert (Hgrid : grid s = grid s').
  { apply grid_ext; [congruence|]. intros r c.
    pose proof (Hsame r c) as Hc. pose proof (Hsame' r c) as Hc'.
    rewrite <- Hc' in Hc. clear Hc'.
    destruct (grid_at (grid s) r c) as [x|] eqn:Hx,
             (grid_at (grid s') r c) as [x'|] eqn:Hx'; try done.
    f_equal. simpl in Hc. injection Hc as Hclue.
    destruct (Hagree _ _ _ Hx) as [Hon Hoff].
    destruct (Hagree' _ _ _ Hx') as [Hon' Hoff'].
    assert (Hvis : visitedOrder x = visitedOrder x').
    { destruct (decide (mkCoordinate r c ∈ currentPath s)) as [Hin|Hout].
      - apply list_elem_of_lookup_1 in Hin as [k Hk].
        rewrite (proj2 (Hon k) Hk).
        rewrite Hpath in Hk. by rewrite (proj2 (Hon' k) Hk).
      - rewrite (Hoff Hout). rewrite Hpath in Hout. by rewrite (Hoff' Hout). }
    unfold clueData in Hclue. destruct x, x'. simpl in *. by simplify_eq. }
  rewrite Hgrid, Hpath, Hlast' in Hlast. injection Hlast as Hlast.
  unfold settled in Hdone, Hdone'.
  rewrite Hpath, Hlevel, <- Hlevel', <- Hlast, <- Hdone' in Hdone.
  destruct s, s'. simpl in *. by subst.
Qed.

(** X22. The state is a function of the path. On a level whose clues
    lie on the grid, on distinct cells, two sessions that never aim at
    the head of the path and end with the same path end in the same
    state: grid, [lastVisitedNumber] and [isComplete] keep no trace of
    the moves and rewinds that led there. *)
Theorem path_determines_state lvl s s' :
  cluesInGrid lvl → distinctClues lvl →
  reachableOffHead lvl s → reachableOffHead lvl s' →
  currentPath s = currentPath s' →
  s = s'.
Proof.
  intros Hclues Hdistinct Hs Hs' Hpath.
  destruct (initializeGame_total lvl Hclues) as [s0 Hs0].
  eapply (canonical_eq s0); [| |done]; by eapply offHead_canonical.
Qed.

(** X23. [isValidMove] tells what [makeMove] does: on a state whose grid
    covers its level, a target that [isValidMove] rejects leaves the
    state as it is, and a target that it accepts changes the path. *)
Theorem isValidMove_decides_makeMove s t :
  wellFormed s →
  (isValidMove s t = Returns false → makeMove s t = Returns s) ∧
  (isValidMove s t = Returns true →
   ∃ s', makeMove s t = Returns s' ∧
         length (currentPath s') ≠ length (currentPath s)).
Proof.
  intros Hwf. split.
  - intros Hinv. apply makeMove_rejected; [|done].
    intros Hin. unfold isValidMove in Hinv.
    destruct (last (currentPath s)) eqn:Hlast.
    + rewrite decide_True in Hinv.
      * destruct (findIndex (currentPath s) t) eqn:Hfind; [discriminate|].
        by apply findIndex_None in Hfind.
      * destruct Hwf as [_ Hpath]. rewrite Forall_forall in Hpath. by apply Hpath.
    + apply last_None in Hlast. rewrite Hlast in Hin. by apply not_elem_of_nil in Hin.
  - intros Hvalid. destruct (makeMove_total s t Hwf) as [s' Hmove].
    exists s'. split; [done|]. unfold makeMove in Hmove.
    assert (Hext : extendTo s t = Returns s' →
                   length (currentPath s') ≠ length (currentPath s)).
    { intros Hext.
      destruct (extendTo_accepted _ _ _ Hvalid Hext) as (_ & _ & _ & _ & _ & _ & -> & _).
      rewrite length_app. simpl. lia. }
    destruct (findIndex (currentPath s) t) as [i|] eqn:Hfind; [case_decide as Hi|]; auto.
    apply rewindTo_Returns in Hmove as (_ & _ & -> & _).
    rewrite length_take. lia.
Qed.

(** X24. A session that never aims at the head of the path is sound: on
    a level whose clues lie on the grid, every state it reaches keeps
    the level, has a grid that covers the level and a path on the
    grid, has grid and path in agreement (the cell at index [k] of the
    path, and no other, carries the order [k + 1], and the path has no
    cell twice), and no call of [makeMove] on it throws. *)
Theorem off_head_session_sound lvl s :
  cluesInGrid lvl →
  reachableOffHead lvl s →
  level s = lvl ∧ wellFormed s ∧ gridPathAgree s ∧
  ∀ t, ∃ s', makeMove s t = Returns s'.
Proof.
  intros Hclues Hoff.
  destruct (reachable_level _ _ (offHead_reachable _ _ Hoff) Hclues) as [Hlevel Hwf].
  split_and!; [done | done | by eapply agreement_off_head |].
  intros t. by apply makeMove_total.
Qed.

(** * Further properties of the solvability check *)

(** ** The wall test of the check *)

Lemma wallBlocks_orthogonal a b w :
  manhattan a b = 1 → wallBlocks a b w = wallBetween a b w.
Proof.
  unfold manhattan, wallBlocks, wallBetween. intros Hd. apply eq_true_iff_eq.
  destruct (orientation w);
    rewrite !andb_true_iff, ?orb_true_iff, !bool_decide_eq_true; lia.
Qed.

Lemma wallBlocks_diagonal a b w :
  row b ≠ row a → col b ≠ col a → wallBlocks a b w = false.
Proof.
  unfold wallBlocks. intros Hr Hc. apply not_true_is_false.
  destruct (orientation w);
    rewrite !andb_true_iff, !bool_decide_eq_true; lia.
Qed.

(** X7. The wall test of the solvability check against the wall test
    of the game: on orthogonal neighbours [isBlocked] and [hasWall]
    agree, and [isBlocked] never blocks a step that changes both the
    row and the column. *)
Theorem isBlocked_on_steps walls a b :
  (manhattan a b = 1 → isBlocked walls a b = hasWall walls a b) ∧
  (row b ≠ row a → col b ≠ col a → isBlocked walls a b = false).
Proof.
  unfold isBlocked, hasWall. split.
  - intros Hd. induction walls as [|w ws IH]; simpl; [done|].
    by rewrite IH, wallBlocks_orthogonal.
  - intros Hr Hc. induction walls as [|w ws IH]; simpl; [done|].
    by rewrite IH, wallBlocks_diagonal.
Qed.

(** ** The breadth-first search *)

Lemma linked_snoc {A} (R : A → A → Prop) l a b :
  linked R l → last l = Some a → R a b → linked R (l ++ [b]).
Proof.
  induction l as [|x [|y l] IH]; simpl; [done | |].
  - intros _ [= ->] HR. done.
  - intros [Hxy Hl] Hlast HR. split; [done|]. by apply IH.
Qed.

Lemma step_king a dir : dir ∈ DIRECTIONS →
  Z.max (Z.abs (row (step a dir) - row a)) (Z.abs (col (step a dir) - col a)) = 1.
Proof.
  unfold DIRECTIONS. rewrite !elem_of_cons, elem_of_nil.
  intros Hd. repeat (destruct Hd as [Hd|Hd]; [subst dir; simpl; lia|]). done.
Qed.

Lemma king_step a b :
  Z.max (Z.abs (row b - row a)) (Z.abs (col b - col a)) = 1 →
  ∃ dir, dir ∈ DIRECTIONS ∧ b = step a dir.
Proof.
  intros Hk. exists (mkCoordinate (row b - row a) (col b - col a)). split.
  - assert (Hr : row b - row a = -1 ∨ row b - row a = 0 ∨ row b - row a = 1) by lia.
    assert (Hc : col b - col a = -1 ∨ col b - col a = 0 ∨ col b - col a = 1) by lia.
    unfold DIRECTIONS. rewrite !elem_of_cons.
    destruct Hr as [Hr|[Hr|Hr]], Hc as [Hc|[Hc|Hc]]; rewrite Hr, Hc in *;
      try tauto.
    simpl in Hk. lia.
  - unfold step. destruct b. simpl. f_equal; lia.
Qed.

Section search_facts.
Context (level : Level) (start goal : Coordinate) (visited : gset (Z * Z)).
#[local] Abbreviation trail := (trail level start visited).
#[local] Abbreviation explored := (explored level goal visited).

Lemma trail_mono lv lv' item : lv ⊆ lv' → trail lv item → trail lv' item.
Proof.
  intros Hsub (? & ? & ? & ? & Hin). split_and!; try done.
  intros q Hq. apply Hsub. by apply Hin.
Qed.

Lemma visit_grows item st dir : st.2 ⊆ (visit level visited item st dir).2.
Proof.
  destruct (visit_cases level visited item st dir) as [->|(_ & _ & _ & _ & ->)];
    [done | simpl; set_solver].
Qed.

Lemma visits_grow item dirs : ∀ st, st.2 ⊆ (foldl (visit level visited item) st dirs).2.
Proof.
  induction dirs as [|dir dirs IH]; simpl; intros st; [done|].
  etrans; [apply visit_grows | apply IH].
Qed.

Lemma visit_trail item st dir :
  dir ∈ DIRECTIONS →
  trail st.2 item →
  Forall (trail st.2) st.1 →
  Forall (trail (visit level visited item st dir).2) (visit level visited item st dir).1.
Proof.
  intros Hdir Hitem Hst.
  destruct (visit_cases level visited item st dir)
    as [->|(Hin & Hnew & Hnv & Hwall & ->)]; [done|].
  simpl. apply Forall_app. split.
  - eapply Forall_impl; [exact Hst|]. intros it. apply trail_mono. set_solver.
  - apply Forall_singleton.
    destruct Hitem as ([body Hbody] & Hlast & Hlinked & Hnodup & Hkeys).
    split_and!; simpl.
    + exists (body ++ [step (pos item) dir]). by rewrite Hbody.
    + apply last_snoc.
    + eapply linked_snoc; [done | done |].
      split_and!; try done. by apply step_king.
    + apply NoDup_app. split_and!; [done | | apply NoDup_singleton].
      intros q Hq ->%list_elem_of_singleton. by apply Hnew, Hkeys.
    + intros q [Hq| ->%list_elem_of_singleton]%elem_of_app; [|set_solver].
      apply elem_of_union_r. by apply Hkeys.
Qed.

Lemma visits_trail item dirs : ∀ st,
  dirs ⊆ DIRECTIONS →
  trail st.2 item →
  Forall (trail st.2) st.1 →
  Forall (trail (foldl (visit level visited item) st dirs).2)
         (foldl (visit level visited item) st dirs).1.
Proof.
  induction dirs as [|dir dirs IH]; simpl; intros st Hdirs Hitem Hst; [done|].
  apply IH.
  - set_solver.
  - eapply trail_mono; [apply visit_grows | done].
  - apply visit_trail; [set_solver | done | done].
Qed.

Lemma bfs_sound fuel : ∀ queue localVisited p,
  Forall (trail localVisited) queue →
  bfs level goal visited fuel queue localVisited = Found p →
  (∃ body, p = start :: body) ∧ last p = Some goal ∧
  linked (kingStep level visited) p ∧ NoDup p.
Proof.
  induction fuel as [|fuel IH]; intros queue localVisited p Hq; [done|].
  rewrite bfs_S. destruct queue as [|item rest]; [done|].
  apply Forall_cons in Hq as [Hitem Hrest].
  case_decide as Hgoal.
  - intros [= <-]. destruct Hitem as (? & Hlast & ? & ? & _).
    apply coordinate_eq in Hgoal. by rewrite Hgoal in Hlast.
  - apply IH. apply visits_trail; [done | | done].
    simpl. done.
Qed.

Lemma visits_reach item dirs : ∀ st dir,
  dir ∈ dirs →
  kingStep level visited (pos item) (step (pos item) dir) →
  key (step (pos item) dir) ∈ (foldl (visit level visited item) st dirs).2.
Proof.
  induction dirs as [|d dirs IH]; simpl; intros st dir Hdir Hstep.
  - by apply elem_of_nil in Hdir.
  - apply elem_of_cons in Hdir as [->|Hdir]; [|by apply IH].
    apply visits_grow.
    destruct Hstep as (_ & Hin & Hnv & Hwall).
    unfold visit. rewrite (bool_decide_eq_true_2 _ Hin), (bool_decide_eq_true_2 _ Hnv), Hwall.
    simpl. case_bool_decide as Hnew; simpl; [set_solver | done].
Qed.

Lemma visits_queue (item : QueueItem) (dirs : list Coordinate)
    (processed : gset (Z * Z)) : ∀ st,
  (∀ k, k ∈ st.2 → k ∈ processed ∨ ∃ it, it ∈ st.1 ∧ key (pos it) = k) →
  ∀ k, k ∈ (foldl (visit level visited item) st dirs).2 →
       k ∈ processed ∨
       ∃ it, it ∈ (foldl (visit level visited item) st dirs).1 ∧ key (pos it) = k.
Proof.
  induction dirs as [|d dirs IH]; simpl; intros st Hst; [done|].
  apply IH.
  destruct (visit_cases level visited item st d) as [->|(_ & _ & _ & _ & ->)]; [done|].
  simpl. intros k [->%elem_of_singleton|Hk]%elem_of_union.
  - right. eexists. split; [apply elem_of_app; right; by left | done].
  - destruct (Hst k Hk) as [?|(it & Hit & ?)]; [by left|].
    right. exists it. split; [|done]. apply elem_of_app. by left.
Qed.

Lemma explored_step (item : QueueItem) (rest : list QueueItem)
    (localVisited processed : gset (Z * Z)) :
  ¬ (row (pos item) = row goal ∧ col (pos item) = col goal) →
  explored (item :: rest) localVisited processed →
  explored (foldl (visit level visited item) (rest, localVisited) DIRECTIONS).1
           (foldl (visit level visited item) (rest, localVisited) DIRECTIONS).2
           ({[key (pos item)]} ∪ processed).
Proof.
  intros Hgoal (Hcover & Hclosed & Hfresh). split_and!.
  - apply visits_queue. simpl. intros k Hk.
    destruct (Hcover k Hk) as [?|(it & [->|Hit]%elem_of_cons & Hkey)].
    + left. set_solver.
    + left. set_solver.
    + right. by exists it.
  - intros a b [Ha%elem_of_singleton|Ha]%elem_of_union Hstep.
    + apply key_inj in Ha. subst a.
      destruct Hstep as (Hking & Hrest).
      destruct (king_step _ _ Hking) as (dir & Hdir & ->).
      apply visits_reach; [done|]. by split.
    + apply visits_grow. simpl. by eapply Hclosed.
  - intros [Hk%elem_of_singleton|?]%elem_of_union; [|done].
    apply key_inj in Hk. apply Hgoal. by rewrite Hk.
Qed.

Lemma bfs_complete fuel : ∀ queue localVisited processed,
  explored queue localVisited processed →
  key start ∈ localVisited →
  bfs level goal visited fuel queue localVisited = NoPath →
  ¬ kingWalk level visited start goal.
Proof.
  induction fuel as [|fuel IH]; intros queue localVisited processed Hexp Hstart; [done|].
  rewrite bfs_S. destruct queue as [|item rest].
  - intros _ Hwalk. destruct Hexp as (Hcover & Hclosed & Hfresh).
    assert (Hall : ∀ k, k ∈ localVisited → k ∈ processed).
    { intros k Hk. destruct (Hcover k Hk) as [?|(it & Hit & _)]; [done|].
      by apply elem_of_nil in Hit. }
    assert (Hclosure : ∀ a c, kingWalk level visited a c →
                              key a ∈ processed → key c ∈ processed).
    { induction 1 as [a|a b c Hstep _ IHw]; [done|].
      intros Ha. apply IHw, Hall. by eapply Hclosed. }
    apply Hfresh. eapply Hclosure; [exact Hwalk|]. by apply Hall.
  - case_decide as Hgoal; [done|].
    apply (IH _ _ ({[key (pos item)]} ∪ processed)).
    + by apply explored_step.
    + by apply visits_grow.
Qed.
End search_facts.

Lemma linked_walk level visited p a b :
  linked (kingStep level visited) p →
  head p = Some a → last p = Some b →
  kingWalk level visited a b.
Proof.
  revert a. induction p as [|x [|y p] IH]; intros a; simpl; [done | |].
  - intros _ [= ->] [= ->]. constructor.
  - intros [Hxy Hl] [= ->] Hlast. econstructor; [exact Hxy|]. by apply IH.
Qed.

Lemma findPath_start_state level start goal visited :
  Forall (trail level start visited {[key start]}) [mkItem start [start]] ∧
  explored level goal visited [mkItem start [start]] {[key start]} ∅.
Proof.
  split.
  - apply Forall_singleton. split_and!; simpl; try done.
    + by exists [].
    + apply NoDup_singleton.
    + intros q ->%list_elem_of_singleton. set_solver.
  - split_and!; [| set_solver | set_solver].
    intros k ->%elem_of_singleton. right. eexists. split; [by left | done].
Qed.

Lemma findPath_Some level start goal visited p :
  findPath level start goal visited = Some p →
  bfs level goal visited (bfsFuel level) [mkItem start [start]] {[key start]} = Found p.
Proof.
  unfold findPath. destruct (bfs _ _ _ _ _ _); [|done..]. by intros [= ->].
Qed.

(** X8. A path that [findPath] returns starts at [start], ends at the
    goal, visits no cell twice, and each of its steps goes to one of
    the eight neighbours, onto the grid, onto a cell outside
    [visited], and is not blocked. *)
Theorem findPath_sound level start goal visited p :
  findPath level start goal visited = Some p →
  head p = Some start ∧ last p = Some goal ∧
  linked (kingStep level visited) p ∧ NoDup p.
Proof.
  intros Hbfs%findPath_Some.
  destruct (findPath_start_state level start goal visited) as [Htrail _].
  destruct (bfs_sound level start goal visited _ _ _ _ Htrail Hbfs)
    as ([body ->] & ? & ? & ?).
  done.
Qed.

(** X9. [findPath] returns a path exactly when the goal can be reached
    from [start] by such steps: the breadth-first search misses no
    walk, and the budget of the model is never the reason for [None]. *)
Theorem findPath_finds level start goal visited :
  is_Some (findPath level start goal visited) ↔ kingWalk level visited start goal.
Proof.
  split.
  - intros [p Hbfs%findPath_Some].
    destruct (findPath_start_state level start goal visited) as [Htrail _].
    destruct (bfs_sound level start goal visited _ _ _ _ Htrail Hbfs)
      as ([body ->] & ? & ? & ?).
    by eapply linked_walk.
  - intros Hwalk. apply not_eq_None_Some. intros Hnone.
    apply findPath_None in Hnone.
    destruct (findPath_start_state level start goal visited) as [_ Hexp].
    assert (Hstart : key start ∈ ({[key start]} : gset (Z * Z)))
      by (apply elem_of_singleton; reflexivity).
    exact (bfs_complete level start goal visited (bfsFuel level)
             [mkItem start [start]] {[key start]} ∅ Hexp Hstart Hnone Hwalk).
Qed.

(** ** The clue numbers *)

Lemma numberPositionsOf_Some ivs i p :
  numberPositionsOf ivs !! i = Some p →
  ∃ iv, iv ∈ ivs ∧ clue_value iv = i ∧ p = mkCoordinate (clue_row iv) (clue_col iv).
Proof.
  unfold numberPositionsOf.
  assert (Hgen : ∀ (m : gmap Z Coordinate),
    foldl (λ m iv, <[clue_value iv := mkCoordinate (clue_row iv) (clue_col iv)]> m) m ivs
      !! i = Some p →
    m !! i = Some p ∨
    ∃ iv, iv ∈ ivs ∧ clue_value iv = i ∧ p = mkCoordinate (clue_row iv) (clue_col iv)).
  { induction ivs as [|iv ivs IH]; simpl; intros m Hm; [by left|].
    destruct (IH _ Hm) as [Hin|(iv' & ? & ? & ?)].
    - destruct (decide (clue_value iv = i)) as [Heq|Hne].
      + rewrite Heq, lookup_insert_eq in Hin. injection Hin as <-.
        right. exists iv. split; [by left | done].
      + rewrite lookup_insert_ne in Hin by done. by left.
    - right. exists iv'. split; [by right | done]. }
  intros Hp. destruct (Hgen ∅ Hp) as [Hempty|?]; [|done].
  by rewrite lookup_empty in Hempty.
Qed.

Lemma connectClues_numbers level (np : gmap Z Coordinate) n : ∀ i visited r,
  connectClues level np n i visited = Returns (Some r) →
  ∀ j, i ≤ j < i + Z.of_nat n → is_Some (np !! j).
Proof.
  induction n as [|n IH]; intros i visited r; cbn [connectClues]; [lia|].
  intros (currentPos & Hcur%unwrap_Returns & H)%bind_Returns j Hj.
  destruct (decide (j = i)) as [->|Hne]; [by eauto|].
  case_decide.
  - apply bind_Returns in H as (prevPos & _ & H).
    destruct (findPath _ _ _ _); [|done]. eapply IH; [exact H | lia].
  - eapply IH; [exact H | lia].
Qed.

(** X10. Without clues [isPuzzleSolvable] accepts every level of
    non-negative size; and a level that it accepts lists a clue for
    every number from 1 to its largest clue value. *)
Theorem isPuzzleSolvable_clue_numbers level :
  (initialValues level = [] →
   isPuzzleSolvable level = Returns (bool_decide (0 ≤ rows level * cols level))) ∧
  (isPuzzleSolvable level = Returns true →
   ∀ m i, math_max (clue_value <$> initialValues level) = Some m →
          1 ≤ i ≤ m →
          ∃ iv, iv ∈ initialValues level ∧ clue_value iv = i).
Proof.
  split.
  - intros Hnil. unfold isPuzzleSolvable, segmentsOf. rewrite Hnil.
    cbn [fmap list_fmap math_max turns connectClues mbind outcome_bind].
    by rewrite size_empty.
  - unfold isPuzzleSolvable. intros ([r|] & Hseg & Hres)%bind_Returns; [|discriminate].
    intros m i Hmax Hi. unfold segmentsOf in Hseg. rewrite Hmax in Hseg. simpl in Hseg.
    destruct (connectClues_numbers _ _ _ _ _ _ Hseg i) as [p Hp]; [lia|].
    apply numberPositionsOf_Some in Hp as (iv & ? & ? & _). eauto.
Qed.

(** ** When the check throws *)

Lemma numberPositionsOf_None ivs i :
  numberPositionsOf ivs !! i = None → ∀ iv, iv ∈ ivs → clue_value iv ≠ i.
Proof.
  unfold numberPositionsOf.
  assert (Hgen : ∀ (m : gmap Z Coordinate),
    foldl (λ m iv, <[clue_value iv := mkCoordinate (clue_row iv) (clue_col iv)]> m) m ivs
      !! i = None →
    m !! i = None ∧ ∀ iv, iv ∈ ivs → clue_value iv ≠ i).
  { induction ivs as [|iv ivs IH]; simpl; intros m Hm.
    - split; [done|]. intros iv Hiv. by apply elem_of_nil in Hiv.
    - destruct (IH _ Hm) as [Hin Hrest].
      apply lookup_insert_None in Hin as [Hm' Hne]. split; [done|].
      intros iv' [->|Hiv']%elem_of_cons; [done | by apply Hrest]. }
  intros Hnone. by apply (Hgen ∅).
Qed.

Lemma connectClues_Throws level (np : gmap Z Coordinate) n : ∀ i visited,
  1 ≤ i →
  connectClues level np n i visited = Throws →
  ∃ j, 1 ≤ j < i + Z.of_nat n ∧ np !! j = None.
Proof.
  induction n as [|n IH]; intros i visited Hi; cbn [connectClues]; [done|].
  destruct (np !! i) as [cur|] eqn:Hcur; simpl.
  2:{ intros _. exists i. split; [lia | done]. }
  assert (Hrest : ∀ v, connectClues level np n (i + 1) v = Throws →
    ∃ j, 1 ≤ j < i + Z.of_nat (S n) ∧ np !! j = None).
  { intros v (j & Hj & Hnone)%IH; [|lia]. exists j. split; [lia | done]. }
  case_decide as Hone.
  - destruct (np !! (i - 1)) as [prev|] eqn:Hprev; simpl.
    2:{ intros _. exists (i - 1). split; [lia | done]. }
    destruct (findPath level prev cur visited); [apply Hrest | done].
  - apply Hrest.
Qed.

(** X26. [isPuzzleSolvable] throws only on a level whose clue numbers
    have a gap: some number between 1 and the largest clue value is
    the value of no clue. *)
Theorem isPuzzleSolvable_throws level :
  isPuzzleSolvable level = Throws →
  ∃ m i,
    math_max (clue_value <$> initialValues level) = Some m ∧
    1 ≤ i ≤ m ∧
    ∀ iv, iv ∈ initialValues level → clue_value iv ≠ i.
Proof.
  unfold isPuzzleSolvable.
  destruct (segmentsOf level) as [[visited|]|] eqn:Hsegments; [done | done |].
  intros _. unfold segmentsOf in Hsegments.
  destruct (math_max (clue_value <$> initialValues level)) as [m|]; [|done].
  cbn [turns] in Hsegments.
  apply connectClues_Throws in Hsegments as (j & Hj & Hnone); [|lia].
  exists m, j. split; [done|]. split; [lia|].
  by apply numberPositionsOf_None.
Qed.

(** * Further properties of the generator *)

(** ** The walls *)

Lemma proposeWall_Some rows cols path walls inside w rnd walls' rnd' :
  proposeWall rows cols path walls inside w rnd = Some (walls', rnd') →
  walls' = walls ∨
  (inside = true ∧ isWallBlocking path w = false ∧ walls' = walls ++ [w]).
Proof.
  unfold proposeWall. destruct inside; [|intros [= <- _]; by left].
  intros (coin & rnd1 & _ & H)%gbind_Some. injection H as <- _.
  destruct coin; [|by left]. simpl.
  destruct (isWallBlocking path w) eqn:Hb; simpl; [by left | by right].
Qed.

Lemma placeWalls_Some rows cols path cells : ∀ walls rnd ws rnd',
  placeWalls rows cols path cells walls rnd = Some (ws, rnd') →
  ∀ w, w ∈ ws →
    w ∈ walls ∨
    (isWallBlocking path w = false ∧ (wall_row w, wall_col w) ∈ cells ∧
     match orientation w with
     | horizontal => wall_row w < rows - 1
     | vertical => wall_col w < cols - 1
     end).
Proof.
  induction cells as [|[r c] cells IH]; intros walls rnd ws rnd'; cbn [placeWalls].
  - intros [= <- _] w Hw. by left.
  - intros (walls1 & rnd1 & H1%proposeWall_Some &
            (walls2 & rnd2 & H2%proposeWall_Some & Hrest)%gbind_Some)%gbind_Some w Hw.
    destruct (IH _ _ _ _ Hrest w Hw) as [Hin|(? & ? & ?)].
    2:{ right. split_and!; [done | by right | done]. }
    assert (Hw2 : w ∈ walls1 ∨
      (isWallBlocking path w = false ∧ w = mkWall r c vertical ∧ c < cols - 1)).
    { destruct H2 as [->|(Hins%bool_decide_eq_true & Hb & ->)]; [by left|].
      apply elem_of_app in Hin as [?| ->%list_elem_of_singleton]; [by left|].
      by right. }
    destruct Hw2 as [Hin1|(? & -> & ?)].
    2:{ right. simpl. split_and!; [done | by left | done]. }
    destruct H1 as [->|(Hins%bool_decide_eq_true & Hb & ->)]; [by left|].
    apply elem_of_app in Hin1 as [?| ->%list_elem_of_singleton]; [by left|].
    right. simpl. split_and!; [done | by left | done].
Qed.

Lemma isWallBlocking_edge path w i u v :
  isWallBlocking path w = false →
  path !! i = Some u → path !! S i = Some v →
  wallBetween u v w = false.
Proof.
  unfold isWallBlocking. intros Hb Hu Hv.
  apply not_true_is_false. intros Hw.
  assert (Hex : existsb (λ uv, wallBetween uv.1 uv.2 w) (zip path (tail path)) = true);
    [|by rewrite Hb in Hex].
  apply existsb_exists. exists (u, v). split; [|done].
  apply list_elem_of_In, list_elem_of_lookup. exists i.
  apply lookup_zip_with_Some. exists u, v. split_and!; [done | done |].
  by rewrite lookup_tail.
Qed.

Lemma placeWalls_spec rows cols path rnd ws rnd' :
  placeWalls rows cols path (allCells rows cols) [] rnd = Some (ws, rnd') →
  Forall (wallFits rows cols) ws ∧
  ∀ i u v, path !! i = Some u → path !! S i = Some v →
           hasWall ws u v = false ∧ hasWall ws v u = false.
Proof.
  intros Hplace.
  assert (Hall : ∀ w, w ∈ ws →
    isWallBlocking path w = false ∧ wallFits rows cols w).
  { intros w Hw.
    destruct (placeWalls_Some _ _ _ _ _ _ _ _ Hplace w Hw)
      as [Hnil|(Hb & Hcell%elem_of_allCells & Hside)].
    - by apply elem_of_nil in Hnil.
    - split; [done|]. simpl in Hcell. destruct Hcell as (? & ? & ? & ?).
      unfold wallFits. by split_and!. }
  split.
  - apply Forall_forall. intros w Hw. by apply Hall.
  - intros i u v Hu Hv.
    assert (Huv : hasWall ws u v = false).
    { unfold hasWall. apply not_true_is_false.
      intros (w & Hw%list_elem_of_In & Hbetween)%existsb_exists.
      destruct (Hall w Hw) as [Hb _].
      by rewrite (isWallBlocking_edge _ _ _ _ _ Hb Hu Hv) in Hbetween. }
    split; [done|]. by rewrite hasWall_sym.
Qed.

(** X14. The walls that the wall loops of [generateLevel] place: each
    wall lies on the grid and has a cell on its far side, and no wall
    lies between two consecutive cells of the Hamiltonian path, in
    either direction of [hasWall]. *)
Theorem walls_spare_path rows cols path rnd ws rnd' :
  placeWalls rows cols path (allCells rows cols) [] rnd = Some (ws, rnd') →
  Forall (wallFits rows cols) ws ∧
  ∀ i u v, path !! i = Some u → path !! S i = Some v →
           hasWall ws u v = false ∧ hasWall ws v u = false.
Proof. apply placeWalls_spec. Qed.

(** ** The Hamiltonian path *)

Lemma drawShuffle_Some rnd dirs rnd' :
  drawShuffle rnd = Some (dirs, rnd') → shuffles rnd = dirs :: shuffles rnd'.
Proof.
  unfold drawShuffle. destruct (shuffles rnd) as [|y t]; [done|]. by intros [= -> <-].
Qed.

Lemma drawPick_shuffles rnd x rnd' :
  drawPick rnd = Some (x, rnd') → shuffles rnd' = shuffles rnd.
Proof.
  unfold drawPick. destruct (picks rnd) as [|y t]; [done|]. by intros [= _ <-].
Qed.

Lemma linked_impl {A} (R R' : A → A → Prop) l :
  (∀ a b, R a b → R' a b) → linked R l → linked R' l.
Proof.
  intros HR. induction l as [|x [|y l] IH]; simpl; [done | done |].
  intros [? ?]. split; [by apply HR | by apply IH].
Qed.

Section dfs_facts.
Context (rows cols : Z) (allowed : list Coordinate).

#[local] Abbreviation onTrack := (onTrack rows cols allowed).
#[local] Abbreviation hamiltonian := (hamiltonian rows cols allowed).
#[local] Abbreviation descends := (descends rows cols allowed).

Lemma tryDirs_descends descend current visited path dirs :
  descends descend →
  dirs ⊆ allowed →
  onTrack visited path current →
  ∀ rnd res rnd',
    tryDirs rows cols descend current visited path dirs rnd = Some (res, rnd') →
    drawnFrom allowed rnd →
    drawnFrom allowed rnd' ∧
    ∀ p, res = Some p → hamiltonian p ∧ path `prefix_of` p.
Proof.
  intros Hdescend Hdirs Htrack.
  induction dirs as [|dir dirs IH]; intros rnd res rnd'; cbn [tryDirs].
  - intros [= <- <-] Hrnd. split; [done|]. by intros p [=].
  - assert (Hrest : dirs ⊆ allowed) by set_solver.
    destruct (bool_decide (inBounds rows cols (step current dir))) eqn:Hin;
      [|by apply IH].
    destruct (bool_decide (key (step current dir) ∉ visited)) eqn:Hnew;
      [|by apply IH].
    cbn [andb]. apply bool_decide_eq_true in Hin, Hnew.
    intros ([q|] & rnd1 & Hrec & H)%gbind_Some Hrnd.
    + injection H as <- <-.
      destruct Htrack as (Hnodup & Hkeys & Hlast & Hlinked).
      destruct (Hdescend _ _ _ _ _ _ Hrec Hrnd) as [Hrnd1 Hq].
      { split_and!.
        - apply NoDup_app. split_and!; [done | | apply NoDup_singleton].
          intros x Hx ->%list_elem_of_singleton. by apply Hnew, Hkeys.
        - intros x [Hx| ->%list_elem_of_singleton]%elem_of_app; [|set_solver].
          apply elem_of_union_r. by apply Hkeys.
        - apply last_snoc.
        - eapply linked_snoc; [done | done |]. split; [done|].
          exists dir. split; [set_solver | done]. }
      split; [done|]. intros p [= <-]. destruct (Hq q eq_refl) as [? Hpre].
      split; [done|]. etrans; [|exact Hpre]. by apply prefix_app_r.
    + destruct (Hdescend _ _ _ _ _ _ Hrec Hrnd) as [Hrnd1 _].
      { destruct Htrack as (Hnodup & Hkeys & Hlast & Hlinked). split_and!.
        - apply NoDup_app. split_and!; [done | | apply NoDup_singleton].
          intros x Hx ->%list_elem_of_singleton. by apply Hnew, Hkeys.
        - intros x [Hx| ->%list_elem_of_singleton]%elem_of_app; [|set_solver].
          apply elem_of_union_r. by apply Hkeys.
        - apply last_snoc.
        - eapply linked_snoc; [done | done |]. split; [done|].
          exists dir. split; [set_solver | done]. }
      by eapply IH.
Qed.

Lemma dfs_descends fuel : descends (dfs rows cols fuel).
Proof.
  induction fuel as [|fuel IH]; intros current visited path rnd res rnd';
    cbn [dfs]; [done|].
  case_decide as Hlen.
  - intros [= <- <-] Hrnd (Hnodup & _ & _ & Hlinked). split; [done|].
    intros p [= <-]. by split.
  - intros (dirs & rnd1 & Hdraw%drawShuffle_Some & H)%gbind_Some Hrnd Htrack.
    unfold drawnFrom in Hrnd. rewrite Hdraw in Hrnd.
    apply Forall_cons in Hrnd as [Hdirs Hrnd1].
    by eapply (tryDirs_descends _ _ _ _ dirs IH Hdirs Htrack).
Qed.
End dfs_facts.

Lemma generateHamiltonianPath_Some rows cols allowed rnd p rnd' :
  generateHamiltonianPath rows cols rnd = Some (Some p, rnd') →
  drawnFrom allowed rnd →
  ∃ r c t, picks rnd = r :: c :: t ∧
    head p = Some (mkCoordinate r c) ∧
    hamiltonian rows cols allowed p.
Proof.
  unfold generateHamiltonianPath.
  intros (r & rnd1 & Hr & (c & rnd2 & Hc & H)%gbind_Some)%gbind_Some Hrnd.
  assert (Hrnd2 : drawnFrom allowed rnd2).
  { unfold drawnFrom.
    by rewrite (drawPick_shuffles _ _ _ Hc), (drawPick_shuffles _ _ _ Hr). }
  destruct (dfs_descends rows cols allowed _ _ _ _ _ _ _ H Hrnd2) as [_ Hp].
  { split_and!; simpl; try done.
    - apply NoDup_singleton.
    - intros q ->%list_elem_of_singleton. set_solver. }
  destruct (Hp p eq_refl) as [Hham [body ->]].
  exists r, c, (picks rnd2). split_and!; [|done|done].
  apply drawPick_Some in Hr, Hc. by rewrite Hr, Hc.
Qed.

Lemma drawnFrom_concat rnd : drawnFrom (concat (shuffles rnd)) rnd.
Proof.
  unfold drawnFrom. apply Forall_forall. intros dirs Hdirs d Hd.
  apply list_elem_of_In, in_concat. exists dirs. by rewrite <- !list_elem_of_In.
Qed.

Lemma generateHamiltonianPath_spec rows cols rnd p rnd' :
  generateHamiltonianPath rows cols rnd = Some (Some p, rnd') →
  (∀ r c t, picks rnd = r :: c :: t → inBounds rows cols (mkCoordinate r c)) →
  NoDup p ∧
  Z.of_nat (length p) = rows * cols ∧
  (∀ q, q ∈ p ↔ inBounds rows cols q) ∧
  (drawnFrom (take 4 DIRECTIONS) rnd → linked (λ a b, manhattan a b = 1) p).
Proof.
  intros Hgen Hstart.
  destruct (generateHamiltonianPath_Some _ _ _ _ _ _ Hgen (drawnFrom_concat rnd))
    as (r & c & t & Hpicks & Hhead & Hnodup & _ & Hlen).
  pose proof (generateHamiltonianPath_onGrid _ _ _ _ _ Hstart Hgen) as Hgrid.
  pose proof (Hstart _ _ _ Hpicks) as (? & ? & ? & ?). simpl in *.
  split_and!; [done | done | |].
  - intros q. split.
    + intros Hq. rewrite Forall_forall in Hgrid. by apply Hgrid.
    + apply (full_path_covers (mkLevel "" rows cols [] [])); simpl; try done; lia.
  - intros Hortho.
    destruct (generateHamiltonianPath_Some _ _ _ _ _ _ Hgen Hortho)
      as (_ & _ & _ & _ & _ & _ & Hlinked & _).
    eapply linked_impl; [|exact Hlinked].
    intros a b (_ & dir & Hdir & ->). unfold manhattan, step. simpl.
    unfold DIRECTIONS in Hdir. simpl in Hdir.
    rewrite !elem_of_cons, elem_of_nil in Hdir.
    destruct Hdir as [Hd|[Hd|[Hd|[Hd|[]]]]]; subst dir; simpl; lia.
Qed.

(** X12. A path that [generateHamiltonianPath] returns, when the start
    cell it drew lies on the grid: no cell twice, [rows * cols] cells,
    exactly the cells of the grid; and when every shuffle holds
    orthogonal directions only, consecutive cells are orthogonal
    neighbours. *)
Theorem hamiltonian_path rows cols rnd p rnd' :
  generateHamiltonianPath rows cols rnd = Some (Some p, rnd') →
  (∀ r c t, picks rnd = r :: c :: t → inBounds rows cols (mkCoordinate r c)) →
  NoDup p ∧
  Z.of_nat (length p) = rows * cols ∧
  (∀ q, q ∈ p ↔ inBounds rows cols q) ∧
  (drawnFrom (take 4 DIRECTIONS) rnd → linked (λ a b, manhattan a b = 1) p).
Proof. apply generateHamiltonianPath_spec. Qed.

(** ** The clues *)

Lemma sortedIndicesOf_elem_of marks x : x ∈ sortedIndicesOf marks ↔ x ∈ marks.
Proof.
  unfold sortedIndicesOf. rewrite merge_sort_Permutation. apply elem_of_elements.
Qed.

Lemma sortedIndicesOf_NoDup marks : NoDup (sortedIndicesOf marks).
Proof.
  unfold sortedIndicesOf. rewrite merge_sort_Permutation. apply NoDup_elements.
Qed.

Lemma sortedIndicesOf_length marks : length (sortedIndicesOf marks) = size marks.
Proof. unfold sortedIndicesOf. by rewrite merge_sort_Permutation. Qed.

Lemma sortedIndicesOf_sorted marks : StronglySorted Z.le (sortedIndicesOf marks).
Proof. apply StronglySorted_merge_sort; apply _. Qed.

Lemma sortedIndicesOf_zero marks :
  0 ∈ marks → (∀ x, x ∈ marks → 0 ≤ x) →
  ∃ rest, sortedIndicesOf marks = 0 :: rest ∧ ∀ x, x ∈ rest → 0 < x.
Proof.
  intros Hzero Hnonneg.
  pose proof (sortedIndicesOf_sorted marks) as Hsorted.
  pose proof (sortedIndicesOf_NoDup marks) as Hnodup.
  pose proof (sortedIndicesOf_elem_of marks) as Hin.
  destruct (sortedIndicesOf marks) as [|h rest].
  - apply Hin in Hzero. by apply elem_of_nil in Hzero.
  - apply StronglySorted_inv in Hsorted as [_ Hle].
    apply NoDup_cons in Hnodup as [Hnotin _].
    rewrite Forall_forall in Hle.
    assert (h = 0) as ->.
    { assert (0 ≤ h) by (apply Hnonneg, Hin; by left).
      apply Hin, elem_of_cons in Hzero as [?|Hz]; [done|].
      specialize (Hle 0 Hz). lia. }
    exists rest. split; [done|]. intros x Hx.
    assert (0 ≤ x) by (apply Hnonneg, Hin; by right).
    assert (x ≠ 0) by (intros ->; done). lia.
Qed.

Lemma pushClues_Returns path l : ∀ i ivs,
  pushClues path i l = Returns ivs →
  (∀ x, x ∈ l → x ≠ 0) →
  clue_value <$> ivs = seqZ (i + 1) (Z.of_nat (length l)) ∧
  Forall2 (λ iv x, at_index path x = Some (clueCell iv)) ivs l.
Proof.
  induction l as [|x l IH]; intros i ivs; cbn [pushClues].
  - intros [= <-] _. split; [done | constructor].
  - intros H Hnz. rewrite decide_False in H by (apply Hnz; by left).
    apply bind_Returns in H as (p & Hp%unwrap_Returns & (more & Hmore & [= <-])%bind_Returns).
    destruct (IH _ _ Hmore) as [Hvals Hcells]; [intros y Hy; apply Hnz; by right|].
    split.
    + rewrite seqZ_cons by (simpl; lia). cbn [fmap list_fmap clue_value]. f_equal.
      rewrite Hvals. f_equal; simpl; lia.
    + constructor; [|done]. unfold clueCell. simpl. by destruct p.
Qed.

Lemma at_index_range {A} (l : list A) i x :
  at_index l i = Some x → 0 ≤ i < Z.of_nat (length l).
Proof.
  unfold at_index. case_decide; [|done]. intros Hx%lookup_lt_Some. lia.
Qed.

Lemma pushClues_range path l : ∀ i ivs,
  pushClues path i l = Returns ivs →
  ∀ x, x ∈ l → x = 0 ∨ is_Some (at_index path x).
Proof.
  induction l as [|x l IH]; intros i ivs; cbn [pushClues].
  - intros _ y Hy. by apply elem_of_nil in Hy.
  - case_decide as Hzero.
    + intros H y [->|Hy]%elem_of_cons; [by left | by eapply IH].
    + intros (p & Hp%unwrap_Returns & (more & Hmore & _)%bind_Returns)%bind_Returns.
      intros y [->|Hy]%elem_of_cons; [right; by eexists | by eapply IH].
Qed.

Lemma cluesOf_Returns path marks ivs :
  cluesOf path marks = Returns ivs →
  0 ∈ marks →
  clue_value <$> ivs = seqZ 1 (Z.of_nat (size marks)) ∧
  Forall2 (λ iv x, at_index path x = Some (clueCell iv)) ivs (sortedIndicesOf marks) ∧
  StronglySorted Z.lt (sortedIndicesOf marks) ∧
  (∀ x, x ∈ sortedIndicesOf marks ↔ x ∈ marks) ∧
  head (sortedIndicesOf marks) = Some 0.
Proof.
  unfold cluesOf.
  intros (p & Hp%unwrap_Returns & (more & Hmore & [= <-])%bind_Returns)%bind_Returns Hzero.
  assert (Hnonneg : ∀ x, x ∈ marks → 0 ≤ x).
  { intros x Hx%sortedIndicesOf_elem_of.
    destruct (pushClues_range _ _ _ _ Hmore x Hx) as [->|[q Hq]]; [done|].
    apply at_index_range in Hq. lia. }
  destruct (sortedIndicesOf_zero marks Hzero Hnonneg) as (rest & Hsorted & Hrest).
  pose proof (sortedIndicesOf_length marks) as Hlen.
  pose proof (sortedIndicesOf_sorted marks) as Hle.
  pose proof (sortedIndicesOf_NoDup marks) as Hnodup.
  split; [|split; [|split; [|split; [apply sortedIndicesOf_elem_of | by rewrite Hsorted]]]].
  - rewrite Hsorted in Hmore, Hlen. cbn [pushClues] in Hmore.
    rewrite decide_True in Hmore by done.
    apply pushClues_Returns in Hmore as [Hvals _];
      [|intros x Hx%Hrest; lia].
    rewrite <- Hlen. rewrite seqZ_cons by (simpl; lia).
    cbn [fmap list_fmap clue_value]. f_equal. rewrite Hvals. f_equal; simpl; lia.
  - rewrite Hsorted in Hmore |- *. cbn [pushClues] in Hmore.
    rewrite decide_True in Hmore by done.
    apply pushClues_Returns in Hmore as [_ Hcells];
      [|intros x Hx%Hrest; lia].
    constructor; [|done]. unfold clueCell. simpl. by destruct p.
  - clear -Hle Hnodup. induction Hle as [|x l Hl IH Hx]; [constructor|].
    apply NoDup_cons in Hnodup as [Hnotin Hnodup].
    constructor; [by apply IH|].
    rewrite Forall_forall in Hx |- *. intros y Hy.
    specialize (Hx y Hy). assert (x ≠ y) by (intros ->; done). lia.
Qed.

(** X13. The clues that [generateLevel] places for a set of marked
    path indices that holds 0: their values are 1, 2, ..., up to the
    number of marked indices, in this order, and they sit on the path
    at the marked indices in increasing order, the clue 1 at index 0. *)
Theorem cluesOf_numbers path marks ivs :
  cluesOf path marks = Returns ivs →
  0 ∈ marks →
  clue_value <$> ivs = seqZ 1 (Z.of_nat (size marks)) ∧
  ∃ indices,
    Forall2 (λ iv x, at_index path x = Some (clueCell iv)) ivs indices ∧
    StronglySorted Z.lt indices ∧
    (∀ x, x ∈ indices ↔ x ∈ marks) ∧
    head indices = Some 0.
Proof.
  intros Hclues Hzero.
  destruct (cluesOf_Returns _ _ _ Hclues Hzero) as (Hvals & Hcells & Hsorted & Hin & Hhead).
  split; [done|]. by exists (sortedIndicesOf marks).
Qed.

(** ** The number of clues *)

Lemma markWhile_size cond (m : Z) :
  (∀ s, cond s = bool_decide (Z.of_nat (size s) < m)) →
  ∀ tape start marks tape',
  markWhile cond start tape = Some (marks, tape') →
  start ⊆ marks ∧ Z.of_nat (size marks) = Z.max (Z.of_nat (size start)) m.
Proof.
  intros Hcond. induction tape as [|idx tape IH]; intros start marks tape';
    cbn [markWhile]; rewrite Hcond; case_bool_decide as Hlt; try done.
  - intros [= <- _]. split; [done | lia].
  - intros H. apply IH in H as [Hsub Hsize]. split; [set_solver|].
    rewrite Hsize.
    assert (size ({[idx]} ∪ start) ≤ S (size start))%nat.
    { rewrite size_union_alt, size_singleton.
      assert (size (start ∖ {[idx]}) ≤ size start)%nat
        by (apply subseteq_size; set_solver).
      lia. }
    lia.
  - intros [= <- _]. split; [done | lia].
Qed.

Lemma markIndices_Some cond start rnd marks rnd' :
  markIndices cond start rnd = Some (marks, rnd') →
  ∃ tape, markWhile cond start (picks rnd) = Some (marks, tape) ∧
          shuffles rnd' = shuffles rnd ∧ coins rnd' = coins rnd.
Proof.
  unfold markIndices. destruct (markWhile _ _ _) as [[ms tape]|]; [|done].
  intros [= <- <-]. by exists tape.
Qed.

Lemma size_endMarks len : 1 ≤ len → Z.of_nat (size (endMarks len)) = Z.min 2 len.
Proof.
  intros Hlen. unfold endMarks. destruct (decide (len = 1)) as [->|Hne].
  - replace ({[1 - 1]} ∪ {[0]} : gset Z) with ({[0]} : gset Z) by set_solver.
    rewrite size_singleton. lia.
  - rewrite size_union by (apply disjoint_singleton_l; rewrite elem_of_singleton; lia).
    rewrite !size_singleton. lia.
Qed.

Lemma candidate_Some rs cs difficulty rnd lvl rnd' :
  candidate rs cs difficulty rnd = Some (Returns (Some lvl), rnd') →
  ∃ path marks rnd1 rnd2 rnd3 tape,
    generateHamiltonianPath rs cs rnd = Some (Some path, rnd1) ∧
    markWhile (λ s, bool_decide (Z.of_nat (size s) < numberCountFor difficulty (rs * cs)) &&
                    bool_decide (Z.of_nat (size s) < Z.of_nat (length path)))
              (endMarks (Z.of_nat (length path))) (picks rnd1) = Some (marks, tape) ∧
    cluesOf path marks = Returns (initialValues lvl) ∧
    placeWalls rs cs path (allCells rs cs) [] rnd2 = Some (walls lvl, rnd3) ∧
    rows lvl = rs ∧ cols lvl = cs.
Proof.
  unfold candidate.
  intros ([p|] & rnd1 & Hpath & H)%gbind_Some; [|by injection H].
  apply gbind_Some in H as (marks & rnd2 & Hmarks & H).
  destruct (cluesOf p marks) as [ivs|] eqn:Hclues; [|by injection H].
  apply gbind_Some in H as (ws & rnd3 & Hwalls & (name & rnd4 & _ & H)%gbind_Some).
  injection H as <- _.
  apply markIndices_Some in Hmarks as (tape & Hmarks & _).
  by exists p, marks, rnd1, rnd2, rnd3, tape.
Qed.

Lemma fallback_Some rs cs rnd lvl rnd' :
  fallback rs cs rnd = Some (Returns lvl, rnd') →
  ∃ path marks rnd1 tape,
    generateHamiltonianPath rs cs rnd = Some (Some path, rnd1) ∧
    markWhile (λ s, bool_decide (Z.of_nat (size s) < (rs * cs) `div` 3))
              (endMarks (Z.of_nat (length path))) (picks rnd1) = Some (marks, tape) ∧
    cluesOf path marks = Returns (initialValues lvl) ∧
    walls lvl = [] ∧ rows lvl = rs ∧ cols lvl = cs.
Proof.
  unfold fallback.
  intros ([p|] & rnd1 & Hpath & H)%gbind_Some; [|by injection H].
  apply gbind_Some in H as (marks & rnd2 & Hmarks & H).
  destruct (cluesOf p marks) as [ivs|] eqn:Hclues; [|by injection H].
  apply gbind_Some in H as (name & rnd4 & _ & H).
  injection H as <- _.
  apply markIndices_Some in Hmarks as (tape & Hmarks & _).
  by exists p, marks, rnd1, tape.
Qed.

Lemma generateHamiltonianPath_length rows cols rnd p rnd' :
  generateHamiltonianPath rows cols rnd = Some (Some p, rnd') →
  Z.of_nat (length p) = rows * cols ∧ p ≠ [].
Proof.
  intros Hgen.
  destruct (generateHamiltonianPath_Some _ _ _ _ _ _ Hgen (drawnFrom_concat rnd))
    as (r & c & t & Hpicks & Hhead & Hnodup & _ & Hlen).
  split; [done|]. by intros ->.
Qed.

Lemma attempts_Some n rows cols difficulty : ∀ rnd lvl rnd',
  attempts n rows cols difficulty rnd = Some (Some lvl, rnd') →
  ∃ rnd1 rnd2, candidate rows cols difficulty rnd1 = Some (Returns (Some lvl), rnd2) ∧
               isPuzzleSolvable lvl = Returns true.
Proof.
  induction n as [|n IH]; intros rnd lvl rnd'; cbn [attempts]; [by intros [=]|].
  intros (r & rnd1 & Hattempt & H)%gbind_Some.
  assert (Hnext : attempts n rows cols difficulty rnd1 = Some (Some lvl, rnd') →
    ∃ rnd1 rnd2, candidate rows cols difficulty rnd1 = Some (Returns (Some lvl), rnd2) ∧
                 isPuzzleSolvable lvl = Returns true) by apply IH.
  destruct r as [[level|]|]; [|by apply Hnext..].
  injection H as -> ->.
  unfold attempt in Hattempt.
  apply gbind_Some in Hattempt as (made & rnd2 & Hmade & H).
  destruct made as [[level|]|]; [|by injection H..].
  injection H as H _.
  destruct (isPuzzleSolvable level) as [[]|] eqn:Hsolvable; [|done..].
  injection H as ->. by exists rnd, rnd2.
Qed.

Lemma clue_values path cond m marks tape tape' ivs :
  (∀ s, cond s = bool_decide (Z.of_nat (size s) < m)) →
  path ≠ [] →
  markWhile cond (endMarks (Z.of_nat (length path))) tape = Some (marks, tape') →
  cluesOf path marks = Returns ivs →
  clue_value <$> ivs = seqZ 1 (Z.max (Z.min 2 (Z.of_nat (length path))) m).
Proof.
  intros Hcond Hpath Hmarks Hclues.
  assert (1 ≤ Z.of_nat (length path)) by (destruct path; [done | simpl; lia]).
  apply (markWhile_size _ _ Hcond) in Hmarks as [Hsub Hsize].
  rewrite size_endMarks in Hsize by done.
  apply cluesOf_Returns in Hclues as [Hvals _]; [|apply Hsub; unfold endMarks; set_solver].
  by rewrite Hvals, Hsize.
Qed.

(** X15. A level that [generateLevel] returns has the dimensions asked
    for, and either it comes from an attempt, then [isPuzzleSolvable]
    accepts it and its clues are numbered 1 to
    [max (min 2 cells) (floor (cells / divisor of the difficulty))],
    or it comes from the fallback, then it has no walls and its clues
    are numbered with the divisor 3 of difficulty [easy]. *)
Theorem generateLevel_result rs cs difficulty rnd lvl rnd' :
  generateLevel rs cs difficulty rnd = Some (Returns lvl, rnd') →
  rows lvl = rs ∧ cols lvl = cs ∧
  ( isPuzzleSolvable lvl = Returns true ∧
    clue_value <$> initialValues lvl = seqZ 1 (clueCount difficulty (rs * cs))
  ∨ walls lvl = [] ∧
    clue_value <$> initialValues lvl = seqZ 1 (clueCount easy (rs * cs)) ).
Proof.
  unfold generateLevel. intros ([level|] & rnd1 & Hattempts & H)%gbind_Some.
  - injection H as -> _.
    apply attempts_Some in Hattempts as (rnd2 & rnd3 & Hmade & Hsolvable).
    apply candidate_Some in Hmade
      as (path & marks & r1 & r2 & r3 & tape & Hpath & Hmarks & Hclues & _ & Hrows & Hcols).
    apply generateHamiltonianPath_length in Hpath as [Hlen Hne].
    split; [done|]. split; [done|]. left. split; [done|].
    eapply (clue_values path _ (Z.min (numberCountFor difficulty (rs * cs)) (rs * cs)))
      in Hclues; [| |done|exact Hmarks].
    + rewrite Hclues. f_equal. unfold clueCount. rewrite Hlen.
      assert (1 ≤ rs * cs) by (destruct path; [done | simpl in Hlen; lia]).
      assert (numberCountFor difficulty (rs * cs) ≤ rs * cs).
      { unfold numberCountFor. destruct difficulty;
          (etrans; [apply Z.div_le_upper_bound with (q := rs * cs)|]); lia. }
      lia.
    + intros s. simpl. rewrite Hlen.
      repeat case_bool_decide; simpl; try done; lia.
  - apply fallback_Some in H
      as (path & marks & r1 & tape & Hpath & Hmarks & Hclues & Hwalls & Hrows & Hcols).
    apply generateHamiltonianPath_length in Hpath as [Hlen Hne].
    split; [done|]. split; [done|]. right. split; [done|].
    eapply (clue_values path _ ((rs * cs) `div` 3)) in Hclues; [| |done|exact Hmarks].
    + rewrite Hclues. unfold clueCount, numberCountFor. by rewrite Hlen.
    + done.
Qed.

(** ** Playing the path of the generator *)

Lemma sorted_lookup (l : list Z) : 
  StronglySorted Z.lt l →
  ∀ (i j : nat) x y, l !! i = Some x → l !! j = Some y → (i < j)%nat → x < y.
Proof.
  induction 1 as [|a l Hl IH Ha]; intros i j x y Hi Hj Hij; [done|].
  destruct j as [|j]; [lia|]. simpl in Hj.
  destruct i as [|i]; simpl in Hi.
  - injection Hi as <-. rewrite Forall_forall in Ha.
    apply Ha. by eapply list_elem_of_lookup_2.
  - eapply IH; [done | done | lia].
Qed.

Lemma sorted_lookup_inj (l : list Z) :
  StronglySorted Z.lt l →
  ∀ (i j : nat) x, l !! i = Some x → l !! j = Some x → i = j.
Proof.
  intros Hl i j x Hi Hj.
  destruct (Nat.lt_trichotomy i j) as [Hlt|[->|Hgt]]; [|done|].
  - pose proof (sorted_lookup l Hl i j x x Hi Hj Hlt). lia.
  - pose proof (sorted_lookup l Hl j i x x Hj Hi Hgt). lia.
Qed.

Lemma clueAt_Some ivs r c v :
  clueAt ivs r c = Some v →
  ∃ iv, iv ∈ ivs ∧ clue_row iv = r ∧ clue_col iv = c ∧ clue_value iv = v.
Proof.
  induction ivs as [|iv ivs IH]; cbn [clueAt]; [done|].
  destruct (clueAt ivs r c) as [u|].
  - intros [= <-]. destruct (IH eq_refl) as (iv' & ? & ?).
    exists iv'. split; [by right | done].
  - case_decide as Hiv; [|done]. intros [= <-]. destruct Hiv.
    exists iv. split; [by left | done].
Qed.

Lemma foldl_max_seqZ (n : nat) : ∀ a,
  foldl Z.max a (seqZ (a + 1) (Z.of_nat n)) = a + Z.of_nat n.
Proof.
  induction n as [|n IH]; intros a; [simpl; lia|].
  rewrite seqZ_cons by lia. cbn [foldl].
  replace (Z.pred (Z.of_nat (S n))) with (Z.of_nat n) by lia.
  replace (Z.max a (a + 1)) with (a + 1) by lia.
  replace (Z.succ (a + 1)) with (a + 1 + 1) by lia.
  rewrite IH. lia.
Qed.

Lemma math_max_seqZ (k : nat) :
  (0 < k)%nat → math_max (seqZ 1 (Z.of_nat k)) = Some (Z.of_nat k).
Proof.
  intros Hk. rewrite seqZ_cons by lia. cbn [math_max]. f_equal.
  replace (Z.pred (Z.of_nat k)) with (Z.of_nat (k - 1)) by lia.
  replace (Z.succ 1) with (1 + 1) by lia.
  rewrite foldl_max_seqZ. lia.
Qed.

Lemma isValidMove_accepts s t current x :
  last (currentPath s) = Some current →
  inBounds (rows (level s)) (cols (level s)) t →
  t ∉ currentPath s →
  manhattan current t = 1 →
  grid_at (grid s) (row t) (col t) = Some x →
  visitedOrder x = None →
  hasWall (walls (level s)) current t = false →
  (∀ v, isFixed x = true → value x = Some v → v = lastVisitedNumber s + 1) →
  isValidMove s t = Returns true.
Proof.
  intros Hlast Hin Hnew Hdist Hx Hvis Hwall Hseq. unfold isValidMove.
  rewrite Hlast, decide_True by exact Hin.
  apply findIndex_None in Hnew. rewrite Hnew.
  unfold manhattan in Hdist. rewrite decide_False by lia.
  rewrite Hx. simpl. rewrite decide_False by (by rewrite Hvis; intros []).
  rewrite Hwall.
  destruct (isFixed x) eqn:Hf; [|done].
  destruct (value x) as [v|] eqn:Hv; [|done].
  rewrite decide_False; [done|]. intros Hne. apply Hne. by apply Hseq.
Qed.

Lemma linked_lookup {A} (R : A → A → Prop) l : ∀ (i : nat) a b,
  linked R l → l !! i = Some a → l !! S i = Some b → R a b.
Proof.
  induction l as [|x [|y l] IH]; intros i a b; [done | done |].
  intros [Hxy Hl] Ha Hb. destruct i as [|i].
  - simpl in Ha, Hb. by simplify_eq.
  - by apply (IH i).
Qed.

Section solution.
Context (lvl : Level) (p : list Coordinate) (indices : list Z).
Hypothesis Hnodup : NoDup p.
Hypothesis Hlen : Z.of_nat (length p) = rows lvl * cols lvl.
Hypothesis Hgrid : Forall (inBounds (rows lvl) (cols lvl)) p.
Hypothesis Hlinked : linked (openEdge (walls lvl)) p.
Hypothesis Hcells :
  Forall2 (λ iv x, at_index p x = Some (clueCell iv)) (initialValues lvl) indices.
Hypothesis Hvals :
  clue_value <$> initialValues lvl = seqZ 1 (Z.of_nat (length indices)).
Hypothesis Hsorted : StronglySorted Z.lt indices.
Hypothesis Hfirst : head indices = Some 0.

Lemma clue_of_index (j : nat) x :
  indices !! j = Some x →
  ∃ iv, initialValues lvl !! j = Some iv ∧
        0 ≤ x ∧ p !! Z.to_nat x = Some (clueCell iv) ∧
        clue_value iv = Z.of_nat j + 1.
Proof.
  intros Hj.
  destruct (Forall2_lookup_r _ _ _ _ _ Hcells Hj) as (iv & Hiv & Hat).
  exists iv. unfold at_index in Hat. case_decide; [|done].
  split_and!; try done.
  assert (Hv : (clue_value <$> initialValues lvl) !! j = Some (clue_value iv))
    by by rewrite list_lookup_fmap, Hiv.
  rewrite Hvals in Hv. apply lookup_seqZ in Hv as [-> _]. lia.
Qed.

Lemma solution_distinctClues : distinctClues lvl.
Proof.
  unfold distinctClues. apply NoDup_alt. intros i j k Hi Hj.
  rewrite list_lookup_fmap in Hi, Hj.
  apply fmap_Some in Hi as (iv & Hiv & ->), Hj as (iv' & Hiv' & Hkey).
  destruct (Forall2_lookup_l _ _ _ _ _ Hcells Hiv) as (x & Hx & _).
  destruct (Forall2_lookup_l _ _ _ _ _ Hcells Hiv') as (x' & Hx' & _).
  destruct (clue_of_index _ _ Hx) as (iv0 & Hiv0 & ? & Hp & _).
  destruct (clue_of_index _ _ Hx') as (iv1 & Hiv1 & ? & Hp' & _).
  rewrite Hiv in Hiv0. injection Hiv0 as <-.
  rewrite Hiv' in Hiv1. injection Hiv1 as <-.
  assert (clueCell iv = clueCell iv') as Hsame
    by (unfold clueCell; by injection Hkey as -> ->).
  rewrite Hsame in Hp.
  pose proof (NoDup_lookup _ _ _ _ Hnodup Hp Hp') as Hnat.
  assert (x = x') as <- by lia.
  by eapply sorted_lookup_inj.
Qed.

(** The clue of a cell of the path. *)
Lemma path_clue_Some (i : nat) q v :
  p !! i = Some q →
  clueAt (initialValues lvl) (row q) (col q) = Some v →
  ∃ j : nat, indices !! j = Some (Z.of_nat i) ∧ v = Z.of_nat j + 1.
Proof.
  intros Hq (iv & [j Hiv]%list_elem_of_lookup_1 & Hr & Hc & Hv)%clueAt_Some.
  destruct (Forall2_lookup_l _ _ _ _ _ Hcells Hiv) as (x & Hx & _).
  destruct (clue_of_index _ _ Hx) as (iv0 & Hiv0 & ? & Hp & Hval).
  rewrite Hiv in Hiv0. injection Hiv0 as <-.
  assert (clueCell iv = q) as Hsame by (unfold clueCell; destruct q; simpl in *; congruence).
  rewrite Hsame in Hp.
  pose proof (NoDup_lookup _ _ _ _ Hnodup Hp Hq) as Hnat.
  exists j. split; [|congruence]. rewrite Hx. f_equal. lia.
Qed.

Lemma path_clue_index (i j : nat) q :
  p !! i = Some q →
  indices !! j = Some (Z.of_nat i) →
  clueAt (initialValues lvl) (row q) (col q) = Some (Z.of_nat j + 1).
Proof.
  intros Hq Hj.
  destruct (clue_of_index _ _ Hj) as (iv & Hiv & _ & Hp & Hval).
  rewrite Nat2Z.id, Hq in Hp. injection Hp as ->.
  rewrite <- Hval. apply (clueAt_distinct _ iv solution_distinctClues).
  by eapply list_elem_of_lookup_2.
Qed.

Lemma solution_cluesInGrid : cluesInGrid lvl.
Proof.
  rewrite Forall_forall in Hgrid.
  assert (Hhead : indices !! 0%nat = Some 0) by (by rewrite <- head_lookup).
  destruct (clue_of_index _ _ Hhead) as (iv0 & _ & _ & Hp0 & _).
  apply list_elem_of_lookup_2, Hgrid in Hp0 as (? & ? & ? & ?).
  split; [lia|]. split; [lia|].
  apply Forall_forall. intros iv [j Hiv]%list_elem_of_lookup_1.
  destruct (Forall2_lookup_l _ _ _ _ _ Hcells Hiv) as (x & Hx & _).
  destruct (clue_of_index _ _ Hx) as (iv' & Hiv' & _ & Hp & _).
  rewrite Hiv in Hiv'. injection Hiv' as <-.
  apply Hgrid. by eapply list_elem_of_lookup_2.
Qed.

Lemma solution_startOf : ∃ p0, head p = Some p0 ∧ startOf lvl = Some p0.
Proof.
  assert (Hhead : indices !! 0%nat = Some 0) by (by rewrite <- head_lookup).
  destruct (clue_of_index _ _ Hhead) as (iv0 & Hiv0 & _ & Hp0 & Hval).
  exists (clueCell iv0). split; [by rewrite head_lookup|].
  unfold startOf.
  assert (list_find (λ v, clue_value v = 1) (initialValues lvl) = Some (0%nat, iv0)) as ->.
  { apply list_find_Some. split; [done|]. split; [simpl in Hval; lia|]. intros; lia. }
  done.
Qed.

Lemma solution_start :
  ∃ s0, initializeGame lvl = Returns s0 ∧ onSolution lvl p indices 1 s0.
Proof.
  destruct (initializeGame_total lvl solution_cluesInGrid) as [s0 Hs0].
  exists s0. split; [done|].
  destruct solution_startOf as (p0 & Hp0 & Hstart).
  destruct (initializeGame_spec _ _ Hs0) as (Hlevel & Hpath & Hlast & _ & Hcontent).
  rewrite Hstart in Hpath, Hlast. simpl in Hpath.
  split_and!.
  - done.
  - rewrite Hpath. destruct p as [|q p']; [done|]. simpl in Hp0.
    injection Hp0 as ->. done.
  - by eapply initializeGame_wellFormed; [apply solution_cluesInGrid|].
  - by eapply agree_init.
  - intros r c x Hx. rewrite Hcontent in Hx. case_decide; [|done].
    by injection Hx as <-.
  - rewrite Hlast. destruct indices as [|x0 rest] eqn:Hindices; [done|].
    simpl in Hfirst. injection Hfirst as ->.
    split; [simpl; lia|]. intros j x Hj. destruct j as [|j].
    + simpl in Hj. injection Hj as <-. lia.
    + pose proof (sorted_lookup _ Hsorted 0%nat (S j) 0 x eq_refl Hj). lia.
Qed.

Lemma solution_step (k : nat) s t :
  onSolution lvl p indices k s → (0 < k)%nat → p !! k = Some t →
  ∃ s', makeMove s t = Returns s' ∧
        onSolution lvl p indices (S k) s' ∧
        isComplete s' =
          bool_decide (Z.of_nat (S k) = rows lvl * cols lvl) &&
          bool_decide (Some (lastVisitedNumber s') =
                       math_max (clue_value <$> initialValues lvl)).
Proof.
  intros (Hlevel & Hpath & Hwf & Hagree & Hcontent & Hupto) Hk Ht.
  pose proof (lookup_lt_Some _ _ _ Ht) as Hklen.
  assert (Hnew : t ∉ currentPath s).
  { rewrite Hpath. intros [i Hi]%list_elem_of_lookup_1.
    apply lookup_take_Some in Hi as [Hi Hlt].
    pose proof (NoDup_lookup _ _ _ _ Hnodup Hi Ht). lia. }
  assert (Hin : inBounds (rows lvl) (cols lvl) t).
  { rewrite Forall_forall in Hgrid. by eapply Hgrid, list_elem_of_lookup_2. }
  destruct (lookup_lt_is_Some_2 p (k - 1)) as [current Hcurrent]; [lia|].
  assert (Hlast : last (currentPath s) = Some current).
  { rewrite Hpath, last_lookup, length_take.
    replace (Init.Nat.pred (k `min` length p)) with (k - 1)%nat by lia.
    rewrite lookup_take_lt by lia. done. }
  assert (Hedge : openEdge (walls lvl) current t).
  { eapply (linked_lookup _ p (k - 1)); [done | done |].
    by replace (S (k - 1)) with k by lia. }
  destruct Hedge as [Hdist Hwall].
  destruct Hwf as [Hcover Honpath].
  destruct (Hcover t) as [x Hx]; [by rewrite Hlevel|].
  destruct Hagree as [Hnodup_s Hagree].
  assert (Hvis : visitedOrder x = None).
  { destruct (Hagree _ _ _ Hx) as [_ Hoff]. apply Hoff. by destruct t. }
  destruct (Hcontent _ _ _ Hx) as [Hvalue Hfixed].
  destruct Hupto as [Hrange Hupto].
  assert (Hseq : ∀ v, isFixed x = true → value x = Some v →
            indices !! Z.to_nat (v - 1) = Some (Z.of_nat k) ∧ 1 ≤ v ∧
            v = lastVisitedNumber s + 1).
  { intros v _ Hv. rewrite Hvalue in Hv.
    destruct (path_clue_Some _ _ _ Ht Hv) as (j & Hj & ->).
    replace (Z.to_nat (Z.of_nat j + 1 - 1)) with j by lia.
    split; [done|]. split; [lia|].
    pose proof (Hupto j _ Hj) as Hjk.
    assert (lastVisitedNumber s ≤ Z.of_nat j) by lia.
    destruct j as [|j]; [lia|].
    destruct (lookup_lt_is_Some_2 indices j) as [y Hy];
      [apply lookup_lt_Some in Hj; lia|].
    pose proof (sorted_lookup _ Hsorted j (S j) _ _ Hy Hj).
    pose proof (Hupto j _ Hy). lia. }
  assert (Hvalid : isValidMove s t = Returns true).
  { eapply isValidMove_accepts; try done; rewrite ?Hlevel; try done.
    intros v Hf Hv. by apply Hseq. }
  assert (Hfind : findIndex (currentPath s) t = None) by by apply findIndex_None.
  destruct (makeMove_total s t (conj Hcover Honpath)) as [s' Hmove].
  exists s'. split; [done|].
  assert (Hext : extendTo s t = Returns s').
  { unfold makeMove in Hmove. by rewrite Hfind in Hmove. }
  destruct (extendTo_accepted _ _ _ Hvalid Hext)
    as (x' & g & Hx' & Hg & Hlevel' & Hgrid' & Hpath' & Hlast' & Hcomplete).
  rewrite Hx in Hx'. injection Hx' as <-.
  assert (Hupto' : cluesUpTo indices (S k) (lastVisitedNumber s')).
  { rewrite Hlast'. unfold clueOr.
    destruct (isFixed x) eqn:Hf; [destruct (value x) as [v|] eqn:Hv|].
    - destruct (Hseq v eq_refl eq_refl) as (Hj & Hv1 & ->).
      set (j := Z.to_nat (lastVisitedNumber s + 1 - 1)) in *.
      pose proof (lookup_lt_Some _ _ _ Hj) as Hjlen.
      split; [lia|]. intros j' x' Hj'.
      destruct (Nat.lt_trichotomy j' j) as [Hlt|[->|Hgt]].
      + pose proof (sorted_lookup _ Hsorted _ _ _ _ Hj' Hj Hlt). lia.
      + rewrite Hj in Hj'. injection Hj' as <-. lia.
      + pose proof (sorted_lookup _ Hsorted _ _ _ _ Hj Hj' Hgt). lia.
    - by rewrite <- Hvalue in Hfixed.
    - split; [done|]. intros j x' Hj.
      assert (x' ≠ Z.of_nat k).
      { intros ->. rewrite (path_clue_index _ _ _ Ht Hj) in Hfixed. done. }
      pose proof (Hupto j x' Hj). lia. }
  split.
  - split_and!.
    + congruence.
    + rewrite Hpath', Hpath. by erewrite take_S_r.
    + by eapply makeMove_wellFormed.
    + eapply agree_extend; [by split | done | done].
    + intros r c y Hy. rewrite Hgrid' in Hy.
      rewrite (grid_set_lookup _ _ _ _ _ r c Hg) in Hy.
      case_decide.
      * apply fmap_Some in Hy as (y0 & Hy0 & ->). simpl. by apply Hcontent.
      * by apply Hcontent.
    + done.
  - rewrite Hcomplete. unfold completeAfter. rewrite Hlevel, Hpath, length_take, <- Hlast'.
    f_equal. apply bool_decide_ext. lia.
Qed.

Lemma solution_run (m : nat) : ∀ (k : nat) s,
  onSolution lvl p indices k s → (0 < k)%nat → (k + m = length p)%nat →
  ∃ s', makeMoves s (drop k p) = Returns s' ∧
        onSolution lvl p indices (length p) s' ∧
        ((0 < m)%nat → isComplete s' = true).
Proof.
  induction m as [|m IH]; intros k s Hs Hk Hkm.
  - exists s. rewrite drop_ge by lia. split; [done|].
    replace (length p) with k by lia. split; [done | lia].
  - destruct (lookup_lt_is_Some_2 p k) as [t Ht]; [lia|].
    destruct (solution_step _ _ _ Hs Hk Ht) as (s1 & Hmove & Hs1 & Hcomplete).
    destruct (IH (S k) s1 Hs1) as (s' & Hrun & Hs' & Hdone); [lia | lia |].
    exists s'. split_and!.
    + rewrite (drop_S _ _ _ Ht). cbn [makeMoves]. rewrite Hmove. done.
    + done.
    + intros _. destruct m as [|m]; [|apply Hdone; lia].
      rewrite drop_ge in Hrun by lia. injection Hrun as <-.
      rewrite Hcomplete. apply andb_true_iff.
      rewrite !bool_decide_eq_true. split; [lia|].
      destruct Hs1 as (_ & _ & _ & _ & _ & [Hrange Hupto]).
      rewrite Hvals.
      destruct (decide (length indices = 0)%nat) as [Hnil|Hsome].
      { destruct indices; [done | simpl in Hnil; lia]. }
      rewrite math_max_seqZ by lia. f_equal.
      destruct (lookup_lt_is_Some_2 indices (length indices - 1)) as [x Hx]; [lia|].
      destruct (clue_of_index _ _ Hx) as (_ & _ & ? & Hp%lookup_lt_Some & _).
      pose proof (Hupto _ _ Hx). lia.
Qed.

Lemma solution_plays : 2 ≤ rows lvl * cols lvl → solvedBy lvl p.
Proof.
  intros Htwo. destruct solution_start as (s0 & Hs0 & Hon).
  destruct (solution_run (length p - 1) 1 s0 Hon) as (s & Hrun & Hs & Hdone); [lia | lia |].
  exists s0, s. split_and!; [done | | |].
  - destruct p; [done | exact Hrun].
  - destruct Hs as (_ & -> & _). by rewrite take_ge.
  - apply Hdone. lia.
Qed.
End solution.

Lemma linked_lookup_2 {A} (R : A → A → Prop) l :
  (∀ (i : nat) a b, l !! i = Some a → l !! S i = Some b → R a b) → linked R l.
Proof.
  induction l as [|x [|y l] IH]; intros HR; [done | done |].
  split; [by apply (HR 0%nat)|]. apply IH. intros i a b. apply (HR (S i)).
Qed.

Lemma markWhile_grows cond : ∀ tape start marks tape',
  markWhile cond start tape = Some (marks, tape') → start ⊆ marks.
Proof.
  induction tape as [|idx tape IH]; intros start marks tape'; cbn [markWhile];
    destruct (cond start); try done.
  - by intros [= <- _].
  - intros H%IH. set_solver.
  - by intros [= <- _].
Qed.

Lemma path_solves lvl path marks rnd rnd1 tape cond :
  generateHamiltonianPath (rows lvl) (cols lvl) rnd = Some (Some path, rnd1) →
  (∀ r c t, picks rnd = r :: c :: t → inBounds (rows lvl) (cols lvl) (mkCoordinate r c)) →
  drawnFrom (take 4 DIRECTIONS) rnd →
  markWhile cond (endMarks (Z.of_nat (length path))) (picks rnd1) = Some (marks, tape) →
  cluesOf path marks = Returns (initialValues lvl) →
  (∀ (i : nat) u v, path !! i = Some u → path !! S i = Some v →
                    hasWall (walls lvl) u v = false) →
  2 ≤ rows lvl * cols lvl →
  solvedBy lvl path.
Proof.
  intros Hpath Hstart Hdirs Hmarks Hclues Hwalls Htwo.
  destruct (generateHamiltonianPath_spec _ _ _ _ _ Hpath Hstart)
    as (Hnodup & Hlen & Hcover & Hlinked).
  apply markWhile_grows in Hmarks.
  destruct (cluesOf_Returns _ _ _ Hclues) as (Hvals & Hcells & Hsorted & _ & Hhead).
  { apply Hmarks. unfold endMarks. set_solver. }
  rewrite <- sortedIndicesOf_length in Hvals.
  eapply (solution_plays lvl path (sortedIndicesOf marks)); try done.
  - apply Forall_forall. intros q. apply Hcover.
  - apply linked_lookup_2. intros i a b Ha Hb. split; [|by eapply Hwalls].
    exact (linked_lookup _ path i a b (Hlinked Hdirs) Ha Hb).
Qed.

(** X16. Every level that the generator builds can be solved in the
    game. For a level built by an attempt of the main pipeline or by
    the fallback on a grid of at least two cells, when the start cell
    drawn lies on the grid and the shuffles hold orthogonal directions,
    [initializeGame] followed by [makeMove] along the Hamiltonian path
    of the generator accepts every move and ends in a state with
    [isComplete] true whose path is that Hamiltonian path. *)
Theorem generated_level_playable rs cs difficulty rnd lvl rnd' :
  candidate rs cs difficulty rnd = Some (Returns (Some lvl), rnd') ∨
  fallback rs cs rnd = Some (Returns lvl, rnd') →
  (∀ r c t, picks rnd = r :: c :: t → inBounds rs cs (mkCoordinate r c)) →
  drawnFrom (take 4 DIRECTIONS) rnd →
  2 ≤ rs * cs →
  ∃ path rnd1,
    generateHamiltonianPath rs cs rnd = Some (Some path, rnd1) ∧
    solvedBy lvl path.
Proof.
  intros [Hmade|Hmade] Hstart Hdirs Htwo.
  - apply candidate_Some in Hmade
      as (path & marks & rnd1 & rnd2 & rnd3 & tape &
          Hpath & Hmarks & Hclues & Hwalls & <- & <-).
    exists path, rnd1. split; [done|].
    eapply path_solves; try done.
    intros i u v Hu Hv.
    destruct (placeWalls_spec _ _ _ _ _ _ Hwalls) as [_ Hspare].
    by destruct (Hspare i u v Hu Hv).
  - apply fallback_Some in Hmade
      as (path & marks & rnd1 & tape & Hpath & Hmarks & Hclues & Hwalls & <- & <-).
    exists path, rnd1. split; [done|].
    eapply path_solves; try done.
    intros i u v _ _. by rewrite Hwalls.
Qed.

(** ** The levels of the generator *)

Lemma path_clues_wellformed lvl path marks rnd rnd1 tape cond :
  generateHamiltonianPath (rows lvl) (cols lvl) rnd = Some (Some path, rnd1) →
  (∀ r c t, picks rnd = r :: c :: t → inBounds (rows lvl) (cols lvl) (mkCoordinate r c)) →
  markWhile cond (endMarks (Z.of_nat (length path))) (picks rnd1) = Some (marks, tape) →
  cluesOf path marks = Returns (initialValues lvl) →
  cluesInGrid lvl ∧ distinctClues lvl.
Proof.
  intros Hpath Hstart Hmarks Hclues.
  destruct (generateHamiltonianPath_spec _ _ _ _ _ Hpath Hstart)
    as (Hnodup & Hlen & Hcover & _).
  apply markWhile_grows in Hmarks.
  destruct (cluesOf_Returns _ _ _ Hclues) as (Hvals & Hcells & Hsorted & _ & Hhead).
  { apply Hmarks. unfold endMarks. set_solver. }
  rewrite <- sortedIndicesOf_length in Hvals.
  split.
  - eapply (solution_cluesInGrid lvl path); try done.
    apply Forall_forall. intros q. apply Hcover.
  - by eapply (solution_distinctClues lvl path).
Qed.

(** X27. The levels of the generator are well formed: a level built by
    an attempt of the main pipeline or by the fallback, the start cell
    drawn being on the grid, has its clues on the grid and on distinct
    cells, and its walls inside the grid. *)
Theorem generated_level_wellformed rs cs difficulty rnd lvl rnd' :
  candidate rs cs difficulty rnd = Some (Returns (Some lvl), rnd') ∨
  fallback rs cs rnd = Some (Returns lvl, rnd') →
  (∀ r c t, picks rnd = r :: c :: t → inBounds rs cs (mkCoordinate r c)) →
  cluesInGrid lvl ∧ distinctClues lvl ∧ Forall (wallFits rs cs) (walls lvl).
Proof.
  intros [Hmade|Hmade] Hstart.
  - apply candidate_Some in Hmade
      as (path & marks & rnd1 & rnd2 & rnd3 & tape &
          Hpath & Hmarks & Hclues & Hwalls & <- & <-).
    destruct (path_clues_wellformed _ _ _ _ _ _ _ Hpath Hstart Hmarks Hclues).
    destruct (placeWalls_spec _ _ _ _ _ _ Hwalls) as [Hfits _].
    done.
  - apply fallback_Some in Hmade
      as (path & marks & rnd1 & tape & Hpath & Hmarks & Hclues & Hwalls & <- & <-).
    destruct (path_clues_wellformed _ _ _ _ _ _ _ Hpath Hstart Hmarks Hclues).
    rewrite Hwalls. split_and!; [done | done | constructor].
Qed.

(** ** When the generator throws *)

Lemma pushClues_Throws path l : ∀ i,
  pushClues path i l = Throws → ∃ x, x ∈ l ∧ x ≠ 0 ∧ at_index path x = None.
Proof.
  induction l as [|x l IH]; intros i; cbn [pushClues]; [done|].
  case_decide as Hzero.
  - intros (y & ? & ?)%IH. exists y. split; [by right | done].
  - destruct (at_index path x) as [p|] eqn:Hp; simpl.
    + destruct (pushClues path (i + 1) l) as [more|] eqn:Hmore; [done|].
      intros _. destruct (IH _ Hmore) as (y & ? & ?). exists y. split; [by right | done].
    + intros _. exists x. split; [by left | done].
Qed.

Lemma at_index_None {A} (l : list A) i :
  at_index l i = None → ¬ (0 ≤ i < Z.of_nat (length l)).
Proof.
  unfold at_index. case_decide; [|lia]. intros Hnone%lookup_ge_None. lia.
Qed.

Lemma cluesOf_Throws path marks :
  cluesOf path marks = Throws →
  path = [] ∨ ∃ x, x ∈ marks ∧ ¬ (0 ≤ x < Z.of_nat (length path)).
Proof.
  unfold cluesOf. destruct path as [|p path]; [by left|]. right.
  destruct (pushClues (p :: path) 0 (sortedIndicesOf marks)) as [more|] eqn:Hmore; [done|].
  destruct (pushClues_Throws _ _ _ Hmore) as (x & Hx%sortedIndicesOf_elem_of & _ & Hnone).
  exists x. split; [done|]. by apply at_index_None.
Qed.

Lemma markWhile_from cond : ∀ tape start marks tape',
  markWhile cond start tape = Some (marks, tape') →
  ∀ x, x ∈ marks → x ∈ start ∨ x ∈ tape.
Proof.
  induction tape as [|idx tape IH]; intros start marks tape'; cbn [markWhile];
    destruct (cond start); try done.
  - intros [= <- _] x Hx. by left.
  - intros H x Hx. destruct (IH _ _ _ H x Hx) as [Hin|Hin]; [|right; by right].
    apply elem_of_union in Hin as [->%elem_of_singleton|Hin]; [right; by left | by left].
  - intros [= <- _] x Hx. by left.
Qed.

(** X25. When [generateLevel] throws, the exception comes from the
    fallback: all fifty attempts have failed (an exception inside an
    attempt is caught there), and either the path search of the
    fallback has found no Hamiltonian path, or a path index drawn for
    a clue lies outside the path. *)
Theorem generateLevel_throws rs cs difficulty rnd rnd' :
  generateLevel rs cs difficulty rnd = Some (Throws, rnd') →
  ∃ rnd1 rnd2,
    attempts maxAttempts rs cs difficulty rnd = Some (None, rnd1) ∧
    ( generateHamiltonianPath rs cs rnd1 = Some (None, rnd2)
    ∨ ∃ path x,
        generateHamiltonianPath rs cs rnd1 = Some (Some path, rnd2) ∧
        x ∈ picks rnd2 ∧ ¬ (0 ≤ x < Z.of_nat (length path)) ).
Proof.
  unfold generateLevel. intros ([level|] & rnd1 & Hattempts & H)%gbind_Some; [done|].
  exists rnd1. unfold fallback in H.
  apply gbind_Some in H as ([path|] & rnd2 & Hpath & H).
  2:{ exists rnd2. split; [done | by left]. }
  exists rnd2. split; [done|]. right.
  apply gbind_Some in H as (marks & rnd3 & Hmarks & H).
  apply markIndices_Some in Hmarks as (tape & Hmarks & _).
  destruct (cluesOf path marks) as [ivs|] eqn:Hclues.
  { apply gbind_Some in H as (name & rnd4 & _ & H). done. }
  destruct (generateHamiltonianPath_length _ _ _ _ _ Hpath) as [Hlen Hne].
  apply cluesOf_Throws in Hclues as [->|(x & Hx & Hout)]; [done|].
  exists path, x. split; [done|]. split; [|done].
  destruct (markWhile_from _ _ _ _ _ Hmarks x Hx) as [Hstart|Htape]; [|done].
  exfalso. apply Hout.
  assert (1 ≤ Z.of_nat (length path)) by (destruct path; [done | simpl; lia]).
  unfold endMarks in Hstart.
  apply elem_of_union in Hstart as [->%elem_of_singleton| ->%elem_of_singleton]; lia.
Qed.

(** * What the solvability check guarantees *)

(** ** The chain of the segments *)

Lemma kingStep_empty level visited a b :
  kingStep level visited a b → kingStep level ∅ a b.
Proof. intros (? & ? & ? & ?). split_and!; (done || set_solver). Qed.

Lemma linked_app_last {A} (R : A → A → Prop) l h t :
  linked R l → last l = Some h → linked R (h :: t) → linked R (l ++ t).
Proof.
  induction l as [|x [|y l] IH]; [done | |].
  - intros _ [= ->] Ht. done.
  - intros [Hxy Hl] Hlast Ht. split; [done|]. by apply IH.
Qed.

Lemma linked_targets level visited a t :
  linked (kingStep level visited) (a :: t) → Forall (λ b, key b ∉ visited) t.
Proof.
  revert a. induction t as [|b t IH]; intros a; [constructor|].
  intros [(_ & _ & Hb & _) Ht]. constructor; [done|]. by eapply IH.
Qed.

Lemma butLast_snoc (p : list Coordinate) q :
  last p = Some q → p = butLast p ++ [q].
Proof.
  intros Hq. unfold butLast. destruct p as [|x p] using rev_ind; [done|].
  rewrite last_snoc in Hq. injection Hq as ->.
  rewrite length_app. simpl.
  replace (length p + 1 - 1)%nat with (length p) by lia.
  by rewrite take_app_length.
Qed.

Lemma connectClues_chain level (np : gmap Z Coordinate) n : ∀ (k : nat) visited r chain stops,
  connectClues level np n (Z.of_nat k + 1) visited = Returns (Some r) →
  threaded level np k chain stops →
  (∀ q, q ∈ chain → key q ∈ visited) →
  ∃ chain' stops', threaded level np (k + n) chain' stops'.
Proof.
  induction n as [|n IH]; intros k visited r chain stops; cbn [connectClues].
  - intros _ Hth _. exists chain, stops. by rewrite Nat.add_0_r.
  - intros (cur & Hcur%unwrap_Returns & H)%bind_Returns
      (Hnodup & Hlinked & Hstops & Hsorted & Hlast) Hkeys.
    replace (k + S n)%nat with (S k + n)%nat by lia.
    replace (Z.of_nat k + 1 + 1) with (Z.of_nat (S k) + 1) in H by lia.
    replace (Z.of_nat k + 1) with (Z.of_nat (S k)) in Hcur by lia.
    assert (Hold : ∀ s, s ∈ stops → (s < length chain)%nat).
    { intros s [j Hj]%list_elem_of_lookup_1.
      destruct (Forall2_lookup_r _ _ _ _ _ Hstops Hj) as (i & _ & q & Hq & _).
      by eapply lookup_lt_Some. }
    assert (Hnext : ∀ chain',
      NoDup chain' → linked (kingStep level ∅) chain' →
      chain `prefix_of` chain' → last chain' = Some cur →
      threaded level np (S k) chain' (stops ++ [(length chain' - 1)%nat])).
    { intros chain' Hnodup' Hlinked' [t ->] Hlast'. split_and!; [done | done | | |].
      - rewrite seqZ_S. apply Forall2_app.
        + eapply Forall2_impl; [exact Hstops|].
          intros i s (q & Hq & Hnp). exists q. split; [|done].
          by apply lookup_app_l_Some.
        + constructor; [|constructor]. exists cur. split.
          * rewrite last_lookup in Hlast'.
            by replace (length (chain ++ t) - 1)%nat with (pred (length (chain ++ t))) by lia.
          * by replace (1 + Z.of_nat k) with (Z.of_nat (S k)) by lia.
      - apply StronglySorted_app_2; [|done|repeat constructor].
        intros s s' Hs ->%list_elem_of_singleton.
        apply Hold in Hs. rewrite length_app. lia.
      - by exists cur. }
    case_decide as Hi.
    + destruct k as [|k]; [lia|]. destruct Hlast as (prev & Hlast & Hprev).
      apply bind_Returns in H as (prevPos & Hprev'%unwrap_Returns & H).
      replace (Z.of_nat (S k) + 1 - 1) with (Z.of_nat (S k)) in Hprev' by lia.
      rewrite Hprev in Hprev'. injection Hprev' as <-.
      destruct (findPath level prev cur visited) as [p|] eqn:Hfind; [|done].
      assert (Hp : head p = Some prev ∧ last p = Some cur ∧
                   linked (kingStep level visited) p ∧ NoDup p).
      { apply findPath_Some in Hfind.
        destruct (findPath_start_state level prev cur visited) as [Htrail _].
        destruct (bfs_sound level prev cur visited _ _ _ _ Htrail Hfind)
          as ([body ->] & ? & ? & ?). done. }
      destruct Hp as (Hhead & Hend & Hsteps & Hnodup_p).
      destruct p as [|h t]; [done|]. simpl in Hhead. injection Hhead as ->.
      pose proof (linked_targets _ _ _ _ Hsteps) as Hfresh.
      rewrite Forall_forall in Hfresh.
      pose proof (butLast_snoc _ _ Hend) as Hsplit.
      apply NoDup_cons in Hnodup_p as [_ Hnodup_t].
      eapply (IH (S (S k)) _ r (chain ++ t)); [exact H | |].
      * apply Hnext.
        -- apply NoDup_app. split_and!; [done | | done].
           intros x Hx Hxt. by apply (Hfresh x Hxt), Hkeys.
        -- eapply linked_app_last; [done | done |].
           eapply linked_impl; [|exact Hsteps]. intros a b. apply kingStep_empty.
        -- by apply prefix_app_r.
        -- rewrite last_app. destruct t as [|y t]; [by simplify_eq/=|].
           by rewrite last_cons_cons in Hend; rewrite Hend.
      * intros q [Hq|Hq]%elem_of_app.
        -- apply Hkeys in Hq. set_solver.
        -- assert (Hqp : q ∈ prev :: t) by by right.
           rewrite Hsplit in Hqp.
           apply elem_of_app in Hqp as [Hqb| ->%list_elem_of_singleton]; [|set_solver].
           apply elem_of_union_r, elem_of_union_l, elem_of_list_to_set.
           by apply list_elem_of_fmap_2.
    + destruct k as [|k]; [|lia]. subst chain.
      eapply (IH 1%nat _ r [cur]); [exact H | |].
      * apply (Hnext [cur]); [apply NoDup_singleton | done | apply prefix_nil | done].
      * intros q ->%list_elem_of_singleton. set_solver.
Qed.

(** X11. What acceptance by [isPuzzleSolvable] guarantees: a chain of
    cells without repetition, each step a step to one of the eight
    neighbours on the grid that [isBlocked] lets pass, which starts at
    the clue 1, passes the clues in increasing order and ends at the
    largest clue. *)
Theorem isPuzzleSolvable_chain level m :
  isPuzzleSolvable level = Returns true →
  math_max (clue_value <$> initialValues level) = Some m →
  ∃ chain stops,
    threaded level (numberPositionsOf (initialValues level)) (Z.to_nat m) chain stops.
Proof.
  unfold isPuzzleSolvable, segmentsOf.
  intros ([visited|] & Hsegments & Hret)%bind_Returns Hmax; [|done].
  rewrite Hmax in Hsegments. cbn [turns] in Hsegments.
  destruct (connectClues_chain _ _ _ 0%nat ∅ visited [] [] Hsegments)
    as (chain & stops & Hth).
  - split_and!; [constructor | done | constructor | constructor | done].
  - intros q Hq. by apply elem_of_nil in Hq.
  - by exists chain, stops.
Qed.

(** ** The check and the searches of its segments *)




Lemma segmentsFound_prefix level np paths more :
  segmentsFound level np (paths ++ more) → segmentsFound level np paths.
Proof.
  intros Hfound k q Hq.
  destruct (Hfound k q) as (a & b & ? & ? & Hfind); [by apply lookup_app_l_Some|].
  exists a, b. split_and!; [done | done |].
  rewrite take_app_le in Hfind by (apply lookup_lt_Some in Hq; lia). done.
Qed.









(** * Properties of the input layer *)

(** ** The line between two cells *)

Lemma line_column_step a b dx dy :
  0 ≤ a ≤ dx → 0 ≤ b ≤ dy → ¬ (a = dx ∧ b = dy) →
  - dy < 2 * ((1 + b) * dx - (1 + a) * dy) → a < dx.
Proof.
  intros Ha Hb Hnot He. destruct (decide (a = dx)) as [->|]; [|lia].
  assert ((1 + b) * dx ≤ dy * dx) by nia. lia.
Qed.

Lemma line_row_step a b dx dy :
  0 ≤ a ≤ dx → 0 ≤ b ≤ dy → ¬ (a = dx ∧ b = dy) →
  2 * ((1 + b) * dx - (1 + a) * dy) < dx → b < dy.
Proof.
  intros Ha Hb Hnot He. destruct (decide (b = dy)) as [->|]; [|lia].
  assert ((1 + a) * dy ≤ dx * dy) by nia. lia.
Qed.

Lemma lineLoop_spec (start end_ : Coordinate) (dx dy sx sy : Z) :
  dx = Z.abs (col end_ - col start) →
  dy = Z.abs (row end_ - row start) →
  sx = (if decide (col start < col end_) then 1 else -1) →
  sy = (if decide (row start < row end_) then 1 else -1) →
  ∀ (fuel : nat) a b x0 y0 err cells,
  lineState start dx dy sx sy a b x0 y0 err →
  (dx - a) + (dy - b) < Z.of_nat fuel →
  ∃ pts,
    lineLoop fuel start (col end_) (row end_) dx dy sx sy x0 y0 err cells =
      Some (cells ++ (if decide (a = 0 ∧ b = 0) then [] else [mkCoordinate y0 x0]) ++ pts) ∧
    last (mkCoordinate y0 x0 :: pts) = Some end_ ∧
    linked kingMove (mkCoordinate y0 x0 :: pts) ∧
    Forall (λ q, 1 ≤ Z.abs (col q - col start) + Z.abs (row q - row start) ∧
                 between start end_ q) pts.
Proof.
  intros Hdx Hdy Hsx0 Hsy0.
  assert (Hsx : sx = 1 ∧ col end_ = col start + dx ∨ sx = -1 ∧ col end_ = col start - dx)
    by (subst sx dx; destruct (decide (col start < col end_)); lia).
  assert (Hsy : sy = 1 ∧ row end_ = row start + dy ∨ sy = -1 ∧ row end_ = row start - dy)
    by (subst sy dy; destruct (decide (row start < row end_)); lia).
  assert (0 ≤ dx ∧ 0 ≤ dy) as [Hdx0 Hdy0] by lia.
  clear Hdx Hdy Hsx0 Hsy0.
  induction fuel as [|fuel IH]; intros a b x0 y0 err cells
    (Ha & Hb & Hx & Hy & Herr) Hfuel; [lia|].
  cbn [lineLoop].
  assert (Hstart : (x0 = col start ∧ y0 = row start) ↔ (a = 0 ∧ b = 0))
    by (clear IH Herr; destruct Hsx as [[-> _]|[-> _]], Hsy as [[-> _]|[-> _]]; lia).
  assert (Hend : (x0 = col end_ ∧ y0 = row end_) ↔ (a = dx ∧ b = dy))
    by (clear IH Herr; destruct Hsx as [[-> ->]|[-> ->]], Hsy as [[-> ->]|[-> ->]]; lia).
  set (cells1 := if decide (¬ (x0 = col start ∧ y0 = row start))
                 then cells ++ [mkCoordinate y0 x0] else cells).
  assert (Hcells1 : cells1 =
    cells ++ (if decide (a = 0 ∧ b = 0) then [] else [mkCoordinate y0 x0])).
  { unfold cells1. destruct (decide (a = 0 ∧ b = 0)) as [Hz|Hz].
    - rewrite decide_False by tauto. by rewrite app_nil_r.
    - rewrite decide_True by tauto. done. }
  clearbody cells1.
  destruct (decide (x0 = col end_ ∧ y0 = row end_)) as [Hdone|Hmore].
  - exists []. rewrite Hcells1, app_nil_r. split_and!; [done | | done | done].
    destruct Hdone as [Hx1 Hy1]. rewrite Hx1, Hy1. by destruct end_.
  - assert (Hnot : ¬ (a = dx ∧ b = dy)) by tauto.
    clear Hstart Hend Hmore.
    assert (Hxstep : - dy < 2 * err → a < dx)
      by (rewrite Herr; by apply line_column_step).
    assert (Hystep : 2 * err < dx → b < dy)
      by (rewrite Herr; by apply line_row_step).
    set (e2 := 2 * err) in *.
    set (a' := if decide (- dy < e2) then a + 1 else a).
    set (b' := if decide (e2 < dx) then b + 1 else b).
    destruct (IH a' b'
      (if decide (- dy < e2) then x0 + sx else x0)
      (if decide (e2 < dx) then y0 + sy else y0)
      (if decide (e2 < dx)
       then (if decide (- dy < e2) then err - dy else err) + dx
       else (if decide (- dy < e2) then err - dy else err))
      cells1) as (pts & Hrun & Hlast & Hlinked & Hpts).
    { unfold a', b', lineState. clearbody e2. clear IH Hcells1 Hsx Hsy.
      destruct (decide (- dy < e2)), (decide (e2 < dx));
        split_and!; try lia; try (rewrite Hx; ring); try (rewrite Hy; ring);
        rewrite Herr; ring. }
    { unfold a', b'. clearbody e2. clear IH Hcells1 Hsx Hsy Hx Hy Herr.
      destruct (decide (- dy < e2)), (decide (e2 < dx)); lia. }
    rewrite Hrun, Hcells1.
    assert (Hmoved : ¬ (a' = 0 ∧ b' = 0)).
    { unfold a', b'. clearbody e2. clear IH Hcells1 Hsx Hsy Hx Hy Herr Hrun.
      destruct (decide (- dy < e2)), (decide (e2 < dx)); lia. }
    rewrite (decide_False (P := a' = 0 ∧ b' = 0)) by exact Hmoved.
    eexists (_ :: pts). split_and!.
    + by rewrite <- !app_assoc.
    + done.
    + split; [|done]. unfold kingMove. cbn [row col]. clearbody e2.
      clear IH Hcells1 Hx Hy Herr Hrun Hlast Hlinked Hpts Hmoved.
      destruct Hsx as [[-> _]|[-> _]], Hsy as [[-> _]|[-> _]];
        destruct (decide (- dy < e2)), (decide (e2 < dx)); lia.
    + constructor; [|done]. unfold between. cbn [row col]. clearbody e2.
      clear IH Hcells1 Herr Hrun Hlast Hlinked Hpts Hmoved.
      destruct Hsx as [[-> Hxe]|[-> Hxe]], Hsy as [[-> Hye]|[-> Hye]];
        destruct (decide (- dy < e2)), (decide (e2 < dx)); lia.
Qed.

Lemma linked_Forall_impl {A} (R R' : A → A → Prop) (P : A → Prop) l :
  (∀ a b, P a → P b → R a b → R' a b) →
  Forall P l → linked R l → linked R' l.
Proof.
  intros HR. induction l as [|x [|y l] IH]; simpl; [done | done |].
  intros [Hx [Hy Hl]%Forall_cons]%Forall_cons [Hxy Hrest].
  split; [by apply HR|]. apply IH; [|done]. by apply Forall_cons.
Qed.

Lemma getLineCells_Some start end_ :
  ∃ cells,
    getLineCells start end_ = Some cells ∧
    last (start :: cells) = Some end_ ∧
    linked kingMove (start :: cells) ∧
    Forall (λ q, q ≠ start ∧ between start end_ q) cells.
Proof.
  unfold getLineCells.
  destruct (lineLoop_spec start end_ _ _ _ _ eq_refl eq_refl eq_refl eq_refl
              (S (Z.to_nat (Z.abs (col end_ - col start) + Z.abs (row end_ - row start))))
              0 0 (col start) (row start)
              (Z.abs (col end_ - col start) - Z.abs (row end_ - row start)) [])
    as (pts & Hrun & Hlast & Hlinked & Hpts).
  { unfold lineState. split_and!; lia. }
  { lia. }
  exists pts. rewrite Hrun. rewrite decide_True by done.
  replace (mkCoordinate (row start) (col start)) with start in * by by destruct start.
  split_and!; [done | done | done |].
  eapply Forall_impl; [exact Hpts|]. intros q [Hfar ?]. split; [|done].
  intros ->. lia.
Qed.

(** X17. [getLineCells] always leaves its loop, and the cells it returns
    lead from [start] to [end]: the last cell is [end] (none when
    [end] is [start]), each cell is one of the eight neighbours of the
    one before, beginning next to [start], and every cell differs from
    [start] and lies in the rectangle spanned by [start] and [end]. *)
Theorem getLineCells_chain start end_ :
  ∃ cells,
    getLineCells start end_ = Some cells ∧
    last (start :: cells) = Some end_ ∧
    linked kingMove (start :: cells) ∧
    Forall (λ q, q ≠ start ∧ between start end_ q) cells.
Proof. apply getLineCells_Some. Qed.

(** X18. Along a row or a column [getLineCells] returns a chain of
    orthogonal neighbours from [start] to [end] that stays on that row
    or column. *)
Theorem getLineCells_straight start end_ :
  row start = row end_ ∨ col start = col end_ →
  ∃ cells,
    getLineCells start end_ = Some cells ∧
    last (start :: cells) = Some end_ ∧
    linked (λ a b, manhattan a b = 1) (start :: cells) ∧
    Forall (λ q, row start = row end_ → row q = row start) cells ∧
    Forall (λ q, col start = col end_ → col q = col start) cells.
Proof.
  intros Hstraight.
  destruct (getLineCells_Some start end_) as (cells & Hrun & Hlast & Hlinked & Hcells).
  exists cells. split_and!; [done | done | | |].
  - eapply (linked_Forall_impl kingMove _ (between start end_)); [| |exact Hlinked].
    + intros a b [Har Hac] [Hbr Hbc]. unfold kingMove, manhattan. lia.
    + apply Forall_cons. split; [unfold between; lia|].
      eapply Forall_impl; [exact Hcells|]. by intros q [_ ?].
  - eapply Forall_impl; [exact Hcells|]. intros q [_ [Hr _]]. lia.
  - eapply Forall_impl; [exact Hcells|]. intros q [_ [_ Hc]]. lia.
Qed.

(** X19. [queueMove] always returns and only ever appends to the move
    queue. Either it changes nothing; or the target becomes the last
    processed cell and the last cell queued. In that case a target on
    the current path, with a cell processed before, is queued alone and
    is the second-to-last entry of the path; and a target off the path
    is reached by a chain of neighbours from the last processed cell. *)
Theorem queueMove_queues path refs target :
  ∃ refs' added,
    queueMove path refs target = Some refs' ∧
    moveQueue refs' = moveQueue refs ++ added ∧
    ( (added = [] ∧ refs' = refs)
    ∨ (lastProcessedCell refs' = Some target ∧
       last added = Some target ∧
       (∀ i, path !! i = Some target → is_Some (lastProcessedCell refs) → NoDup path →
             added = [target] ∧ S (S i) = length path) ∧
       (∀ from, lastProcessedCell refs = Some from → target ∉ path →
                linked kingMove (from :: added) ∧
                Forall (λ q, q ≠ from ∧ between from target q) added)) ).
Proof.
  unfold queueMove. destruct (lastProcessedCell refs) as [from|] eqn:Hfrom.
  - case_decide as Hsame.
    { exists refs, []. rewrite app_nil_r. split_and!; [done | done | by left]. }
    destruct (findIndex path target) as [k|] eqn:Hfind.
    + case_decide as Hback.
      * eexists _, [target]. split_and!; [done | done |]. right. simpl.
        split_and!; [done | done | |].
        -- intros i Hi _ Hnodup. split; [done|].
           apply findIndex_Some in Hfind as [Hk _].
           pose proof (NoDup_lookup _ _ _ _ Hnodup Hi Hk). lia.
        -- intros from' _ Hnot. apply findIndex_Some in Hfind as [Hk%list_elem_of_lookup_2 _].
           done.
      * exists refs, []. rewrite app_nil_r. split_and!; [done | done | by left].
    + destruct (getLineCells_Some from target) as (cells & -> & Hlast & Hlinked & Hcells).
      simpl. eexists _, cells. split_and!; [done | done |]. right. simpl.
      assert (Hne : cells ≠ []).
      { intros ->. simpl in Hlast. injection Hlast as ->. by apply Hsame. }
      split_and!; [done | | |].
      * destruct cells as [|c cells]; [done|]. by rewrite last_cons_cons in Hlast.
      * intros i Hi%list_elem_of_lookup_2 _ _. by apply findIndex_None in Hfind.
      * intros from' [= <-] _. done.
  - eexists _, [target]. split_and!; [done | done |]. right. simpl.
    split_and!; [done | done | |].
    + by intros i _ [? ?].
    + by intros from' [=].
Qed.

(** * Properties of the score board *)

(** ** The best time *)

Lemma foldl_min_spec xs : ∀ a,
  (foldl Z.min a xs ≤ a ∧ Forall (λ x, foldl Z.min a xs ≤ x) xs) ∧
  (foldl Z.min a xs = a ∨ foldl Z.min a xs ∈ xs).
Proof.
  induction xs as [|x xs IH]; intros a; simpl.
  - split; [split; [lia | constructor] | by left].
  - destruct (IH (Z.min a x)) as [[Hle Hall] Hat]. split; [split|].
    + lia.
    + constructor; [lia | done].
    + destruct Hat as [Heq|Hin]; [|right; by right].
      rewrite Heq. destruct (Z.min_spec a x) as [[_ ->]|[_ ->]]; [by left | right; by left].
Qed.

Lemma foldl_min_app xs ys a :
  foldl Z.min a (xs ++ ys) = foldl Z.min (foldl Z.min a xs) ys.
Proof. apply foldl_app. Qed.

Lemma math_min_snoc xs t :
  math_min (xs ++ [t]) =
  Some (match math_min xs with Some b => Z.min b t | None => t end).
Proof.
  destruct xs as [|x xs]; [done|]. simpl. by rewrite foldl_app.
Qed.

Lemma best_time_min_of stored difficulty :
  getBestTimeForDifficulty stored difficulty =
  math_min (time <$> filter (λ s, score_difficulty s = difficulty) (getScores stored)).
Proof.
  unfold getBestTimeForDifficulty. case_decide as Hnil; [|done].
  apply length_zero_iff_nil in Hnil. by rewrite Hnil.
Qed.

(** X20. [getBestTimeForDifficulty] returns [null] exactly when no
    stored score has the difficulty; otherwise it returns the time of
    one of the stored scores of that difficulty, and no stored score
    of that difficulty has a smaller time. *)
Theorem best_time_is_minimum stored difficulty :
  match getBestTimeForDifficulty stored difficulty with
  | None => ∀ s, s ∈ getScores stored → score_difficulty s ≠ difficulty
  | Some best =>
      (∃ s, s ∈ getScores stored ∧ score_difficulty s = difficulty ∧ time s = best) ∧
      (∀ s, s ∈ getScores stored → score_difficulty s = difficulty → best ≤ time s)
  end.
Proof.
  rewrite best_time_min_of.
  destruct (filter _ _) as [|s0 rest] eqn:Hfilter; simpl.
  - intros s Hs Hd.
    assert (Hin : s ∈ filter (λ s, score_difficulty s = difficulty) (getScores stored))
      by (by rewrite list_elem_of_filter).
    rewrite Hfilter in Hin. by apply elem_of_nil in Hin.
  - destruct (foldl_min_spec (time <$> rest) (time s0)) as [[Hle Hall] Hat].
    assert (Hmem : ∀ s, s ∈ s0 :: rest ↔
                        score_difficulty s = difficulty ∧ s ∈ getScores stored).
    { intros s. rewrite <- Hfilter. by rewrite list_elem_of_filter. }
    split.
    + destruct Hat as [Heq|(s & Hs & Hin)%list_elem_of_fmap].
      * exists s0. destruct (proj1 (Hmem s0)) as [? ?]; [by left|]. done.
      * exists s. destruct (proj1 (Hmem s)) as [? ?]; [by right|]. done.
    + intros s Hs Hd.
      assert (Hin : s ∈ s0 :: rest) by by apply Hmem.
      apply elem_of_cons in Hin as [->|Hin]; [done|].
      rewrite Forall_forall in Hall. apply Hall. by apply list_elem_of_fmap_2.
Qed.

(** X21. After [saveScore] the best time of the saved difficulty is the
    saved time, or the former best time if that was smaller, and the
    best time of every other difficulty is what it was. *)
Theorem saveScore_best_time stored difficulty t name now other :
  getBestTimeForDifficulty (saveScore stored difficulty t name now) other =
  if decide (other = difficulty)
  then Some (match getBestTimeForDifficulty stored difficulty with
             | Some best => Z.min best t
             | None => t
             end)
  else getBestTimeForDifficulty stored other.
Proof.
  rewrite !best_time_min_of. unfold saveScore. cbn [getScores].
  rewrite filter_app. cbn [filter list_filter]. 
  destruct (decide (other = difficulty)) as [->|Hne].
  - rewrite (decide_True (P := score_difficulty _ = difficulty)) by done.
    rewrite fmap_app. apply math_min_snoc.
  - rewrite (decide_False (P := score_difficulty _ = other)) by (simpl; congruence).
    by rewrite app_nil_r.
Qed.

(** * The further properties at sample inputs *)

(** The session on [square] that walks its solution never aims at the
    head of the path. *)
Lemma squareTwo_offHead : reachableOffHead square squareTwo.
Proof.
  eapply offHead_move with (s := squareStart) (t := mkCoordinate 0 1).
  - apply offHead_init. reflexivity.
  - discriminate.
  - reflexivity.
Qed.

Lemma squareThree_offHead : reachableOffHead square squareThree.
Proof.
  eapply offHead_move with (s := squareTwo) (t := mkCoordinate 1 1).
  - apply squareTwo_offHead.
  - discriminate.
  - reflexivity.
Qed.

Lemma squareSolved_offHead : reachableOffHead square squareSolved.
Proof.
  eapply offHead_move with (s := squareThree) (t := mkCoordinate 1 0).
  - apply squareThree_offHead.
  - discriminate.
  - reflexivity.
Qed.

Lemma square_distinctClues : distinctClues square.
Proof. unfold distinctClues. apply (bool_decide_unpack _). vm_compute. exact I. Qed.

Lemma tourRun_orthogonal : drawnFrom (take 4 DIRECTIONS) tourRun.
Proof. unfold drawnFrom. apply (bool_decide_unpack _). vm_compute. exact I. Qed.

Lemma tourRun_start r c t :
  picks tourRun = r :: c :: t → inBounds 2 2 (mkCoordinate r c).
Proof. intros [= <- <- _]. unfold inBounds. simpl. lia. Qed.

Lemma makeMove_cases_witness :
  squareTwo = squareStart ∨
  (∃ i, currentPath squareStart !! i = Some (mkCoordinate 0 1) ∧
        (i < length (currentPath squareStart) - 1)%nat ∧
        currentPath squareTwo = take (S i) (currentPath squareStart) ∧
        isComplete squareTwo = false) ∨
  (currentPath squareTwo = currentPath squareStart ++ [mkCoordinate 0 1] ∧
   inBounds (rows (level squareStart)) (cols (level squareStart)) (mkCoordinate 0 1) ∧
   (last (currentPath squareStart) = Some (mkCoordinate 0 1) ∨
    ∃ current x,
      last (currentPath squareStart) = Some current ∧
      (mkCoordinate 0 1 ∉ currentPath squareStart) ∧
      manhattan current (mkCoordinate 0 1) = 1 ∧
      hasWall (walls (level squareStart)) current (mkCoordinate 0 1) = false ∧
      grid_at (grid squareStart) (row (mkCoordinate 0 1)) (col (mkCoordinate 0 1)) = Some x ∧
      visitedOrder x = None ∧
      (∀ v, isFixed x = true → value x = Some v → v = lastVisitedNumber squareStart + 1))).
Proof.
  apply (makeMove_cases squareStart (mkCoordinate 0 1) squareTwo). reflexivity.
Defined.

Lemma initializeGame_grid_witness :
  level squareStart = square ∧
  currentPath squareStart = option_list (startOf square) ∧
  lastVisitedNumber squareStart = (if startOf square is Some _ then 1 else 0) ∧
  isComplete squareStart = false ∧
  ∀ r c,
    grid_at (grid squareStart) r c =
    if decide (inBounds (rows square) (cols square) (mkCoordinate r c))
    then Some (mkCell r c
                 (clueAt (initialValues square) r c)
                 (bool_decide (is_Some (clueAt (initialValues square) r c)))
                 (if decide (startOf square = Some (mkCoordinate r c))
                  then Some 1 else None))
    else None.
Proof.
  apply (initializeGame_grid square squareStart). reflexivity.
Defined.

Lemma lastVisitedNumber_is_max_witness :
  isPathMax (grid squareThree) (currentPath squareThree) (lastVisitedNumber squareThree).
Proof.
  apply (lastVisitedNumber_is_max square squareThree).
  - apply square_distinctClues.
  - apply squareThree_offHead.
Defined.

Lemma complete_means_covered_witness :
  NoDup (currentPath squareSolved) ∧
  (∀ p, inBounds (rows square) (cols square) p → p ∈ currentPath squareSolved) ∧
  Some (lastVisitedNumber squareSolved) = math_max (clue_value <$> initialValues square).
Proof.
  apply (complete_means_covered square squareSolved).
  - apply square_cluesInGrid.
  - apply squareSolved_offHead.
  - reflexivity.
Defined.

Lemma step_then_back_witness :
  makeMove squareTwo corner = Returns squareStart.
Proof.
  apply (step_then_back square squareStart (mkCoordinate 0 1) squareTwo corner).
  - apply square_distinctClues.
  - apply offHead_init. reflexivity.
  - reflexivity.
  - reflexivity.
  - simpl. rewrite list_elem_of_singleton. discriminate.
  - reflexivity.
  - discriminate.
Defined.

Lemma findPath_sound_witness :
  head [mkCoordinate 0 0; mkCoordinate 1 0] = Some (mkCoordinate 0 0) ∧
  last [mkCoordinate 0 0; mkCoordinate 1 0] = Some (mkCoordinate 1 0) ∧
  linked (kingStep square ∅) [mkCoordinate 0 0; mkCoordinate 1 0] ∧
  NoDup [mkCoordinate 0 0; mkCoordinate 1 0].
Proof.
  apply (findPath_sound square (mkCoordinate 0 0) (mkCoordinate 1 0) ∅).
  vm_compute. reflexivity.
Defined.

Lemma isPuzzleSolvable_chain_witness :
  ∃ chain stops,
    threaded square (numberPositionsOf (initialValues square)) (Z.to_nat 2) chain stops.
Proof.
  apply (isPuzzleSolvable_chain square 2).
  - vm_compute. reflexivity.
  - reflexivity.
Defined.

Lemma hamiltonian_path_witness :
  NoDup tourPath ∧
  Z.of_nat (length tourPath) = 2 * 2 ∧
  (∀ q, q ∈ tourPath ↔ inBounds 2 2 q) ∧
  (drawnFrom (take 4 DIRECTIONS) tourRun →
   linked (λ a b, manhattan a b = 1) tourPath).
Proof.
  apply (hamiltonian_path 2 2 tourRun tourPath tourRunWalls).
  - vm_compute. reflexivity.
  - apply tourRun_start.
Defined.

Lemma cluesOf_numbers_witness :
  clue_value <$> [mkClue 0 0 1; mkClue 1 0 2] = seqZ 1 (Z.of_nat (size tourMarks)) ∧
  ∃ indices,
    Forall2 (λ iv x, at_index tourPath x = Some (clueCell iv))
            [mkClue 0 0 1; mkClue 1 0 2] indices ∧
    StronglySorted Z.lt indices ∧
    (∀ x, x ∈ indices ↔ x ∈ tourMarks) ∧
    head indices = Some 0.
Proof.
  apply (cluesOf_numbers tourPath tourMarks).
  - vm_compute. reflexivity.
  - unfold tourMarks. set_solver.
Defined.

Lemma walls_spare_path_witness :
  Forall (wallFits 2 2) [mkWall 0 0 horizontal] ∧
  ∀ i u v, tourPath !! i = Some u → tourPath !! S i = Some v →
           hasWall [mkWall 0 0 horizontal] u v = false ∧
           hasWall [mkWall 0 0 horizontal] v u = false.
Proof.
  apply (walls_spare_path 2 2 tourPath tourRunWalls [mkWall 0 0 horizontal] tourRunName).
  vm_compute. reflexivity.
Defined.

Lemma generateLevel_result_witness :
  rows tour = 2 ∧ cols tour = 2 ∧
  ( isPuzzleSolvable tour = Returns true ∧
    clue_value <$> initialValues tour = seqZ 1 (clueCount easy (2 * 2))
  ∨ walls tour = [] ∧
    clue_value <$> initialValues tour = seqZ 1 (clueCount easy (2 * 2)) ).
Proof.
  apply (generateLevel_result 2 2 easy tourRun tour tourRunEnd).
  vm_compute. reflexivity.
Defined.

Lemma generated_level_playable_witness :
  ∃ path rnd1,
    generateHamiltonianPath 2 2 tourRun = Some (Some path, rnd1) ∧
    solvedBy tour path.
Proof.
  apply (generated_level_playable 2 2 easy tourRun tour tourRunEnd).
  - left. vm_compute. reflexivity.
  - apply tourRun_start.
  - apply tourRun_orthogonal.
  - lia.
Defined.

Lemma getLineCells_straight_witness :
  ∃ cells,
    getLineCells (mkCoordinate 0 0) (mkCoordinate 0 3) = Some cells ∧
    last (mkCoordinate 0 0 :: cells) = Some (mkCoordinate 0 3) ∧
    linked (λ a b, manhattan a b = 1) (mkCoordinate 0 0 :: cells) ∧
    Forall (λ q, row (mkCoordinate 0 0) = row (mkCoordinate 0 3) →
                 row q = row (mkCoordinate 0 0)) cells ∧
    Forall (λ q, col (mkCoordinate 0 0) = col (mkCoordinate 0 3) →
                 col q = col (mkCoordinate 0 0)) cells.
Proof.
  apply (getLineCells_straight (mkCoordinate 0 0) (mkCoordinate 0 3)).
  left. reflexivity.
Defined.

Lemma squareBack_offHead : reachableOffHead square squareBack.
Proof.
  eapply offHead_move with (s := squareTwo) (t := corner).
  - apply squareTwo_offHead.
  - discriminate.
  - reflexivity.
Qed.

Lemma path_determines_state_witness : squareBack = squareStart.
Proof.
  apply (path_determines_state square squareBack squareStart).
  - apply square_cluesInGrid.
  - apply square_distinctClues.
  - apply squareBack_offHead.
  - apply offHead_init. reflexivity.
  - reflexivity.
Defined.

Lemma isValidMove_decides_makeMove_witness :
  (isValidMove squareStart (mkCoordinate 0 1) = Returns false →
   makeMove squareStart (mkCoordinate 0 1) = Returns squareStart) ∧
  (isValidMove squareStart (mkCoordinate 0 1) = Returns true →
   ∃ s', makeMove squareStart (mkCoordinate 0 1) = Returns s' ∧
         length (currentPath s') ≠ length (currentPath squareStart)).
Proof.
  apply (isValidMove_decides_makeMove squareStart (mkCoordinate 0 1)).
  apply squareStart_wellFormed.
Defined.

Lemma off_head_session_sound_witness :
  level squareThree = square ∧ wellFormed squareThree ∧ gridPathAgree squareThree ∧
  ∀ t, ∃ s', makeMove squareThree t = Returns s'.
Proof.
  apply (off_head_session_sound square squareThree).
  - apply square_cluesInGrid.
  - apply squareThree_offHead.
Defined.

Lemma generateLevel_throws_witness :
  ∃ rnd1 rnd2,
    attempts maxAttempts 1 3 easy strandedRun = Some (None, rnd1) ∧
    ( generateHamiltonianPath 1 3 rnd1 = Some (None, rnd2)
    ∨ ∃ path x,
        generateHamiltonianPath 1 3 rnd1 = Some (Some path, rnd2) ∧
        x ∈ picks rnd2 ∧ ¬ (0 ≤ x < Z.of_nat (length path)) ).
Proof.
  apply (generateLevel_throws 1 3 easy strandedRun strandedRunEnd).
  vm_compute. reflexivity.
Defined.

Lemma isPuzzleSolvable_throws_witness :
  ∃ m i,
    math_max (clue_value <$> initialValues headless) = Some m ∧
    1 ≤ i ≤ m ∧
    ∀ iv, iv ∈ initialValues headless → clue_value iv ≠ i.
Proof.
  apply (isPuzzleSolvable_throws headless). vm_compute. reflexivity.
Defined.

Lemma generated_level_wellformed_witness :
  cluesInGrid tour ∧ distinctClues tour ∧ Forall (wallFits 2 2) (walls tour).
Proof.
  apply (generated_level_wellformed 2 2 easy tourRun tour tourRunEnd).
  - left. vm_compute. reflexivity.
  - apply tourRun_start.
Defined.

